(** * cmgen: the image-based-lighting precomputation driver

    A shallow embedding of [tools/cmgen/src/cmgen.cpp]: the command-line
    handler, [main], [generateMipmaps], [sphericalHarmonics], [outputSh],
    the IBL stages and [exportKtxFaces], followed by the properties of the
    driver that the specification states.

    Conventions.
    - [size_t] and [unsigned long] are 64-bit, [unsigned int] and [int] are
      32-bit; values are [Z] and every wrap-around is written out.
    - [double] is the kernel's binary64 [float].
    - The process-wide [g_*] variables are the record [Globals], threaded
      through the monad [M] together with the console/file trace and the
      pixel store.
    - Routines that live outside this translation unit (image codecs, the
      cubemap kernels, [utils::Path], [getopt], the C++ string conversions)
      are the fields of the class [Collaborators]; every theorem holds for
      every implementation of them unless it states an assumption. *)

From Stdlib Require Import ZArith List String Ascii Bool Lia Arith.
From Stdlib Require Import Floats.PrimFloat Floats.SpecFloat Floats.FloatOps.
From Stdlib Require Import Numbers.Cyclic.Int63.Uint63.
From Stdlib Require DecimalString.
From Stdlib Require Floats.FloatAxioms.
Import ListNotations.
Open Scope string_scope.
Open Scope list_scope.
Open Scope Z_scope.

(** ** Machine integers *)

Definition SIZE_MAX_plus_1 : Z := 2 ^ 64.
Definition UINT_MAX_plus_1 : Z := 2 ^ 32.

(** A [size_t] result: reduction modulo 2^64. *)
Definition size_t (z : Z) : Z := z mod SIZE_MAX_plus_1.

(** Conversion to [unsigned int]: reduction modulo 2^32. *)
Definition unsigned (z : Z) : Z := z mod UINT_MAX_plus_1.

(** [__builtin_ctz] of an [unsigned int]: the number of trailing zero bits;
    the result is undefined for 0, which is [None] here. *)
Fixpoint ctz_pos (p : positive) : Z :=
  match p with
  | xO q => 1 + ctz_pos q
  | _ => 0
  end.

Definition builtin_ctz (x : Z) : option Z :=
  match unsigned x with
  | Zpos p => Some (ctz_pos p)
  | _ => None
  end.

(** [std::to_string] of an integer. *)
Definition to_string (z : Z) : string :=
  DecimalString.NilZero.string_of_int (Z.to_int z).

(** ** Doubles *)

Definition double := float.

(** Conversion of a small non-negative integer to [double] (exact below 2^53). *)
Definition to_double (z : Z) : double := PrimFloat.of_uint63 (Uint63.of_Z z).

(** [sq] of the math utilities: [x * x]. *)
Definition sq (x : double) : double := PrimFloat.mul x x.

Record double3 := mk_double3 { r : double; g : double; b : double }.

(** ** Enumerations of the driver *)

Inductive ShFile := SH_NONE | SH_CROSS | SH_TEXT.

Definition DFG_LUT_DEFAULT_SIZE : Z := 128.
Definition IBL_DEFAULT_SIZE : Z := 256.

Inductive OutputType := FACES | KTX | EQUIRECT | OCTAHEDRON.

(** [image::ImageEncoder::Format]: the enumerators the driver names, and
    whatever else [chooseFormat] may answer. *)
Inductive Format := PNG | HDR | RGBM | EXR | PSD | DDS_LINEAR | OtherFormat (tag : nat).

(** [Cubemap::Face]. *)
Inductive Face := PX | NX | PY | NY | PZ | NZ.

Definition ShFile_eqb (x y : ShFile) : bool :=
  match x, y with
  | SH_NONE, SH_NONE | SH_CROSS, SH_CROSS | SH_TEXT, SH_TEXT => true
  | _, _ => false
  end.

Definition OutputType_eqb (x y : OutputType) : bool :=
  match x, y with
  | FACES, FACES | KTX, KTX | EQUIRECT, EQUIRECT | OCTAHEDRON, OCTAHEDRON => true
  | _, _ => false
  end.

(** ** Pixel data

    Pixel values are never inspected by the driver: a raster is recorded by
    the way it was produced. *)

#[warnings="-register-all"]
Inductive Texels :=
| Uninitialized                                   (* a fresh buffer *)
| Decoded (path : string)                         (* ImageDecoder::decode *)
| Clamp (t : Texels)                              (* CubemapUtils::clamp *)
| CrossToCubemap (src : Texels)
| EquirectangularToCubemap (src : Texels)
| GenerateUVGrid (gridFrequencyX gridFrequencyY : Z)
| Brdf (linear_roughness : double)
| MirrorCubemap (src : Texels)
| MakeSeamless (t : Texels)
| DownsampleCubemapLevelBoxFilter (src : Texels)
| RenderSH (sh : list double3) (numBands : Z)
| RenderPreScaledSH3Bands (sh : list double3)
| GGXPrefilter (levels : list Texels) (linear_roughness : double) (numSamples : Z)
| UnfilteredCopy (base : Texels)
| DiffuseIrradiance (levels : list Texels) (numSamples : Z)
| CubemapToEquirectangular (src : Texels)
| CubemapToOctahedron (src : Texels)
| ImageForFace (face : Face) (src : Texels)
| DFG (multiscatter : bool).

(** An [Image] owns a raster of the store; a default-constructed or
    moved-from [Image] owns none. *)
Record Image := mk_Image { raster : option nat }.

(** A [Cubemap] is a view: its edge length and the raster it looks at. *)
Record Cubemap := mk_Cubemap { getDimensions : Z; backing : nat }.

(** What [ImageDecoder::decode] hands back. *)
Record LinearImage := mk_LinearImage
  { isValid : bool; getChannels : Z; getWidth : Z; getHeight : Z }.

(** ** The KTX container *)

Record KtxInfo := mk_KtxInfo
  { endianness : Z;
    glType : Z;
    glTypeSize : Z;
    glFormat : Z;
    glInternalFormat : Z;
    glBaseInternalFormat : Z;
    pixelWidth : Z;
    pixelHeight : Z;
    pixelDepth : Z }.

Record KtxBlobIndex := mk_KtxBlobIndex
  { mipLevel : Z; arrayIndex : Z; cubeFace : Z }.

(** The bytes given to [setBlob]: the RGBM conversion of a face, either raw
    or through the block compressor. *)
Record Blob := mk_Blob
  { blob_pixels : Texels; blob_compressed : bool; blob_size : Z }.

Record KtxBundle := mk_KtxBundle
  { numMipLevels : Z;
    arrayLength : Z;
    isCubemap : bool;
    info : KtxInfo;
    blobs : list (KtxBlobIndex * Blob);
    metadata : list (string * string) }.

Definition KtxBlobIndex_eqb (i j : KtxBlobIndex) : bool :=
  (mipLevel i =? mipLevel j) && (arrayIndex i =? arrayIndex j) && (cubeFace i =? cubeFace j).

Definition setBlob (c : KtxBundle) (i : KtxBlobIndex) (d : Blob) : KtxBundle :=
  mk_KtxBundle (numMipLevels c) (arrayLength c) (isCubemap c) (info c)
    ((i, d) :: filter (fun e => negb (KtxBlobIndex_eqb (fst e) i)) (blobs c))
    (metadata c).

Definition setMetadata (c : KtxBundle) (key value : string) : KtxBundle :=
  mk_KtxBundle (numMipLevels c) (arrayLength c) (isCubemap c) (info c) (blobs c)
    ((key, value) :: filter (fun e => negb (String.eqb (fst e) key)) (metadata c)).

Definition set_info (c : KtxBundle) (i : KtxInfo) : KtxBundle :=
  mk_KtxBundle (numMipLevels c) (arrayLength c) (isCubemap c) i (blobs c) (metadata c).

(** ** The process-wide configuration

    One field per [static] variable of the translation unit, with the
    source's names; paths are kept as the strings they were given. *)

Record Globals := mk_Globals
  { g_format : Format;
    g_type : OutputType;
    g_compression : string;
    g_extract_faces : bool;
    g_extract_blur : double;
    g_extract_dir : string;
    g_output_size : Z;
    g_quiet : bool;
    g_debug : bool;
    g_sh_compute : Z;
    g_sh_output : bool;
    g_sh_shader : bool;
    g_sh_irradiance : bool;
    g_sh_file : ShFile;
    g_sh_filename : string;
    g_coefficients : option (list double3);
    g_is_mipmap : bool;
    g_is_mipmap_dir : string;
    g_prefilter : bool;
    g_prefilter_dir : string;
    g_dfg : bool;
    g_dfg_filename : string;
    g_dfg_multiscatter : bool;
    g_ibl_irradiance : bool;
    g_ibl_irradiance_dir : string;
    g_deploy : bool;
    g_deploy_dir : string;
    g_num_samples : Z;
    g_mirror : bool }.

(** The initial values of the statics. *)
Definition initial_globals : Globals :=
  {| g_format := PNG; g_type := FACES; g_compression := "";
     g_extract_faces := false; g_extract_blur := 0%float; g_extract_dir := "";
     g_output_size := 0; g_quiet := false; g_debug := false;
     g_sh_compute := 0; g_sh_output := false; g_sh_shader := false;
     g_sh_irradiance := false; g_sh_file := SH_NONE; g_sh_filename := "";
     g_coefficients := None;
     g_is_mipmap := false; g_is_mipmap_dir := ""; g_prefilter := false;
     g_prefilter_dir := ""; g_dfg := false; g_dfg_filename := "";
     g_dfg_multiscatter := false; g_ibl_irradiance := false;
     g_ibl_irradiance_dir := ""; g_deploy := false; g_deploy_dir := "";
     g_num_samples := 1024; g_mirror := false |}.

(** Assignments to the statics, one per variable. *)

Definition set_g_format (v : Format) (gl : Globals) : Globals :=
  mk_Globals v (g_type gl) (g_compression gl) (g_extract_faces gl) (g_extract_blur gl)
    (g_extract_dir gl) (g_output_size gl) (g_quiet gl) (g_debug gl) (g_sh_compute gl)
    (g_sh_output gl) (g_sh_shader gl) (g_sh_irradiance gl) (g_sh_file gl) (g_sh_filename gl)
    (g_coefficients gl) (g_is_mipmap gl) (g_is_mipmap_dir gl) (g_prefilter gl)
    (g_prefilter_dir gl) (g_dfg gl) (g_dfg_filename gl) (g_dfg_multiscatter gl)
    (g_ibl_irradiance gl) (g_ibl_irradiance_dir gl) (g_deploy gl) (g_deploy_dir gl)
    (g_num_samples gl) (g_mirror gl).

Definition set_g_type (v : OutputType) (gl : Globals) : Globals :=
  mk_Globals (g_format gl) v (g_compression gl) (g_extract_faces gl) (g_extract_blur gl)
    (g_extract_dir gl) (g_output_size gl) (g_quiet gl) (g_debug gl) (g_sh_compute gl)
    (g_sh_output gl) (g_sh_shader gl) (g_sh_irradiance gl) (g_sh_file gl) (g_sh_filename gl)
    (g_coefficients gl) (g_is_mipmap gl) (g_is_mipmap_dir gl) (g_prefilter gl)
    (g_prefilter_dir gl) (g_dfg gl) (g_dfg_filename gl) (g_dfg_multiscatter gl)
    (g_ibl_irradiance gl) (g_ibl_irradiance_dir gl) (g_deploy gl) (g_deploy_dir gl)
    (g_num_samples gl) (g_mirror gl).

Definition set_g_compression (v : string) (gl : Globals) : Globals :=
  mk_Globals (g_format gl) (g_type gl) v (g_extract_faces gl) (g_extract_blur gl)
    (g_extract_dir gl) (g_output_size gl) (g_quiet gl) (g_debug gl) (g_sh_compute gl)
    (g_sh_output gl) (g_sh_shader gl) (g_sh_irradiance gl) (g_sh_file gl) (g_sh_filename gl)
    (g_coefficients gl) (g_is_mipmap gl) (g_is_mipmap_dir gl) (g_prefilter gl)
    (g_prefilter_dir gl) (g_dfg gl) (g_dfg_filename gl) (g_dfg_multiscatter gl)
    (g_ibl_irradiance gl) (g_ibl_irradiance_dir gl) (g_deploy gl) (g_deploy_dir gl)
    (g_num_samples gl) (g_mirror gl).

Definition set_g_extract_faces (v : bool) (gl : Globals) : Globals :=
  mk_Globals (g_format gl) (g_type gl) (g_compression gl) v (g_extract_blur gl)
    (g_extract_dir gl) (g_output_size gl) (g_quiet gl) (g_debug gl) (g_sh_compute gl)
    (g_sh_output gl) (g_sh_shader gl) (g_sh_irradiance gl) (g_sh_file gl) (g_sh_filename gl)
    (g_coefficients gl) (g_is_mipmap gl) (g_is_mipmap_dir gl) (g_prefilter gl)
    (g_prefilter_dir gl) (g_dfg gl) (g_dfg_filename gl) (g_dfg_multiscatter gl)
    (g_ibl_irradiance gl) (g_ibl_irradiance_dir gl) (g_deploy gl) (g_deploy_dir gl)
    (g_num_samples gl) (g_mirror gl).

Definition set_g_extract_blur (v : double) (gl : Globals) : Globals :=
  mk_Globals (g_format gl) (g_type gl) (g_compression gl) (g_extract_faces gl) v
    (g_extract_dir gl) (g_output_size gl) (g_quiet gl) (g_debug gl) (g_sh_compute gl)
    (g_sh_output gl) (g_sh_shader gl) (g_sh_irradiance gl) (g_sh_file gl) (g_sh_filename gl)
    (g_coefficients gl) (g_is_mipmap gl) (g_is_mipmap_dir gl) (g_prefilter gl)
    (g_prefilter_dir gl) (g_dfg gl) (g_dfg_filename gl) (g_dfg_multiscatter gl)
    (g_ibl_irradiance gl) (g_ibl_irradiance_dir gl) (g_deploy gl) (g_deploy_dir gl)
    (g_num_samples gl) (g_mirror gl).

Definition set_g_extract_dir (v : string) (gl : Globals) : Globals :=
  mk_Globals (g_format gl) (g_type gl) (g_compression gl) (g_extract_faces gl)
    (g_extract_blur gl) v (g_output_size gl) (g_quiet gl) (g_debug gl) (g_sh_compute gl)
    (g_sh_output gl) (g_sh_shader gl) (g_sh_irradiance gl) (g_sh_file gl) (g_sh_filename gl)
    (g_coefficients gl) (g_is_mipmap gl) (g_is_mipmap_dir gl) (g_prefilter gl)
    (g_prefilter_dir gl) (g_dfg gl) (g_dfg_filename gl) (g_dfg_multiscatter gl)
    (g_ibl_irradiance gl) (g_ibl_irradiance_dir gl) (g_deploy gl) (g_deploy_dir gl)
    (g_num_samples gl) (g_mirror gl).

Definition set_g_output_size (v : Z) (gl : Globals) : Globals :=
  mk_Globals (g_format gl) (g_type gl) (g_compression gl) (g_extract_faces gl)
    (g_extract_blur gl) (g_extract_dir gl) v (g_quiet gl) (g_debug gl) (g_sh_compute gl)
    (g_sh_output gl) (g_sh_shader gl) (g_sh_irradiance gl) (g_sh_file gl) (g_sh_filename gl)
    (g_coefficients gl) (g_is_mipmap gl) (g_is_mipmap_dir gl) (g_prefilter gl)
    (g_prefilter_dir gl) (g_dfg gl) (g_dfg_filename gl) (g_dfg_multiscatter gl)
    (g_ibl_irradiance gl) (g_ibl_irradiance_dir gl) (g_deploy gl) (g_deploy_dir gl)
    (g_num_samples gl) (g_mirror gl).

Definition set_g_quiet (v : bool) (gl : Globals) : Globals :=
  mk_Globals (g_format gl) (g_type gl) (g_compression gl) (g_extract_faces gl)
    (g_extract_blur gl) (g_extract_dir gl) (g_output_size gl) v (g_debug gl) (g_sh_compute
    gl) (g_sh_output gl) (g_sh_shader gl) (g_sh_irradiance gl) (g_sh_file gl) (g_sh_filename
    gl) (g_coefficients gl) (g_is_mipmap gl) (g_is_mipmap_dir gl) (g_prefilter gl)
    (g_prefilter_dir gl) (g_dfg gl) (g_dfg_filename gl) (g_dfg_multiscatter gl)
    (g_ibl_irradiance gl) (g_ibl_irradiance_dir gl) (g_deploy gl) (g_deploy_dir gl)
    (g_num_samples gl) (g_mirror gl).

Definition set_g_debug (v : bool) (gl : Globals) : Globals :=
  mk_Globals (g_format gl) (g_type gl) (g_compression gl) (g_extract_faces gl)
    (g_extract_blur gl) (g_extract_dir gl) (g_output_size gl) (g_quiet gl) v (g_sh_compute
    gl) (g_sh_output gl) (g_sh_shader gl) (g_sh_irradiance gl) (g_sh_file gl) (g_sh_filename
    gl) (g_coefficients gl) (g_is_mipmap gl) (g_is_mipmap_dir gl) (g_prefilter gl)
    (g_prefilter_dir gl) (g_dfg gl) (g_dfg_filename gl) (g_dfg_multiscatter gl)
    (g_ibl_irradiance gl) (g_ibl_irradiance_dir gl) (g_deploy gl) (g_deploy_dir gl)
    (g_num_samples gl) (g_mirror gl).

Definition set_g_sh_compute (v : Z) (gl : Globals) : Globals :=
  mk_Globals (g_format gl) (g_type gl) (g_compression gl) (g_extract_faces gl)
    (g_extract_blur gl) (g_extract_dir gl) (g_output_size gl) (g_quiet gl) (g_debug gl) v
    (g_sh_output gl) (g_sh_shader gl) (g_sh_irradiance gl) (g_sh_file gl) (g_sh_filename gl)
    (g_coefficients gl) (g_is_mipmap gl) (g_is_mipmap_dir gl) (g_prefilter gl)
    (g_prefilter_dir gl) (g_dfg gl) (g_dfg_filename gl) (g_dfg_multiscatter gl)
    (g_ibl_irradiance gl) (g_ibl_irradiance_dir gl) (g_deploy gl) (g_deploy_dir gl)
    (g_num_samples gl) (g_mirror gl).

Definition set_g_sh_output (v : bool) (gl : Globals) : Globals :=
  mk_Globals (g_format gl) (g_type gl) (g_compression gl) (g_extract_faces gl)
    (g_extract_blur gl) (g_extract_dir gl) (g_output_size gl) (g_quiet gl) (g_debug gl)
    (g_sh_compute gl) v (g_sh_shader gl) (g_sh_irradiance gl) (g_sh_file gl) (g_sh_filename
    gl) (g_coefficients gl) (g_is_mipmap gl) (g_is_mipmap_dir gl) (g_prefilter gl)
    (g_prefilter_dir gl) (g_dfg gl) (g_dfg_filename gl) (g_dfg_multiscatter gl)
    (g_ibl_irradiance gl) (g_ibl_irradiance_dir gl) (g_deploy gl) (g_deploy_dir gl)
    (g_num_samples gl) (g_mirror gl).

Definition set_g_sh_shader (v : bool) (gl : Globals) : Globals :=
  mk_Globals (g_format gl) (g_type gl) (g_compression gl) (g_extract_faces gl)
    (g_extract_blur gl) (g_extract_dir gl) (g_output_size gl) (g_quiet gl) (g_debug gl)
    (g_sh_compute gl) (g_sh_output gl) v (g_sh_irradiance gl) (g_sh_file gl) (g_sh_filename
    gl) (g_coefficients gl) (g_is_mipmap gl) (g_is_mipmap_dir gl) (g_prefilter gl)
    (g_prefilter_dir gl) (g_dfg gl) (g_dfg_filename gl) (g_dfg_multiscatter gl)
    (g_ibl_irradiance gl) (g_ibl_irradiance_dir gl) (g_deploy gl) (g_deploy_dir gl)
    (g_num_samples gl) (g_mirror gl).

Definition set_g_sh_irradiance (v : bool) (gl : Globals) : Globals :=
  mk_Globals (g_format gl) (g_type gl) (g_compression gl) (g_extract_faces gl)
    (g_extract_blur gl) (g_extract_dir gl) (g_output_size gl) (g_quiet gl) (g_debug gl)
    (g_sh_compute gl) (g_sh_output gl) (g_sh_shader gl) v (g_sh_file gl) (g_sh_filename gl)
    (g_coefficients gl) (g_is_mipmap gl) (g_is_mipmap_dir gl) (g_prefilter gl)
    (g_prefilter_dir gl) (g_dfg gl) (g_dfg_filename gl) (g_dfg_multiscatter gl)
    (g_ibl_irradiance gl) (g_ibl_irradiance_dir gl) (g_deploy gl) (g_deploy_dir gl)
    (g_num_samples gl) (g_mirror gl).

Definition set_g_sh_file (v : ShFile) (gl : Globals) : Globals :=
  mk_Globals (g_format gl) (g_type gl) (g_compression gl) (g_extract_faces gl)
    (g_extract_blur gl) (g_extract_dir gl) (g_output_size gl) (g_quiet gl) (g_debug gl)
    (g_sh_compute gl) (g_sh_output gl) (g_sh_shader gl) (g_sh_irradiance gl) v
    (g_sh_filename gl) (g_coefficients gl) (g_is_mipmap gl) (g_is_mipmap_dir gl)
    (g_prefilter gl) (g_prefilter_dir gl) (g_dfg gl) (g_dfg_filename gl) (g_dfg_multiscatter
    gl) (g_ibl_irradiance gl) (g_ibl_irradiance_dir gl) (g_deploy gl) (g_deploy_dir gl)
    (g_num_samples gl) (g_mirror gl).

Definition set_g_sh_filename (v : string) (gl : Globals) : Globals :=
  mk_Globals (g_format gl) (g_type gl) (g_compression gl) (g_extract_faces gl)
    (g_extract_blur gl) (g_extract_dir gl) (g_output_size gl) (g_quiet gl) (g_debug gl)
    (g_sh_compute gl) (g_sh_output gl) (g_sh_shader gl) (g_sh_irradiance gl) (g_sh_file gl)
    v (g_coefficients gl) (g_is_mipmap gl) (g_is_mipmap_dir gl) (g_prefilter gl)
    (g_prefilter_dir gl) (g_dfg gl) (g_dfg_filename gl) (g_dfg_multiscatter gl)
    (g_ibl_irradiance gl) (g_ibl_irradiance_dir gl) (g_deploy gl) (g_deploy_dir gl)
    (g_num_samples gl) (g_mirror gl).

Definition set_g_coefficients (v : option (list double3)) (gl : Globals) : Globals :=
  mk_Globals (g_format gl) (g_type gl) (g_compression gl) (g_extract_faces gl)
    (g_extract_blur gl) (g_extract_dir gl) (g_output_size gl) (g_quiet gl) (g_debug gl)
    (g_sh_compute gl) (g_sh_output gl) (g_sh_shader gl) (g_sh_irradiance gl) (g_sh_file gl)
    (g_sh_filename gl) v (g_is_mipmap gl) (g_is_mipmap_dir gl) (g_prefilter gl)
    (g_prefilter_dir gl) (g_dfg gl) (g_dfg_filename gl) (g_dfg_multiscatter gl)
    (g_ibl_irradiance gl) (g_ibl_irradiance_dir gl) (g_deploy gl) (g_deploy_dir gl)
    (g_num_samples gl) (g_mirror gl).

Definition set_g_is_mipmap (v : bool) (gl : Globals) : Globals :=
  mk_Globals (g_format gl) (g_type gl) (g_compression gl) (g_extract_faces gl)
    (g_extract_blur gl) (g_extract_dir gl) (g_output_size gl) (g_quiet gl) (g_debug gl)
    (g_sh_compute gl) (g_sh_output gl) (g_sh_shader gl) (g_sh_irradiance gl) (g_sh_file gl)
    (g_sh_filename gl) (g_coefficients gl) v (g_is_mipmap_dir gl) (g_prefilter gl)
    (g_prefilter_dir gl) (g_dfg gl) (g_dfg_filename gl) (g_dfg_multiscatter gl)
    (g_ibl_irradiance gl) (g_ibl_irradiance_dir gl) (g_deploy gl) (g_deploy_dir gl)
    (g_num_samples gl) (g_mirror gl).

Definition set_g_is_mipmap_dir (v : string) (gl : Globals) : Globals :=
  mk_Globals (g_format gl) (g_type gl) (g_compression gl) (g_extract_faces gl)
    (g_extract_blur gl) (g_extract_dir gl) (g_output_size gl) (g_quiet gl) (g_debug gl)
    (g_sh_compute gl) (g_sh_output gl) (g_sh_shader gl) (g_sh_irradiance gl) (g_sh_file gl)
    (g_sh_filename gl) (g_coefficients gl) (g_is_mipmap gl) v (g_prefilter gl)
    (g_prefilter_dir gl) (g_dfg gl) (g_dfg_filename gl) (g_dfg_multiscatter gl)
    (g_ibl_irradiance gl) (g_ibl_irradiance_dir gl) (g_deploy gl) (g_deploy_dir gl)
    (g_num_samples gl) (g_mirror gl).

Definition set_g_prefilter (v : bool) (gl : Globals) : Globals :=
  mk_Globals (g_format gl) (g_type gl) (g_compression gl) (g_extract_faces gl)
    (g_extract_blur gl) (g_extract_dir gl) (g_output_size gl) (g_quiet gl) (g_debug gl)
    (g_sh_compute gl) (g_sh_output gl) (g_sh_shader gl) (g_sh_irradiance gl) (g_sh_file gl)
    (g_sh_filename gl) (g_coefficients gl) (g_is_mipmap gl) (g_is_mipmap_dir gl) v
    (g_prefilter_dir gl) (g_dfg gl) (g_dfg_filename gl) (g_dfg_multiscatter gl)
    (g_ibl_irradiance gl) (g_ibl_irradiance_dir gl) (g_deploy gl) (g_deploy_dir gl)
    (g_num_samples gl) (g_mirror gl).

Definition set_g_prefilter_dir (v : string) (gl : Globals) : Globals :=
  mk_Globals (g_format gl) (g_type gl) (g_compression gl) (g_extract_faces gl)
    (g_extract_blur gl) (g_extract_dir gl) (g_output_size gl) (g_quiet gl) (g_debug gl)
    (g_sh_compute gl) (g_sh_output gl) (g_sh_shader gl) (g_sh_irradiance gl) (g_sh_file gl)
    (g_sh_filename gl) (g_coefficients gl) (g_is_mipmap gl) (g_is_mipmap_dir gl)
    (g_prefilter gl) v (g_dfg gl) (g_dfg_filename gl) (g_dfg_multiscatter gl)
    (g_ibl_irradiance gl) (g_ibl_irradiance_dir gl) (g_deploy gl) (g_deploy_dir gl)
    (g_num_samples gl) (g_mirror gl).

Definition set_g_dfg (v : bool) (gl : Globals) : Globals :=
  mk_Globals (g_format gl) (g_type gl) (g_compression gl) (g_extract_faces gl)
    (g_extract_blur gl) (g_extract_dir gl) (g_output_size gl) (g_quiet gl) (g_debug gl)
    (g_sh_compute gl) (g_sh_output gl) (g_sh_shader gl) (g_sh_irradiance gl) (g_sh_file gl)
    (g_sh_filename gl) (g_coefficients gl) (g_is_mipmap gl) (g_is_mipmap_dir gl)
    (g_prefilter gl) (g_prefilter_dir gl) v (g_dfg_filename gl) (g_dfg_multiscatter gl)
    (g_ibl_irradiance gl) (g_ibl_irradiance_dir gl) (g_deploy gl) (g_deploy_dir gl)
    (g_num_samples gl) (g_mirror gl).

Definition set_g_dfg_filename (v : string) (gl : Globals) : Globals :=
  mk_Globals (g_format gl) (g_type gl) (g_compression gl) (g_extract_faces gl)
    (g_extract_blur gl) (g_extract_dir gl) (g_output_size gl) (g_quiet gl) (g_debug gl)
    (g_sh_compute gl) (g_sh_output gl) (g_sh_shader gl) (g_sh_irradiance gl) (g_sh_file gl)
    (g_sh_filename gl) (g_coefficients gl) (g_is_mipmap gl) (g_is_mipmap_dir gl)
    (g_prefilter gl) (g_prefilter_dir gl) (g_dfg gl) v (g_dfg_multiscatter gl)
    (g_ibl_irradiance gl) (g_ibl_irradiance_dir gl) (g_deploy gl) (g_deploy_dir gl)
    (g_num_samples gl) (g_mirror gl).

Definition set_g_dfg_multiscatter (v : bool) (gl : Globals) : Globals :=
  mk_Globals (g_format gl) (g_type gl) (g_compression gl) (g_extract_faces gl)
    (g_extract_blur gl) (g_extract_dir gl) (g_output_size gl) (g_quiet gl) (g_debug gl)
    (g_sh_compute gl) (g_sh_output gl) (g_sh_shader gl) (g_sh_irradiance gl) (g_sh_file gl)
    (g_sh_filename gl) (g_coefficients gl) (g_is_mipmap gl) (g_is_mipmap_dir gl)
    (g_prefilter gl) (g_prefilter_dir gl) (g_dfg gl) (g_dfg_filename gl) v (g_ibl_irradiance
    gl) (g_ibl_irradiance_dir gl) (g_deploy gl) (g_deploy_dir gl) (g_num_samples gl)
    (g_mirror gl).

Definition set_g_ibl_irradiance (v : bool) (gl : Globals) : Globals :=
  mk_Globals (g_format gl) (g_type gl) (g_compression gl) (g_extract_faces gl)
    (g_extract_blur gl) (g_extract_dir gl) (g_output_size gl) (g_quiet gl) (g_debug gl)
    (g_sh_compute gl) (g_sh_output gl) (g_sh_shader gl) (g_sh_irradiance gl) (g_sh_file gl)
    (g_sh_filename gl) (g_coefficients gl) (g_is_mipmap gl) (g_is_mipmap_dir gl)
    (g_prefilter gl) (g_prefilter_dir gl) (g_dfg gl) (g_dfg_filename gl) (g_dfg_multiscatter
    gl) v (g_ibl_irradiance_dir gl) (g_deploy gl) (g_deploy_dir gl) (g_num_samples gl)
    (g_mirror gl).

Definition set_g_ibl_irradiance_dir (v : string) (gl : Globals) : Globals :=
  mk_Globals (g_format gl) (g_type gl) (g_compression gl) (g_extract_faces gl)
    (g_extract_blur gl) (g_extract_dir gl) (g_output_size gl) (g_quiet gl) (g_debug gl)
    (g_sh_compute gl) (g_sh_output gl) (g_sh_shader gl) (g_sh_irradiance gl) (g_sh_file gl)
    (g_sh_filename gl) (g_coefficients gl) (g_is_mipmap gl) (g_is_mipmap_dir gl)
    (g_prefilter gl) (g_prefilter_dir gl) (g_dfg gl) (g_dfg_filename gl) (g_dfg_multiscatter
    gl) (g_ibl_irradiance gl) v (g_deploy gl) (g_deploy_dir gl) (g_num_samples gl) (g_mirror
    gl).

Definition set_g_deploy (v : bool) (gl : Globals) : Globals :=
  mk_Globals (g_format gl) (g_type gl) (g_compression gl) (g_extract_faces gl)
    (g_extract_blur gl) (g_extract_dir gl) (g_output_size gl) (g_quiet gl) (g_debug gl)
    (g_sh_compute gl) (g_sh_output gl) (g_sh_shader gl) (g_sh_irradiance gl) (g_sh_file gl)
    (g_sh_filename gl) (g_coefficients gl) (g_is_mipmap gl) (g_is_mipmap_dir gl)
    (g_prefilter gl) (g_prefilter_dir gl) (g_dfg gl) (g_dfg_filename gl) (g_dfg_multiscatter
    gl) (g_ibl_irradiance gl) (g_ibl_irradiance_dir gl) v (g_deploy_dir gl) (g_num_samples
    gl) (g_mirror gl).

Definition set_g_deploy_dir (v : string) (gl : Globals) : Globals :=
  mk_Globals (g_format gl) (g_type gl) (g_compression gl) (g_extract_faces gl)
    (g_extract_blur gl) (g_extract_dir gl) (g_output_size gl) (g_quiet gl) (g_debug gl)
    (g_sh_compute gl) (g_sh_output gl) (g_sh_shader gl) (g_sh_irradiance gl) (g_sh_file gl)
    (g_sh_filename gl) (g_coefficients gl) (g_is_mipmap gl) (g_is_mipmap_dir gl)
    (g_prefilter gl) (g_prefilter_dir gl) (g_dfg gl) (g_dfg_filename gl) (g_dfg_multiscatter
    gl) (g_ibl_irradiance gl) (g_ibl_irradiance_dir gl) (g_deploy gl) v (g_num_samples gl)
    (g_mirror gl).

Definition set_g_num_samples (v : Z) (gl : Globals) : Globals :=
  mk_Globals (g_format gl) (g_type gl) (g_compression gl) (g_extract_faces gl)
    (g_extract_blur gl) (g_extract_dir gl) (g_output_size gl) (g_quiet gl) (g_debug gl)
    (g_sh_compute gl) (g_sh_output gl) (g_sh_shader gl) (g_sh_irradiance gl) (g_sh_file gl)
    (g_sh_filename gl) (g_coefficients gl) (g_is_mipmap gl) (g_is_mipmap_dir gl)
    (g_prefilter gl) (g_prefilter_dir gl) (g_dfg gl) (g_dfg_filename gl) (g_dfg_multiscatter
    gl) (g_ibl_irradiance gl) (g_ibl_irradiance_dir gl) (g_deploy gl) (g_deploy_dir gl) v
    (g_mirror gl).

Definition set_g_mirror (v : bool) (gl : Globals) : Globals :=
  mk_Globals (g_format gl) (g_type gl) (g_compression gl) (g_extract_faces gl)
    (g_extract_blur gl) (g_extract_dir gl) (g_output_size gl) (g_quiet gl) (g_debug gl)
    (g_sh_compute gl) (g_sh_output gl) (g_sh_shader gl) (g_sh_irradiance gl) (g_sh_file gl)
    (g_sh_filename gl) (g_coefficients gl) (g_is_mipmap gl) (g_is_mipmap_dir gl)
    (g_prefilter gl) (g_prefilter_dir gl) (g_dfg gl) (g_dfg_filename gl) (g_dfg_multiscatter
    gl) (g_ibl_irradiance gl) (g_ibl_irradiance_dir gl) (g_deploy gl) (g_deploy_dir gl)
    (g_num_samples gl) v.

(** ** Control: how a call can end, and the state it threads *)

Inductive Outcome (A : Type) :=
| Returns (a : A)          (* control reaches the next statement *)
| Exits (status : Z)       (* [exit(status)] *)
| Terminates               (* an exception that nothing catches *)
| Undefined.               (* undefined behaviour *)

Arguments Returns {A} a.
Arguments Exits {A} status.
Arguments Terminates {A}.
Arguments Undefined {A}.

(** Lines written to [std::cerr]. *)
Inductive Diagnostic :=
| OutputSizeNotPowerOfTwo
| RoughnessOutOfRange
| UnableToOpenImage (path : string)
| InputImageMustBeRGB (channels : Z)
| AspectRatioNotSupported (width height : Z)
| UnrecognizedCompression (compression : string).

(** One line of [outputSh]: the coefficient and its comment. *)
Record ShLine := mk_ShLine { coefficient : double3; name : string }.

(** Routines of the other translation units, as the driver calls them. *)
Inductive Call :=
| ImageDecoder_decode (path : string)
| CubemapUtils_clamp
| CubemapUtils_crossToCubemap (dim : Z)
| CubemapUtils_equirectangularToCubemap (dim : Z)
| CubemapUtils_generateUVGrid (dim gridFrequencyX gridFrequencyY : Z)
| CubemapIBL_brdf (dim : Z) (linear_roughness : double)
| CubemapUtils_mirrorCubemap (dim : Z)
| Cubemap_makeSeamless (dim : Z)
| CubemapUtils_downsampleCubemapLevelBoxFilter (dstDim srcDim : Z)
| CubemapSH_computeSH (numBands : Z) (irradiance : bool)
| CubemapSH_computeIrradianceSH3Bands
| CubemapSH_renderSH (dim numBands : Z)
| CubemapSH_renderPreScaledSH3Bands (dim : Z)
| CubemapIBL_roughnessFilter (dim : Z) (linear_roughness : double) (numSamples : Z)
| CubemapIBL_diffuseIrradiance (dim numSamples : Z)
| CubemapIBL_DFG (size : Z) (multiscatter : bool)
| CubemapUtils_cubemapToEquirectangular (dim : Z)
| CubemapUtils_cubemapToOctahedron (dim : Z)
| compressTexture_call (level face : Z)
| KtxBundle_serialize.

(** What the process does that can be observed, in order. *)
Inductive Event :=
| Usage                                              (* [printUsage] *)
| License                                            (* [license] *)
| Stdout (line : string)
| StdoutLevel (level : Z) (linear_roughness : double)
| StdoutMissing (iname : string)
| Stderr (d : Diagnostic)
| Ran (c : Call)
| Mkdir (dir : string)
| Encoded (path : string) (format : Format) (pixels : Texels) (compression : string)
| WroteSh (path : string) (lines : list ShLine)      (* [outputSh] into a file *)
| StdoutSh (lines : list ShLine)                     (* [outputSh] on [std::cout] *)
| WroteKtx (path : string) (container : KtxBundle)
| WroteDfgText (path : string) (size : Z) (isInclude : bool).

Record State := mk_State
  { globals : Globals;           (* the [g_*] statics *)
    trace : list Event;          (* what has been observed so far *)
    store : list Texels;         (* the rasters that exist, by number *)
    made : list string }.        (* directories made by [mkdirRecursive] *)

Definition initial_state : State :=
  {| globals := initial_globals; trace := []; store := []; made := [] |}.

Definition M (A : Type) : Type := State -> Outcome A * State.

Definition ret {A} (a : A) : M A := fun s => (Returns a, s).

Definition bind {A B} (c : M A) (k : A -> M B) : M B :=
  fun s =>
    match c s with
    | (Returns a, s') => k a s'
    | (Exits n, s') => (Exits n, s')
    | (Terminates, s') => (Terminates, s')
    | (Undefined, s') => (Undefined, s')
    end.

Declare Scope cmgen_scope.
Delimit Scope cmgen_scope with cmgen.
Notation "x <- c ;; k" := (bind c (fun x => k))
  (at level 61, c at next level, right associativity) : cmgen_scope.
Notation "' p <- c ;; k" := (bind c (fun x => let 'p := x in k))
  (at level 61, p pattern, c at next level, right associativity) : cmgen_scope.
Notation "c ;; k" := (bind c (fun _ => k))
  (at level 61, right associativity) : cmgen_scope.
Open Scope cmgen_scope.

Definition exit {A} (status : Z) : M A := fun s => (Exits status, s).
Definition terminate {A} : M A := fun s => (Terminates, s).
Definition undefined {A} : M A := fun s => (Undefined, s).

Definition get : M Globals := fun s => (Returns (globals s), s).

Definition modify (f : Globals -> Globals) : M unit :=
  fun s => (Returns tt, mk_State (f (globals s)) (trace s) (store s) (made s)).

Definition emit (e : Event) : M unit :=
  fun s => (Returns tt, mk_State (globals s) (trace s ++ [e]) (store s) (made s)).

Definition when (c : bool) (k : M unit) : M unit := if c then k else ret tt.

(** [if (!g_quiet) std::cout << line << std::endl;] *)
Definition say (line : string) : M unit :=
  gl <- get ;; when (negb (g_quiet gl)) (emit (Stdout line)).

(** A new raster with the given contents; its number. *)
Definition allocate (t : Texels) : M nat :=
  fun s => (Returns (List.length (store s)),
            mk_State (globals s) (trace s) (store s ++ [t]) (made s)).

Definition texelsOf (s : State) (n : nat) : Texels := nth n (store s) Uninitialized.

Definition load (n : nat) : M Texels := fun s => (Returns (texelsOf s n), s).

Fixpoint replace_nth {A} (n : nat) (x : A) (l : list A) : list A :=
  match l, n with
  | [], _ => []
  | _ :: t, O => x :: t
  | h :: t, S m => h :: replace_nth m x t
  end.

(** Overwrite raster [n] in place. *)
Definition overwrite (n : nat) (f : Texels -> Texels) : M unit :=
  fun s => (Returns tt,
            mk_State (globals s) (trace s)
              (replace_nth n (f (texelsOf s n)) (store s)) (made s)).

(** The pixels an [Image] owns. *)
Definition pixelsOf (img : Image) : M Texels :=
  match raster img with
  | Some n => load n
  | None => ret Uninitialized
  end.

(** [Cubemap::makeSeamless]: rewrites the border texels of the raster the
    cubemap views. *)
Definition makeSeamless (cm : Cubemap) : M unit :=
  emit (Ran (Cubemap_makeSeamless (getDimensions cm))) ;;
  overwrite (backing cm) MakeSeamless.

(** [CubemapUtils::create(image, dim)]: gives [image] a new raster and
    returns a cubemap of edge [dim] viewing it. *)
Definition create (dim : Z) : M (Image * Cubemap) :=
  n <- allocate Uninitialized ;;
  ret (mk_Image (Some n), mk_Cubemap dim n).

(** [Cubemap::getImageForFace]. *)
Definition getImageForFace (cm : Cubemap) (face : Face) : M Texels :=
  t <- load (backing cm) ;; ret (ImageForFace face t).

(** ** The collaborators

    Everything the driver calls that is defined in another translation unit
    or in a system library. Pixel kernels are not listed: they are recorded
    symbolically in [Texels]. *)

(** Result of [std::stoul], [std::stoi], [std::stod]: the value, or the
    exception thrown. *)
Inductive Conversion (A : Type) :=
| Converted (a : A)
| invalid_argument
| out_of_range.

Arguments Converted {A} a.
Arguments invalid_argument {A}.
Arguments out_of_range {A}.

Class Collaborators := mk_Collaborators
  { (* math utilities *)
    isPOT : Z -> bool;
    saturate : double -> double;
    log2 : double -> double;
    (* <string>, <cstdio> *)
    stoul : string -> Conversion Z;
    stoi : string -> Conversion Z;
    stod : string -> Conversion double;
    (* [sscanf(str, fmt, &p)] for [fmt] = a literal followed by [%u]:
       [Some p] when the call returns 1 *)
    sscanf_u : string -> string -> option Z;
    formatDouble : double -> string;
    (* utils::Path *)
    exists_on_disk : string -> bool;
    getName : string -> string;
    getNameWithoutExtension : string -> string;
    getExtension : string -> string;
    getAbsolutePath : string -> string;
    getParent : string -> string;
    concat : string -> string -> string;
    (* imageio *)
    decode : string -> LinearImage;
    encode : Format -> Texels -> string -> string -> bool;
    chooseFormat : string -> bool -> Format;
    chooseExtension : Format -> string;
    CompressionConfig : Type;
    no_compression : CompressionConfig;                (* [CompressionConfig {}] *)
    is_INVALID : CompressionConfig -> bool;            (* [type == INVALID] *)
    parseOptionString : string -> CompressionConfig -> bool * CompressionConfig;
    compressTexture : CompressionConfig -> Texels -> Z * Z;   (* size, format *)
    (* cubemap library *)
    face_of_index : Z -> Face;                         (* [(Cubemap::Face) i] *)
    getFaceName : Face -> string;
    computeSH : Texels -> Z -> bool -> list double3;
    computeIrradianceSH3Bands : Texels -> list double3;
    (* KtxBundle constants *)
    ENDIAN_DEFAULT : Z;
    UNSIGNED_BYTE : Z;
    RGBA : Z }.

Section Driver.

Context {collaborators : Collaborators}.

(** [Path::exists] once the run may have made directories. *)
Definition exists_now (path : string) : M bool :=
  fun s => (Returns (exists_on_disk path || existsb (String.eqb path) (made s)), s).

(** [if (!outputDir.exists()) outputDir.mkdirRecursive();] *)
Definition ensureDirectory (outputDir : string) : M unit :=
  e <- exists_now outputDir ;;
  when (negb e)
    (emit (Mkdir outputDir) ;;
     fun s => (Returns tt,
               mk_State (globals s) (trace s) (store s) (outputDir :: made s))).

(** ** handleCommandLineArgments *)

(** The locals of the option loop. *)
Record Locals := mk_Locals
  { num_sh_bands : Z;
    format_specified : bool;
    type_specified : bool;
    ktx_format_requested : bool }.

Definition initial_locals : Locals :=
  {| num_sh_bands := 3; format_specified := false; type_specified := false;
     ktx_format_requested := false |}.

Definition set_num_sh_bands (v : Z) (lc : Locals) : Locals :=
  mk_Locals v (format_specified lc) (type_specified lc) (ktx_format_requested lc).
Definition set_format_specified (v : bool) (lc : Locals) : Locals :=
  mk_Locals (num_sh_bands lc) v (type_specified lc) (ktx_format_requested lc).
Definition set_type_specified (v : bool) (lc : Locals) : Locals :=
  mk_Locals (num_sh_bands lc) (format_specified lc) v (ktx_format_requested lc).
Definition set_ktx_format_requested (v : bool) (lc : Locals) : Locals :=
  mk_Locals (num_sh_bands lc) (format_specified lc) (type_specified lc) v.

(** [if (c) { <static> = ...; <local> = ...; }] *)
Definition if_then (c : bool) (f : Globals -> Globals) (h : Locals -> Locals)
    (lc : Locals) : M Locals :=
  if c then modify f ;; ret (h lc) else ret lc.

(** The body of the [switch] for one option returned by [getopt_long];
    [arg] is [optarg], or the empty string when there is none. *)
Definition handleOption (opt : ascii) (arg : string) (lc : Locals) : M Locals :=
  match opt with
  | "l"%char => emit License ;; exit 0
  | "q"%char => modify (set_g_quiet true) ;; ret lc
  | "t"%char =>
      lc <- if_then (String.eqb arg "cubemap")
              (set_g_type FACES) (set_type_specified true) lc ;;
      lc <- if_then (String.eqb arg "ktx")
              (set_g_type KTX) (set_type_specified true) lc ;;
      lc <- if_then (String.eqb arg "equirect" || String.eqb arg "equirectangular")
              (set_g_type EQUIRECT) (set_type_specified true) lc ;;
      if_then (String.eqb arg "octahedron")
        (set_g_type OCTAHEDRON) (set_type_specified true) lc
  | "f"%char =>
      lc <- if_then (String.eqb arg "png")
              (set_g_format PNG) (set_format_specified true) lc ;;
      lc <- if_then (String.eqb arg "hdr")
              (set_g_format HDR) (set_format_specified true) lc ;;
      lc <- if_then (String.eqb arg "rgbm")
              (set_g_format RGBM) (set_format_specified true) lc ;;
      lc <- if_then (String.eqb arg "exr")
              (set_g_format EXR) (set_format_specified true) lc ;;
      lc <- if_then (String.eqb arg "psd")
              (set_g_format PSD) (set_format_specified true) lc ;;
      lc <- if_then (String.eqb arg "dds")
              (set_g_format DDS_LINEAR) (set_format_specified true) lc ;;
      if_then (String.eqb arg "ktx")
        (fun gl => gl)
        (fun lc => set_format_specified true (set_ktx_format_requested true lc)) lc
  | "c"%char => modify (set_g_compression arg) ;; ret lc
  | "s"%char =>
      match stoul arg with
      | Converted v =>
          modify (set_g_output_size (size_t v)) ;;
          if negb (isPOT (size_t v))
          then emit (Stderr OutputSizeNotPowerOfTwo) ;; exit 0
          else ret lc
      | _ => terminate
      end
  | "z"%char =>
      modify (set_g_sh_compute 1) ;;
      modify (set_g_sh_output true) ;;
      match stoi arg with
      | Converted v => ret (set_num_sh_bands v lc)
      | invalid_argument => ret lc          (* keep default value *)
      | out_of_range => terminate
      end
  | "o"%char =>
      modify (set_g_sh_compute 1) ;;
      modify (set_g_sh_output true) ;;
      modify (set_g_sh_file SH_CROSS) ;;
      modify (set_g_sh_filename arg) ;;
      when (String.eqb (getExtension arg) "txt") (modify (set_g_sh_file SH_TEXT)) ;;
      ret lc
  | "i"%char =>
      modify (set_g_sh_compute 1) ;;
      modify (set_g_sh_irradiance true) ;;
      ret lc
  | "b"%char =>
      modify (set_g_sh_compute 1) ;;
      modify (set_g_sh_irradiance true) ;;
      modify (set_g_sh_shader true) ;;
      ret lc
  | "e"%char =>
      modify (set_g_extract_dir arg) ;;
      modify (set_g_extract_faces true) ;;
      ret lc
  | "r"%char =>
      match stod arg with
      | Converted v =>
          modify (set_g_extract_blur v) ;;
          if PrimFloat.ltb v 0 || PrimFloat.ltb 1 v
          then emit (Stderr RoughnessOutOfRange) ;; exit 0
          else ret lc
      | _ => terminate
      end
  | "y"%char =>
      modify (set_g_is_mipmap true) ;; modify (set_g_is_mipmap_dir arg) ;; ret lc
  | "p"%char =>
      modify (set_g_prefilter true) ;; modify (set_g_prefilter_dir arg) ;; ret lc
  | "P"%char =>
      modify (set_g_ibl_irradiance true) ;; modify (set_g_ibl_irradiance_dir arg) ;; ret lc
  | "a"%char =>
      modify (set_g_dfg true) ;; modify (set_g_dfg_filename arg) ;; ret lc
  | "u"%char => modify (set_g_dfg_multiscatter true) ;; ret lc
  | "k"%char =>
      match stoi arg with
      | Converted v => modify (set_g_num_samples (size_t v)) ;; ret lc
      | _ => terminate
      end
  | "x"%char =>
      modify (set_g_deploy true) ;; modify (set_g_deploy_dir arg) ;; ret lc
  | "d"%char => modify (set_g_debug true) ;; ret lc
  | "m"%char => modify (set_g_mirror true) ;; ret lc
  | _ => emit Usage ;; exit 0            (* default: case 'h' *)
  end.

(** [while ((opt = getopt_long(...)) >= 0)]: the options in the order
    [getopt_long] returns them, each with its [optarg] if any. *)
Fixpoint optionLoop (opts : list (ascii * option string)) (lc : Locals) : M Locals :=
  match opts with
  | [] => ret lc
  | (opt, optarg) :: rest =>
      lc <- handleOption opt (match optarg with Some a => a | None => "" end) lc ;;
      optionLoop rest lc
  end.

Definition handleCommandLineArgments (opts : list (ascii * option string)) : M unit :=
  lc <- optionLoop opts initial_locals ;;
  when (ktx_format_requested lc) (modify (set_g_type KTX)) ;;
  let type_specified := type_specified lc || ktx_format_requested lc in
  gl <- get ;;
  when (g_deploy gl && negb type_specified) (modify (set_g_type FACES)) ;;
  when (g_deploy gl && negb (format_specified lc)) (modify (set_g_format RGBM)) ;;
  gl <- get ;;
  when (negb (num_sh_bands lc =? 0) && negb (g_sh_compute gl =? 0))
    (modify (set_g_sh_compute (size_t (num_sh_bands lc)))).

(** ** generateMipmaps *)

(** [CubemapUtils::downsampleCubemapLevelBoxFilter(dst, src)]: writes the
    raster of [dst] from the raster of [src]. *)
Definition downsampleCubemapLevelBoxFilter (dst src : Cubemap) : M unit :=
  emit (Ran (CubemapUtils_downsampleCubemapLevelBoxFilter
               (getDimensions dst) (getDimensions src))) ;;
  t <- load (backing src) ;;
  overwrite (backing dst) (fun _ => DownsampleCubemapLevelBoxFilter t).

(** One turn of the [while] loop, [dim] being the value after [dim >>= 1]. *)
Definition mipStep (dim : Z) (mipLevel : nat) (levels : list Cubemap)
    (images : list Image) : M (list Cubemap * list Image) :=
  '(temp, dst) <- create dim ;;
  match nth_error levels mipLevel with
  | None => undefined
  | Some src =>
      downsampleCubemapLevelBoxFilter dst src ;;
      makeSeamless dst ;;
      ret (levels ++ [dst], images ++ [temp])
  end.

(** [while (dim > 1) { dim >>= 1; ... }] for a positive [dim]: the shift
    drops the last binary digit, so the loop is a recursion on the digits
    ([mipLoop_unfold] states it in the source's terms). *)
Fixpoint mipLoop (dim : positive) (mipLevel : nat) (levels : list Cubemap)
    (images : list Image) : M (list Cubemap * list Image) :=
  match dim with
  | xH => ret (levels, images)
  | xO half | xI half =>
      '(levels, images) <- mipStep (Zpos half) mipLevel levels images ;;
      mipLoop half (S mipLevel) levels images
  end.

Definition generateMipmaps (levels : list Cubemap) (images : list Image)
    : M (list Cubemap * list Image) :=
  match levels with
  | [] => undefined                       (* [levels[0]] of an empty vector *)
  | base :: _ =>
      match getDimensions base with
      | Zpos dim => mipLoop dim 0 levels images
      | _ => ret (levels, images)          (* [dim > 1] is false at once *)
      end
  end.

(** ** saveImage *)

(** Opens (and truncates) the file, encodes into it, and ends the process
    with status 1 when the encoder fails. *)
Definition saveImage (path : string) (format : Format) (image : Texels)
    (compression : string) : M unit :=
  emit (Encoded path format image compression) ;;
  if encode format image compression path then ret tt else exit 1.

(** ** outputSh *)

(** Modelled from the spec: [CubemapSH::getShIndex] is declared in
    [CubemapSH.h], which is not part of the sources at hand; the data model
    fixes the index function as [index(l,m) = l^2 + l + m]. *)
Definition getShIndex (m l : Z) : Z := l * l + l + m.

(** The values [from, from+1, ..., from+count-1] of a counting [for] loop. *)
Definition range (from : Z) (count : nat) : list Z :=
  map (fun k => from + Z.of_nat k) (seq 0 count).

(** Where [outputSh] writes. *)
Inductive Stream := ToStdout | ToFile (path : string).

(** The body of the inner loop: the line for band [l], order [m]; [None]
    when [sh[i]] is read past the end of the array. *)
Definition shLine (gl : Globals) (sh : list double3) (l m : Z) : option ShLine :=
  let i := getShIndex m l in
  let name := String.append "L" (String.append (to_string l) (to_string m)) in
  let name := if g_sh_irradiance gl then String.append name ", irradiance" else name in
  let name := if g_sh_shader gl then String.append name ", pre-scaled base" else name in
  if i <? 0 then None
  else match nth_error sh (Z.to_nat i) with
       | Some c => Some (mk_ShLine c name)
       | None => None
       end.

(** All of a list of optional results, or [None] at the first missing one. *)
Fixpoint sequence {A} (l : list (option A)) : option (list A) :=
  match l with
  | [] => Some []
  | None :: _ => None
  | Some a :: t =>
      match sequence t with
      | Some r => Some (a :: r)
      | None => None
      end
  end.

(** [for (l = 0; l < numBands; l++) for (m = -l; m <= l; m++) ...] *)
Definition shLines (gl : Globals) (sh : list double3) (numBands : Z)
    : option (list ShLine) :=
  sequence
    (flat_map (fun l => map (shLine gl sh l) (range (- l) (Z.to_nat (2 * l + 1))))
              (range 0 (Z.to_nat numBands))).

Definition outputSh (out : Stream) (sh : list double3) (numBands : Z) : M unit :=
  gl <- get ;;
  match shLines gl sh numBands with
  | None => undefined
  | Some lines =>
      match out with
      | ToStdout => emit (StdoutSh lines)
      | ToFile path => emit (WroteSh path lines)
      end
  end.

(** ** Small helpers shared by the stages *)

Local Notation "a +++ b" := (String.append a b) (at level 60, right associativity).

(** A [for] loop over the given values of the loop variable. *)
Fixpoint forEach {A} (l : list A) (body : A -> M unit) : M unit :=
  match l with
  | [] => ret tt
  | a :: t => body a ;; forEach t body
  end.

(** The rasters of a vector of cubemaps, as they are now. *)
Fixpoint loadAll (levels : list Cubemap) : M (list Texels) :=
  match levels with
  | [] => ret []
  | cm :: t => x <- load (backing cm) ;; xs <- loadAll t ;; ret (x :: xs)
  end.

(** [g_output_size ? g_output_size : otherwise] *)
Definition outputSizeOr (gl : Globals) (otherwise : Z) : Z :=
  if g_output_size gl =? 0 then otherwise else g_output_size gl.

Definition renderSH (cm : Cubemap) (sh : list double3) (numBands : Z) : M unit :=
  emit (Ran (CubemapSH_renderSH (getDimensions cm) numBands)) ;;
  overwrite (backing cm) (fun _ => RenderSH sh numBands).

Definition renderPreScaledSH3Bands (cm : Cubemap) (sh : list double3) : M unit :=
  emit (Ran (CubemapSH_renderPreScaledSH3Bands (getDimensions cm))) ;;
  overwrite (backing cm) (fun _ => RenderPreScaledSH3Bands sh).

(** An equirectangular or octahedral image made from a cubemap. *)
Definition cubemapToEquirectangular (cm : Cubemap) : M Texels :=
  emit (Ran (CubemapUtils_cubemapToEquirectangular (getDimensions cm))) ;;
  t <- load (backing cm) ;; ret (CubemapToEquirectangular t).

Definition cubemapToOctahedron (cm : Cubemap) : M Texels :=
  emit (Ran (CubemapUtils_cubemapToOctahedron (getDimensions cm))) ;;
  t <- load (backing cm) ;; ret (CubemapToOctahedron t).

(** ** sphericalHarmonics *)

Definition sphericalHarmonics (iname : string) (inputCubemap : Cubemap) : M unit :=
  gl <- get ;;
  input <- load (backing inputCubemap) ;;
  sh <- (if g_sh_shader gl
         then emit (Ran CubemapSH_computeIrradianceSH3Bands) ;;
              ret (computeIrradianceSH3Bands input)
         else emit (Ran (CubemapSH_computeSH (g_sh_compute gl) (g_sh_irradiance gl))) ;;
              ret (computeSH input (g_sh_compute gl) (g_sh_irradiance gl))) ;;
  when (g_sh_output gl) (outputSh ToStdout sh (g_sh_compute gl)) ;;
  sh <- (if negb (ShFile_eqb (g_sh_file gl) SH_NONE) || g_debug gl
         then
           let dim := outputSizeOr gl (getDimensions inputCubemap) in
           '(image, cm) <- create dim ;;
           when (negb (ShFile_eqb (g_sh_file gl) SH_NONE))
             (ensureDirectory (getParent (getAbsolutePath (g_sh_filename gl))) ;;
              (if g_sh_shader gl
               then renderPreScaledSH3Bands cm sh
               else renderSH cm sh (g_sh_compute gl)) ;;
              when (ShFile_eqb (g_sh_file gl) SH_CROSS)
                (pixels <- pixelsOf image ;;
                 saveImage (g_sh_filename gl)
                   (chooseFormat (getName (g_sh_filename gl)) false)
                   pixels (g_compression gl)) ;;
              when (ShFile_eqb (g_sh_file gl) SH_TEXT)
                (outputSh (ToFile (g_sh_filename gl)) sh (g_sh_compute gl))) ;;
           if g_debug gl
           then
             let outputDir := getParent (getAbsolutePath (g_sh_filename gl)) in
             ensureDirectory outputDir ;;
             let basename := getNameWithoutExtension iname in
             (* what was just calculated (radiance or irradiance) *)
             pixels <- pixelsOf image ;;
             saveImage
               (concat outputDir
                  (basename +++ "_sh" +++ (if g_sh_irradiance gl then "_i" else "_r")
                     +++ ".hdr"))
               HDR pixels "" ;;
             (* the other one (irradiance or radiance) *)
             emit (Ran (CubemapSH_computeSH (g_sh_compute gl) (negb (g_sh_irradiance gl)))) ;;
             let sh := computeSH input (g_sh_compute gl) (negb (g_sh_irradiance gl)) in
             renderSH cm sh (g_sh_compute gl) ;;
             pixels <- pixelsOf image ;;
             saveImage
               (concat outputDir
                  (basename +++ "_sh" +++ (if negb (g_sh_irradiance gl) then "_i" else "_r")
                     +++ ".hdr"))
               HDR pixels "" ;;
             ret sh
           else ret sh
         else ret sh) ;;
  (* stash the coefficients for a later stage (KTX generation) *)
  modify (set_g_coefficients (Some sh)).

(** ** iblMipmapPrefilter *)

Definition iblMipmapPrefilter (iname : string) (images : list Image)
    (levels : list Cubemap) (dir : string) : M unit :=
  let outputDir := concat (getAbsolutePath dir) (getNameWithoutExtension iname) in
  ensureDirectory outputDir ;;
  let numLevels := List.length levels in
  forEach (seq 0 numLevels) (fun level =>
    match nth_error levels level, nth_error images level with
    | Some dst, Some img =>
        gl <- get ;;
        when (g_debug gl)
          (let ext := chooseExtension HDR in
           let basename := getNameWithoutExtension iname in
           pixels <- pixelsOf img ;;
           saveImage
             (concat outputDir (basename +++ "_is_m" +++ to_string (Z.of_nat level) +++ ext))
             HDR pixels (g_compression gl)) ;;
        let ext := chooseExtension (g_format gl) in
        if OutputType_eqb (g_type gl) EQUIRECT then
          image <- cubemapToEquirectangular dst ;;
          saveImage (concat outputDir ("is_m" +++ to_string (Z.of_nat level) +++ ext))
            (g_format gl) image (g_compression gl)
        else if OutputType_eqb (g_type gl) OCTAHEDRON then
          image <- cubemapToOctahedron dst ;;
          saveImage (concat outputDir ("is_m" +++ to_string (Z.of_nat level) +++ ext))
            (g_format gl) image (g_compression gl)
        else
          forEach (range 0 6) (fun i =>
            let face := face_of_index i in
            image <- getImageForFace dst face ;;
            saveImage
              (concat outputDir
                 ("is_m" +++ to_string (Z.of_nat level) +++ "_" +++ getFaceName face +++ ext))
              (g_format gl) image (g_compression gl))
    | _, _ => undefined
    end).

(** ** exportKtxFaces *)

Definition set_glTypeSize (v : Z) (i : KtxInfo) : KtxInfo :=
  mk_KtxInfo (endianness i) (glType i) v (glFormat i) (glInternalFormat i)
    (glBaseInternalFormat i) (pixelWidth i) (pixelHeight i) (pixelDepth i).
Definition set_glFormat (v : Z) (i : KtxInfo) : KtxInfo :=
  mk_KtxInfo (endianness i) (glType i) (glTypeSize i) v (glInternalFormat i)
    (glBaseInternalFormat i) (pixelWidth i) (pixelHeight i) (pixelDepth i).
Definition set_glInternalFormat (v : Z) (i : KtxInfo) : KtxInfo :=
  mk_KtxInfo (endianness i) (glType i) (glTypeSize i) (glFormat i) v
    (glBaseInternalFormat i) (pixelWidth i) (pixelHeight i) (pixelDepth i).
Definition set_glBaseInternalFormat (v : Z) (i : KtxInfo) : KtxInfo :=
  mk_KtxInfo (endianness i) (glType i) (glTypeSize i) (glFormat i) (glInternalFormat i)
    v (pixelWidth i) (pixelHeight i) (pixelDepth i).

(** The [switch (j)] of the face loop. *)
Definition ktxFace (j : Z) : Face :=
  match j with
  | 0 => PX
  | 1 => NX
  | 2 => PY
  | 3 => NY
  | 4 => PZ
  | _ => NZ
  end.

(** The body of [for (uint32_t j = 0; j < 6; j++)]. *)
Definition exportKtxFace (compression : CompressionConfig) (miplevel : Z)
    (cm : Cubemap) (container : KtxBundle) (j : Z) : M KtxBundle :=
  let dim := unsigned (getDimensions cm) in
  let blobIndex := mk_KtxBlobIndex (unsigned miplevel) 0 j in
  image <- getImageForFace cm (ktxFace j) ;;
  if negb (is_INVALID compression) then
    emit (Ran (compressTexture_call miplevel j)) ;;
    let tex := compressTexture compression image in
    let container := setBlob container blobIndex (mk_Blob image true (fst tex)) in
    ret (set_info container (set_glInternalFormat (unsigned (snd tex)) (info container)))
  else
    ret (setBlob container blobIndex (mk_Blob image false (unsigned (dim * dim * 4)))).

Fixpoint exportKtxFaceLoop (js : list Z) (compression : CompressionConfig)
    (miplevel : Z) (cm : Cubemap) (container : KtxBundle) : M KtxBundle :=
  match js with
  | [] => ret container
  | j :: rest =>
      container <- exportKtxFace compression miplevel cm container j ;;
      exportKtxFaceLoop rest compression miplevel cm container
  end.

Definition exportKtxFaces (container : KtxBundle) (miplevel : Z) (cm : Cubemap)
    : M KtxBundle :=
  gl <- get ;;
  '(compression, container) <-
    (if negb (String.eqb (g_compression gl) "") then
       let parsed := parseOptionString (g_compression gl) no_compression in
       if negb (fst parsed) then
         emit (Stderr (UnrecognizedCompression (g_compression gl))) ;; exit 1
       else
         (* compressed textures: glTypeSize 1, glFormat 0, and a base
            internal format; glInternalFormat alone names the format *)
         ret (snd parsed,
              set_info container
                (set_glBaseInternalFormat RGBA
                   (set_glFormat 0 (set_glTypeSize 1 (info container)))))
     else ret (no_compression, container)) ;;
  exportKtxFaceLoop (range 0 6) compression miplevel cm container.

(** ** iblRoughnessPrefilter *)

(** Modelled from the spec: [CubemapIBL::roughnessFilter] is defined in
    [CubemapIBL.cpp], which is not part of the sources at hand. The component
    design says of it that [linearRoughness = 0] must reduce to an unfiltered
    copy of the base level; any other roughness is the GGX importance-sampled
    filter over the mip chain with the given number of samples. *)
Definition roughnessFilterTexels (levels : list Texels) (linear_roughness : double)
    (numSamples : Z) : Texels :=
  if PrimFloat.eqb linear_roughness 0
  then UnfilteredCopy (hd Uninitialized levels)
  else GGXPrefilter levels linear_roughness numSamples.

Definition roughnessFilter (dst : Cubemap) (levels : list Cubemap)
    (linear_roughness : double) (numSamples : Z) : M unit :=
  emit (Ran (CubemapIBL_roughnessFilter (getDimensions dst) linear_roughness numSamples)) ;;
  ts <- loadAll levels ;;
  overwrite (backing dst) (fun _ => roughnessFilterTexels ts linear_roughness numSamples).

(** [lod * lod] for [lod = saturate(level / (numLevels - 1.0))]. *)
Definition linearRoughnessOfLevel (level numLevels : Z) : double :=
  let lod := saturate (PrimFloat.div (to_double level)
                         (PrimFloat.sub (to_double numLevels) 1)) in
  PrimFloat.mul lod lod.

(** [numSamples] as level [level] uses it: doubled from level 2 on
    ([DEBUG_FULL_RESOLUTION] is [false]). *)
Definition samplesForLevel (level numSamples : Z) : Z :=
  if 2 <=? level then size_t (numSamples * 2) else numSamples.

(** The text stored under the key ["sh"]: one line per coefficient. *)
Definition shMetadata (coefficients : list double3) (numBands : Z) : option string :=
  match
    sequence
      (flat_map
         (fun l => map (fun m =>
                          let i := getShIndex m l in
                          if i <? 0 then None else nth_error coefficients (Z.to_nat i))
                       (range (- l) (Z.to_nat (2 * l + 1))))
         (range 0 (Z.to_nat numBands)))
  with
  | None => None
  | Some vs =>
      Some (fold_right
              (fun v rest =>
                 formatDouble (r v) +++ " " +++ formatDouble (g v) +++ " "
                   +++ formatDouble (b v) +++ String "010"%char rest)
              "" vs)
  end.

(** The second half of the loop body: what is done with the filtered level
    [dst] (whose raster [image] owns), by output type. The result is the
    container, which only the KTX branch changes. *)
Definition prefilterOutput (iname outputDir : string) (level : Z) (image : Image)
    (dst : Cubemap) (container : KtxBundle) : M KtxBundle :=
  gl <- get ;;
  when (g_debug gl)
    (let ext := chooseExtension HDR in
     let basename := getNameWithoutExtension iname in
     pixels <- pixelsOf image ;;
     saveImage (concat outputDir (basename +++ "_roughness_m" +++ to_string level +++ ext))
       HDR pixels (g_compression gl)) ;;
  let ext := chooseExtension (g_format gl) in
  if OutputType_eqb (g_type gl) KTX then
    exportKtxFaces container level dst
  else if OutputType_eqb (g_type gl) EQUIRECT then
    image <- cubemapToEquirectangular dst ;;
    saveImage (concat outputDir ("m" +++ to_string level +++ ext))
      (g_format gl) image (g_compression gl) ;;
    ret container
  else if OutputType_eqb (g_type gl) OCTAHEDRON then
    image <- cubemapToOctahedron dst ;;
    saveImage (concat outputDir ("m" +++ to_string level +++ ext))
      (g_format gl) image (g_compression gl) ;;
    ret container
  else
    forEach (range 0 6) (fun j =>
      let face := face_of_index j in
      image <- getImageForFace dst face ;;
      saveImage
        (concat outputDir ("m" +++ to_string level +++ "_" +++ getFaceName face +++ ext))
        (g_format gl) image (g_compression gl)) ;;
    ret container.

(** The body of [for (ssize_t i = baseExp; i >= 0; --i)]: filter the level,
    fix its seams, write it out; the result is [numSamples] and the
    container as the next turn finds them. *)
Definition prefilterLevel (iname outputDir : string) (levels : list Cubemap)
    (baseExp numLevels i numSamples : Z) (container : KtxBundle)
    : M (Z * KtxBundle) :=
  let dim := unsigned (Z.shiftl 1 i) in
  let level := size_t (baseExp - i) in
  let numSamples := samplesForLevel level numSamples in
  let linear_roughness := linearRoughnessOfLevel level numLevels in
  gl <- get ;;
  when (negb (g_quiet gl)) (emit (StdoutLevel level linear_roughness)) ;;
  '(image, dst) <- create dim ;;
  roughnessFilter dst levels linear_roughness numSamples ;;
  makeSeamless dst ;;
  container <- prefilterOutput iname outputDir level image dst container ;;
  ret (numSamples, container).

(** The loop itself: [turns] is [i + 1] for the next value of [i]. *)
Fixpoint prefilterLoop (turns : nat) (iname outputDir : string) (levels : list Cubemap)
    (baseExp numLevels numSamples : Z) (container : KtxBundle) : M KtxBundle :=
  match turns with
  | O => ret container
  | S i =>
      '(numSamples, container) <-
        prefilterLevel iname outputDir levels baseExp numLevels (Z.of_nat i)
          numSamples container ;;
      prefilterLoop i iname outputDir levels baseExp numLevels numSamples container
  end.

Definition iblRoughnessPrefilter (iname : string) (levels : list Cubemap)
    (dir : string) : M unit :=
  let outputDir := concat (getAbsolutePath dir) (getNameWithoutExtension iname) in
  ensureDirectory outputDir ;;
  gl <- get ;;
  match builtin_ctz (outputSizeOr gl IBL_DEFAULT_SIZE) with
  | None => undefined
  | Some baseExp =>
      let numSamples := g_num_samples gl in
      let numLevels := baseExp + 1 in
      let container :=
        {| numMipLevels := numLevels; arrayLength := 1; isCubemap := true;
           info := {| endianness := ENDIAN_DEFAULT;
                      glType := UNSIGNED_BYTE;
                      glTypeSize := 4;
                      glFormat := RGBA;
                      glInternalFormat := RGBA;
                      glBaseInternalFormat := RGBA;
                      pixelWidth := unsigned (Z.shiftl 1 baseExp);
                      pixelHeight := unsigned (Z.shiftl 1 baseExp);
                      pixelDepth := 0 |};
           blobs := []; metadata := [] |} in
      container <- prefilterLoop (Z.to_nat (baseExp + 1)) iname outputDir levels
                     baseExp numLevels numSamples container ;;
      gl <- get ;;
      when (OutputType_eqb (g_type gl) KTX)
        (container <-
           match g_coefficients gl with
           | Some coefficients =>
               match shMetadata coefficients (g_sh_compute gl) with
               | Some text => ret (setMetadata container "sh" text)
               | None => undefined
               end
           | None => ret container
           end ;;
         emit (Ran KtxBundle_serialize) ;;
         let filename := getNameWithoutExtension iname +++ "_ibl.ktx" in
         emit (WroteKtx (concat outputDir filename) container))
  end.

(** ** iblDiffuseIrradiance *)

Definition diffuseIrradiance (dst : Cubemap) (levels : list Cubemap) (numSamples : Z)
    : M unit :=
  emit (Ran (CubemapIBL_diffuseIrradiance (getDimensions dst) numSamples)) ;;
  ts <- loadAll levels ;;
  overwrite (backing dst) (fun _ => DiffuseIrradiance ts numSamples).

Definition iblDiffuseIrradiance (iname : string) (levels : list Cubemap)
    (dir : string) : M unit :=
  let outputDir := concat (getAbsolutePath dir) (getNameWithoutExtension iname) in
  ensureDirectory outputDir ;;
  gl <- get ;;
  match builtin_ctz (outputSizeOr gl IBL_DEFAULT_SIZE) with
  | None => undefined
  | Some baseExp =>
      let numSamples := g_num_samples gl in
      let dim := unsigned (Z.shiftl 1 baseExp) in
      '(image, dst) <- create dim ;;
      diffuseIrradiance dst levels numSamples ;;
      let ext := chooseExtension (g_format gl) in
      forEach (range 0 6) (fun j =>
        let face := face_of_index j in
        pixels <- getImageForFace dst face ;;
        saveImage (concat outputDir ("i_" +++ getFaceName face +++ ext))
          (g_format gl) pixels (g_compression gl)) ;;
      when (g_debug gl)
        (let basename := getNameWithoutExtension iname in
         let ext := chooseExtension HDR in
         pixels <- pixelsOf image ;;
         saveImage (concat outputDir (basename +++ "_diffuse_irradiance" +++ ext))
           HDR pixels "" ;;
         (* SH from the importance-sampled version, to compare the two *)
         '(image, cm) <- create dim ;;
         filtered <- load (backing dst) ;;
         emit (Ran (CubemapSH_computeSH (g_sh_compute gl) false)) ;;
         let sh := computeSH filtered (g_sh_compute gl) false in
         renderSH cm sh (g_sh_compute gl) ;;
         pixels <- pixelsOf image ;;
         saveImage (concat outputDir (basename +++ "_diffuse_irradiance_sh" +++ ext))
           HDR pixels "")
  end.

(** ** iblLutDfg *)

Definition isTextFile (filename : string) : bool :=
  let extension := getExtension filename in
  String.eqb extension "h" || String.eqb extension "hpp" ||
  String.eqb extension "c" || String.eqb extension "cpp" ||
  String.eqb extension "inc" || String.eqb extension "txt".

Definition isIncludeFile (filename : string) : bool :=
  String.eqb (getExtension filename) "inc".

(** The LUT is computed, then written either as a table of half-float
    literals (one event for the whole text) or through the encoder. *)
Definition iblLutDfg (filename : string) (size : Z) (multiscatter : bool) : M unit :=
  emit (Ran (CubemapIBL_DFG size multiscatter)) ;;
  image <- allocate (DFG multiscatter) ;;
  ensureDirectory (getParent (getAbsolutePath filename)) ;;
  if isTextFile filename then
    emit (WroteDfgText filename size (isIncludeFile filename))
  else
    gl <- get ;;
    pixels <- load image ;;
    saveImage filename (chooseFormat (getName filename) true) pixels (g_compression gl).

(** ** extractCubemapFaces *)

Definition extractCubemapFaces (iname : string) (cm : Cubemap) (dir : string) : M unit :=
  let outputDir := concat (getAbsolutePath dir) (getNameWithoutExtension iname) in
  ensureDirectory outputDir ;;
  gl <- get ;;
  if OutputType_eqb (g_type gl) KTX then
    let dim := unsigned (getDimensions cm) in
    let container :=
      {| numMipLevels := 1; arrayLength := 1; isCubemap := true;
         info := {| endianness := ENDIAN_DEFAULT;
                    glType := UNSIGNED_BYTE;
                    glTypeSize := 4;
                    glFormat := RGBA;
                    glInternalFormat := RGBA;
                    glBaseInternalFormat := RGBA;
                    pixelWidth := dim;
                    pixelHeight := dim;
                    pixelDepth := 0 |};
         blobs := []; metadata := [] |} in
    container <- exportKtxFaces container 0 cm ;;
    let filename := getNameWithoutExtension iname +++ "_skybox.ktx" in
    emit (Ran KtxBundle_serialize) ;;
    emit (WroteKtx (concat outputDir filename) container)
  else
    let ext := chooseExtension (g_format gl) in
    if OutputType_eqb (g_type gl) EQUIRECT then
      image <- cubemapToEquirectangular cm ;;
      saveImage (concat outputDir ("skybox" +++ ext)) (g_format gl) image (g_compression gl)
    else if OutputType_eqb (g_type gl) OCTAHEDRON then
      image <- cubemapToOctahedron cm ;;
      saveImage (concat outputDir ("skybox" +++ ext)) (g_format gl) image (g_compression gl)
    else
      forEach (range 0 6) (fun i =>
        let face := face_of_index i in
        image <- getImageForFace cm face ;;
        saveImage (concat outputDir (getFaceName face +++ ext))
          (g_format gl) image (g_compression gl)).

(** ** main *)

(** The two kinds of input image the driver converts: a cross (["This is
    cross cubemap"]) and a spherical image (["we assume a spherical
    (equirectangular) image"]). Which way a cross lies is not the driver's
    business: it hands every cross to [CubemapUtils::crossToCubemap]. *)
Inductive Layout := Equirectangular | Cross.

(** The test of the first branch:
    [(isPOT(width) && (width * 3 == height * 4)) ||
     (isPOT(height) && (height * 3 == width * 4))]. *)
Definition isCross (width height : Z) : bool :=
  (isPOT width && (size_t (width * 3) =? size_t (height * 4))) ||
  (isPOT height && (size_t (height * 3) =? size_t (width * 4))).

(** The branch taken for a [width] x [height] image; [None] is the
    ["Aspect ratio not supported"] branch. *)
Definition layoutOf (width height : Z) : option Layout :=
  if isCross width height then Some Cross
  else if width =? size_t (2 * height) then Some Equirectangular
  else None.

(** [if (iname.exists()) { ... }]: decode, check, and build level 0. *)
Definition loadImage (iname : string) : M (list Image * list Cubemap) :=
  say "Decoding image..." ;;
  emit (Ran (ImageDecoder_decode iname)) ;;
  let linputImage := decode iname in
  if negb (isValid linputImage) then
    emit (Stderr (UnableToOpenImage iname)) ;; exit 1
  else if negb (getChannels linputImage =? 3) then
    emit (Stderr (InputImageMustBeRGB (getChannels linputImage))) ;; exit 1
  else
    let width := size_t (getWidth linputImage) in
    let height := size_t (getHeight linputImage) in
    inputImage <- allocate (Decoded iname) ;;
    emit (Ran CubemapUtils_clamp) ;;
    overwrite inputImage Clamp ;;
    gl <- get ;;
    if isCross width height then
      (* this is a cross cubemap *)
      let dim := outputSizeOr gl IBL_DEFAULT_SIZE in
      say "Loading cross... " ;;
      '(temp, cml) <- create dim ;;
      emit (Ran (CubemapUtils_crossToCubemap dim)) ;;
      src <- load inputImage ;;
      overwrite (backing cml) (fun _ => CrossToCubemap src) ;;
      ret ([temp], [cml])
    else if width =? size_t (2 * height) then
      (* a spherical (equirectangular) image *)
      let dim := outputSizeOr gl IBL_DEFAULT_SIZE in
      say "Converting equirectangular image... " ;;
      '(temp, cml) <- create dim ;;
      emit (Ran (CubemapUtils_equirectangularToCubemap dim)) ;;
      src <- load inputImage ;;
      overwrite (backing cml) (fun _ => EquirectangularToCubemap src) ;;
      ret ([temp], [cml])
    else
      emit (Stderr (AspectRatioNotSupported width height)) ;;
      exit 0.

(** The [else] branch: no such file, a synthetic cubemap instead. *)
Definition generateSynthetic (iname : string) : M (list Image * list Cubemap) :=
  gl <- get ;;
  when (negb (g_quiet gl)) (emit (StdoutMissing iname)) ;;
  let dim := outputSizeOr gl IBL_DEFAULT_SIZE in
  '(temp, cml) <- create dim ;;
  let name := getNameWithoutExtension iname in
  match sscanf_u name "uv" with
  | Some p =>
      emit (Ran (CubemapUtils_generateUVGrid dim p p)) ;;
      overwrite (backing cml) (fun _ => GenerateUVGrid p p)
  | None =>
  match sscanf_u name "u" with
  | Some p =>
      emit (Ran (CubemapUtils_generateUVGrid dim p 1)) ;;
      overwrite (backing cml) (fun _ => GenerateUVGrid p 1)
  | None =>
  match sscanf_u name "v" with
  | Some p =>
      emit (Ran (CubemapUtils_generateUVGrid dim 1 p)) ;;
      overwrite (backing cml) (fun _ => GenerateUVGrid 1 p)
  | None =>
  match sscanf_u name "brdf" with
  | Some p =>
      let linear_roughness := sq (PrimFloat.div (to_double p) (log2 (to_double dim))) in
      emit (Ran (CubemapIBL_brdf dim linear_roughness)) ;;
      overwrite (backing cml) (fun _ => Brdf linear_roughness)
  | None =>
      emit (Ran (CubemapUtils_generateUVGrid dim 1 1)) ;;
      overwrite (backing cml) (fun _ => GenerateUVGrid 1 1)
  end end end end ;;
  ret ([temp], [cml]).

Definition loadInput (iname : string) : M (list Image * list Cubemap) :=
  if exists_on_disk iname then loadImage iname else generateSynthetic iname.

(** [g_mirror = !g_mirror; if (g_mirror) { ... }]: level 0 is swapped for a
    new cubemap holding its mirror image. *)
Definition mirrorStage (images : list Image) (levels : list Cubemap)
    : M (list Image * list Cubemap) :=
  (* we mirror by default -- the mirror option in fact un-mirrors *)
  modify (fun gl => set_g_mirror (negb (g_mirror gl)) gl) ;;
  gl <- get ;;
  if g_mirror gl then
    say "Mirroring..." ;;
    match levels, images with
    | level0 :: levels', _ :: images' =>
        '(temp, cml) <- create (getDimensions level0) ;;
        emit (Ran (CubemapUtils_mirrorCubemap (getDimensions level0))) ;;
        src <- load (backing level0) ;;
        overwrite (backing cml) (fun _ => MirrorCubemap src) ;;
        ret (temp :: images', cml :: levels')
    | _, _ => undefined
    end
  else
    say "Skipped mirroring." ;;
    ret (images, levels).

(** From the input to the complete mip chain: load or generate level 0,
    mirror it, make it seamless, generate the mipmaps. *)
Definition buildLevels (iname : string) : M (list Image * list Cubemap) :=
  '(images, levels) <- loadInput iname ;;
  '(images, levels) <- mirrorStage images levels ;;
  match levels with
  | [] => undefined
  | level0 :: _ =>
      makeSeamless level0 ;;
      '(levels, images) <- generateMipmaps levels images ;;
      ret (images, levels)
  end.

(** Everything after the mip chain: the stages the options ask for. *)
Definition runStages (iname : string) (images : list Image) (levels : list Cubemap)
    : M unit :=
  match levels with
  | [] => undefined
  | level0 :: _ =>
      gl <- get ;;
      when (negb (g_sh_compute gl =? 0))
        (say "Spherical harmonics..." ;;
         sphericalHarmonics iname level0) ;;
      gl <- get ;;
      when (g_is_mipmap gl)
        (say "IBL mipmaps for prefiltered importance sampling..." ;;
         iblMipmapPrefilter iname images levels (g_is_mipmap_dir gl)) ;;
      when (g_prefilter gl)
        (say "IBL prefiltering..." ;;
         iblRoughnessPrefilter iname levels (g_prefilter_dir gl)) ;;
      when (g_ibl_irradiance gl)
        (say "IBL diffuse irradiance..." ;;
         iblDiffuseIrradiance iname levels (g_ibl_irradiance_dir gl)) ;;
      when (g_extract_faces gl)
        (if negb (PrimFloat.eqb (g_extract_blur gl) 0) then
           say "Blurring..." ;;
           let linear_roughness := PrimFloat.mul (g_extract_blur gl) (g_extract_blur gl) in
           let dim := outputSizeOr gl (getDimensions level0) in
           '(image, blurred) <- create dim ;;
           roughnessFilter blurred levels linear_roughness (g_num_samples gl) ;;
           say "Extract faces..." ;;
           extractCubemapFaces iname blurred (g_extract_dir gl)
         else
           say "Extract faces..." ;;
           extractCubemapFaces iname level0 (g_extract_dir gl))
  end.

(** The [if (g_deploy)] and [if (g_debug)] adjustments of the statics. *)
Definition deploySettings (iname : string) : M unit :=
  gl <- get ;;
  when (g_deploy gl)
    (let out_dir := concat (g_deploy_dir gl) (getNameWithoutExtension iname) in
     (* pre-scaled irradiance SH to a text file *)
     modify (set_g_sh_compute 3) ;;
     modify (set_g_sh_shader true) ;;
     modify (set_g_sh_irradiance true) ;;
     modify (set_g_sh_filename (concat out_dir "sh.txt")) ;;
     modify (set_g_sh_file SH_TEXT) ;;
     modify (set_g_sh_output true) ;;
     (* faces *)
     modify (set_g_extract_dir (g_deploy_dir gl)) ;;
     modify (set_g_extract_faces true) ;;
     (* prefilter *)
     modify (set_g_prefilter true) ;;
     modify (set_g_prefilter_dir (g_deploy_dir gl))) ;;
  gl <- get ;;
  when (g_debug gl && (g_prefilter gl && negb (g_is_mipmap gl)))
    (modify (set_g_is_mipmap true) ;;
     modify (set_g_is_mipmap_dir (g_prefilter_dir gl))).

(** [main]: [opts] is what [getopt_long] returns, in order, and [args] the
    arguments from [optind] on. The result is the value [main] returns. *)
Definition main (opts : list (ascii * option string)) (args : list string) : M Z :=
  handleCommandLineArgments opts ;;
  let num_args := Z.of_nat (List.length args) in
  gl <- get ;;
  if negb (g_dfg gl) && (num_args <? 1) then
    emit Usage ;; ret 1
  else
    when (g_dfg gl)
      (say "Generating IBL DFG LUT..." ;;
       iblLutDfg (g_dfg_filename gl) (outputSizeOr gl DFG_LUT_DEFAULT_SIZE)
         (g_dfg_multiscatter gl)) ;;
    if g_dfg gl && (num_args <? 1) then ret 0     (* the [return 0] inside [if (g_dfg)] *)
    else
      match args with
      | [] => undefined
      | iname :: _ =>
          deploySettings iname ;;
          '(images, levels) <- buildLevels iname ;;
          runStages iname images levels ;;
          ret 0
      end.

End Driver.

(** ** printUsage

    [main] and the option handler record a call of [printUsage] as the event
    [Usage]. What the call does to the text before printing it is modelled
    here: a [std::string] is the list of its characters. *)

Module UsageText.

Local Open Scope nat_scope.


(** [s.find(from, pos)]: the first position at or after [pos] where [from]
    begins in [s]; [None] is [std::string::npos]. *)
Fixpoint startsWith (from s : list ascii) : bool :=
  match from, s with
  | [], _ => true
  | a :: from', c :: s' => Ascii.eqb a c && startsWith from' s'
  | _ :: _, [] => false
  end.

Fixpoint find (s from : list ascii) (pos : nat) : option nat :=
  match pos, s with
  | O, [] => if startsWith from [] then Some O else None
  | O, _ :: s' =>
      if startsWith from s then Some O else option_map S (find s' from O)
  | S pos', [] => None
  | S pos', _ :: s' => option_map S (find s' from pos')
  end.

(** [s.replace(pos, len, str)] for [pos] within [s]. *)
Definition replace (s : list ascii) (pos len : nat) (str : list ascii) : list ascii :=
  firstn pos s ++ str ++ skipn (pos + len) s.

(** The text of the usage message, as the literal of the source has it. *)
Definition usage : string :=
"CMGEN is a command-line tool for generating SH and mipmap levels from an env map.
Cubemaps and equirectangular formats are both supported, automatically detected 
according to the aspect ratio of the source image.

Usages:
    CMGEN [options] <input-file>
    CMGEN [options] <uv[N]>

Supported input formats:
    PNG, 8 and 16 bits
    Radiance (.hdr)
    Photoshop (.psd), 16 and 32 bits
    OpenEXR (.exr)

Options:
   --help, -h
       Print this message

   --license
       Print copyright and license information

   --quiet, -q
       Quiet mode. Suppress all non-error output

   --type=[cubemap|equirect|octahedron|ktx], -t [cubemap|equirect|octahedron|ktx]
       Specify output type (default: cubemap)

   --format=[exr|hdr|psd|rgbm|png|dds|ktx], -f [exr|hdr|psd|rgbm|png|dds|ktx]
       Specify output file format. ktx implies -type=ktx.

           For simplicity, KTX files are always encoded with 4-channel RGBM data
   --compression=COMPRESSION, -c COMPRESSION
       Format specific compression:
           KTX:
             astc_[fast|thorough]_[ldr|hdr]_WxH, where WxH is a valid block size
             s3tc_rgba_dxt5
             etc_FORMAT_METRIC_EFFORT
               FORMAT is rgb8_alpha, srgb8_alpha, rgba8, or srgb8_alpha8
               METRIC is rgba, rgbx, rec709, numeric, or normalxyz
               EFFORT is an integer between 0 and 100
           PNG: Ignored
           PNG RGBM: Ignored
           Radiance: Ignored
           Photoshop: 16 (default), 32
           OpenEXR: RAW, RLE, ZIPS, ZIP, PIZ (default)
           DDS: 8, 16 (default), 32

   --size=power-of-two, -s power-of-two
       Size of the output cubemaps (base level), 256 by default

   --deploy=dir, -x dir
       Generate everything needed for deployment into <dir>

   --extract=dir
       Extract faces of the cubemap into <dir>

   --extract-blur=roughness
       Blurs the cubemap before saving the faces using the roughness blur

   --no-mirror
       Skip mirroring of generated cubemaps (for assets with mirroring already backed in)

   --ibl-samples=numSamples
       Number of samples to use for IBL integrations (default 1024)


Private use only:
   --ibl-dfg=filename.[exr|hdr|psd|png|rgbm|dds|h|hpp|c|cpp|inc|txt]
       Compute the IBL DFG LUT

   --ibl-dfg-multiscatter
       If --ibl-dfg is set, computes the DFG for multi-scattering GGX

   --ibl-is-mipmap=dir
       Generate mipmap for pre-filtered importance sampling

   --ibl-ld=dir
       Roughness prefilter into <dir>

   --ibl-irradiance=dir
       Diffuse irradiance into <dir>

   --sh=bands
       SH decomposition of input cubemap

   --sh-output=filename.[exr|hdr|psd|rgbm|png|dds|txt]
       SH output format. The filename extension determines the output format

   --sh-irradiance, -i
       Irradiance SH coefficients

   --sh-shader
       Generate irradiance SH for shader code

   --debug, -d
       Generate extra data for debugging

".

Definition from : list ascii := list_ascii_of_string "CMGEN".

(** [for (pos = usage.find(from); pos != npos; pos = usage.find(from, pos))
    usage.replace(pos, from.length(), exec_name);] with [turns] bounding
    the number of turns: [None] when the loop has not ended within them. *)
Fixpoint substitute (turns : nat) (exec_name : list ascii) (usage : list ascii)
    (pos : option nat) : option (list ascii) :=
  match pos with
  | None => Some usage
  | Some p =>
      match turns with
      | O => None
      | S turns' =>
          let usage' := replace usage p (List.length from) exec_name in
          substitute turns' exec_name usage' (find usage' from p)
      end
  end.

(** The text [printUsage] prints for the executable name [exec_name], if
    its loop ends within [turns] turns. *)
Definition printUsage (turns : nat) (exec_name : string) : option string :=
  let text := list_ascii_of_string usage in
  option_map string_of_list_ascii
    (substitute turns (list_ascii_of_string exec_name) text (find text from 0)).

End UsageText.

(** ** A plain implementation of the collaborators

    Enough of each collaborator to run the driver on concrete inputs: a file
    system given as a list of decodable files, decimal conversions, paths
    taken as they are written, doubles printed by their integer part. *)

Module Plain.

Definition isDigit (c : ascii) : bool :=
  let n := N.to_nat (N_of_ascii c) in ((48 <=? n) && (n <=? 57))%nat.

Fixpoint digits (s : string) (acc : Z) (seen : bool) : option Z :=
  match s with
  | String c rest =>
      if isDigit c
      then digits rest (10 * acc + (Z.of_N (N_of_ascii c) - 48)) true
      else if seen then Some acc else None
  | EmptyString => if seen then Some acc else None
  end.

(** The leading decimal digits of a string, if it starts with one. *)
Definition decimal (s : string) : option Z := digits s 0 false.

Fixpoint after (prefix s : string) : option string :=
  match prefix, s with
  | EmptyString, _ => Some s
  | String a p, String c rest => if Ascii.eqb a c then after p rest else None
  | String _ _, EmptyString => None
  end.

Definition scan (s literal : string) : option Z :=
  match after literal s with
  | Some rest => decimal rest
  | None => None
  end.

Definition convert (s : string) : Conversion Z :=
  match decimal s with
  | Some v => Converted v
  | None => invalid_argument
  end.

(** [digits.digits] as a double: the integer part plus the fraction digits
    over their power of ten. *)
Fixpoint fraction (s : string) (numerator denominator : Z) : Z * Z :=
  match s with
  | String c rest =>
      if isDigit c
      then fraction rest (10 * numerator + (Z.of_N (N_of_ascii c) - 48)) (10 * denominator)
      else (numerator, denominator)
  | EmptyString => (numerator, denominator)
  end.

Fixpoint afterDigits (s : string) : string :=
  match s with
  | String c rest => if isDigit c then afterDigits rest else s
  | EmptyString => s
  end.

Definition convertDouble (s : string) : Conversion double :=
  match decimal s with
  | None => invalid_argument
  | Some whole =>
      match afterDigits s with
      | String "."%char rest =>
          let (numerator, denominator) := fraction rest 0 1 in
          Converted (PrimFloat.add (to_double whole)
                       (PrimFloat.div (to_double numerator) (to_double denominator)))
      | _ => Converted (to_double whole)
      end
  end.

(** The integer part of a double. *)
Definition integerPart (d : double) : Z :=
  match Prim2SF d with
  | S754_finite negative m e =>
      let magnitude := if 0 <=? e then Z.shiftl (Zpos m) e else Z.shiftr (Zpos m) (- e) in
      if negative then - magnitude else magnitude
  | _ => 0
  end.

(** The binary logarithm of a power of two, from its exponent. *)
Definition binaryLog (x : double) : double := to_double (snd (Z.frexp x) - 1).

(** A power of two: positive, and equal to two to its own logarithm. *)
Definition isPowerOfTwo (x : Z) : bool := (0 <? x) && (x =? 2 ^ Z.log2 x).

(** Clamping to [0, 1]: a value inside is returned as it is. *)
Definition clampUnit (v : double) : double :=
  if PrimFloat.leb 0 v && PrimFloat.leb v 1 then v
  else if PrimFloat.ltb v 0 then 0%float
  else if PrimFloat.ltb 1 v then 1%float
  else v.

Fixpoint lookupFile (files : list (string * LinearImage)) (path : string)
    : option LinearImage :=
  match files with
  | [] => None
  | (p, img) :: rest => if String.eqb p path then Some img else lookupFile rest path
  end.

Fixpoint extensionFrom (s : string) (current : option string) : string :=
  match s with
  | EmptyString => match current with Some e => e | None => "" end
  | String c rest =>
      if Ascii.eqb c "."%char
      then extensionFrom rest (Some "")
      else extensionFrom rest
             (match current with
              | Some e => Some (String.append e (String c ""))
              | None => None
              end)
  end.

Definition startsWith (prefix s : string) : bool :=
  match after prefix s with Some _ => true | None => false end.

Definition faceOfIndex (i : Z) : Face :=
  match i with
  | 0 => NX | 1 => PX | 2 => NY | 3 => PY | 4 => NZ | _ => PZ
  end.

Definition faceName (f : Face) : string :=
  match f with
  | PX => "px" | NX => "nx" | PY => "py" | NY => "ny" | PZ => "pz" | NZ => "nz"
  end.

(** The implementation over a given set of files; every encoder call
    succeeds and every coefficient is zero. *)
Definition collaborators (files : list (string * LinearImage)) : Collaborators :=
  {| isPOT := isPowerOfTwo;
     saturate := clampUnit;
     log2 := binaryLog;
     stoul := convert;
     stoi := convert;
     stod := convertDouble;
     sscanf_u := scan;
     formatDouble := fun d => to_string (integerPart d);
     exists_on_disk := fun p => match lookupFile files p with Some _ => true | None => false end;
     getName := fun p => p;
     getNameWithoutExtension := fun p => p;
     getExtension := fun p => extensionFrom p None;
     getAbsolutePath := fun p => p;
     getParent := fun p => p;
     concat := fun a b => String.append a (String.append "/" b);
     decode := fun p => match lookupFile files p with
                        | Some img => img
                        | None => mk_LinearImage false 0 0 0
                        end;
     encode := fun _ _ _ _ => true;
     chooseFormat := fun _ _ => HDR;
     chooseExtension := fun _ => ".hdr";
     CompressionConfig := option string;
     no_compression := None;
     is_INVALID := fun c => match c with Some _ => false | None => true end;
     parseOptionString := fun s _ =>
       if startsWith "astc_" s || startsWith "s3tc_" s || startsWith "etc_" s
       then (true, Some s) else (false, None);
     compressTexture := fun _ _ => (16, 37808);
     face_of_index := faceOfIndex;
     getFaceName := faceName;
     computeSH := fun _ n _ => repeat (mk_double3 0%float 0%float 0%float) (Z.to_nat (n * n));
     computeIrradianceSH3Bands := fun _ => repeat (mk_double3 0%float 0%float 0%float) 9;
     ENDIAN_DEFAULT := 67305985;
     UNSIGNED_BYTE := 5121;
     RGBA := 6408 |}.

End Plain.

(** * Properties *)

(** ** Reasoning about runs

    Two judgements on a computation: [emits p c], every event [c] adds to the
    trace satisfies [p]; and [stops c], [c] never hands control to what
    follows it. *)

Definition emits {A} (p : Event -> bool) (c : M A) : Prop :=
  forall s, exists es, trace (snd (c s)) = trace s ++ es /\ forallb p es = true.

Definition stops {A} (c : M A) : Prop :=
  forall s a, fst (c s) <> Returns a.

Lemma emits_nothing {A} p (c : M A) :
  (forall s, trace (snd (c s)) = trace s) -> emits p c.
Proof.
  intros H s. exists []. rewrite H, app_nil_r. split; reflexivity.
Qed.

Lemma emits_ret {A} p (a : A) : emits p (ret a).
Proof. apply emits_nothing; reflexivity. Qed.

Lemma emits_exit {A} p n : emits p (@exit A n).
Proof. apply emits_nothing; reflexivity. Qed.

Lemma emits_terminate {A} p : emits p (@terminate A).
Proof. apply emits_nothing; reflexivity. Qed.

Lemma emits_undefined {A} p : emits p (@undefined A).
Proof. apply emits_nothing; reflexivity. Qed.

Lemma emits_get p : emits p get.
Proof. apply emits_nothing; reflexivity. Qed.

Lemma emits_modify p f : emits p (modify f).
Proof. apply emits_nothing; reflexivity. Qed.

Lemma emits_allocate p t : emits p (allocate t).
Proof. apply emits_nothing; reflexivity. Qed.

Lemma emits_load p n : emits p (load n).
Proof. apply emits_nothing; reflexivity. Qed.

Lemma emits_overwrite p n f : emits p (overwrite n f).
Proof. apply emits_nothing; reflexivity. Qed.

Lemma emits_emit p e : p e = true -> emits p (emit e).
Proof.
  intros H s. exists [e]. split; [reflexivity | simpl; now rewrite H].
Qed.

Lemma emits_bind {A B} p (c : M A) (k : A -> M B) :
  emits p c -> (forall a, emits p (k a)) -> emits p (bind c k).
Proof.
  intros Hc Hk s. unfold bind.
  destruct (Hc s) as [es [E F]].
  destruct (c s) as [[a | n | | ] s1]; simpl in *;
    try (exists es; split; assumption).
  destruct (Hk a s1) as [es' [E' F']].
  exists (es ++ es'). rewrite E', E, app_assoc. split; [reflexivity |].
  rewrite forallb_app, F, F'. reflexivity.
Qed.

Lemma emits_bind_stops {A B} p (c : M A) (k : A -> M B) :
  emits p c -> stops c -> emits p (bind c k).
Proof.
  intros Hc Hs s. unfold bind.
  destruct (Hc s) as [es [E F]]. specialize (Hs s).
  destruct (c s) as [[a | n | | ] s1]; simpl in *;
    try (exists es; split; assumption).
  exfalso. apply (Hs a). reflexivity.
Qed.

Lemma stops_bind_l {A B} (c : M A) (k : A -> M B) : stops c -> stops (bind c k).
Proof.
  intros Hs s b. unfold bind. specialize (Hs s).
  destruct (c s) as [[a | n | | ] s1]; simpl in *; try discriminate.
  exfalso. apply (Hs a). reflexivity.
Qed.

Lemma stops_bind_r {A B} (c : M A) (k : A -> M B) :
  (forall a, stops (k a)) -> stops (bind c k).
Proof.
  intros Hk s b. unfold bind.
  destruct (c s) as [[a | n | | ] s1]; simpl; try discriminate.
  apply Hk.
Qed.

Lemma stops_exit {A} n : stops (@exit A n).
Proof. intros s a. discriminate. Qed.

Lemma emits_when p c k : emits p k -> emits p (when c k).
Proof. destruct c; simpl; [trivial | intros; apply emits_ret]. Qed.

Lemma emits_say p line : p (Stdout line) = true -> emits p (say line).
Proof.
  intros H. unfold say. apply emits_bind; [apply emits_get |].
  intros gl. apply emits_when, emits_emit, H.
Qed.

Lemma emits_forEach {A} p (l : list A) body :
  (forall a, emits p (body a)) -> emits p (forEach l body).
Proof.
  intros H. induction l as [| a l IH]; simpl.
  - apply emits_ret.
  - apply emits_bind; [apply H | intros; exact IH].
Qed.

Lemma emits_loadAll p levels : emits p (loadAll levels).
Proof.
  induction levels as [| cm t IH]; simpl.
  - apply emits_ret.
  - apply emits_bind; [apply emits_load | intros x].
    apply emits_bind; [exact IH | intros; apply emits_ret].
Qed.

(** One step of a proof of [emits]: follow the shape of the computation. *)
Ltac emits_step :=
  match goal with
  | |- emits _ (bind _ _) => apply emits_bind; [| intros ?]
  | |- emits _ (ret _) => apply emits_ret
  | |- emits _ (exit _) => apply emits_exit
  | |- emits _ terminate => apply emits_terminate
  | |- emits _ undefined => apply emits_undefined
  | |- emits _ get => apply emits_get
  | |- emits _ (modify _) => apply emits_modify
  | |- emits _ (allocate _) => apply emits_allocate
  | |- emits _ (load _) => apply emits_load
  | |- emits _ (overwrite _ _) => apply emits_overwrite
  | |- emits _ (loadAll _) => apply emits_loadAll
  | |- emits _ (emit _) => apply emits_emit; reflexivity
  | |- emits _ (say _) => apply emits_say; reflexivity
  | |- emits _ (when _ _) => apply emits_when
  | |- emits _ (forEach _ _) => apply emits_forEach; intros ?
  | |- emits _ (match ?x with _ => _ end) => destruct x
  | |- emits _ _ => assumption
  end.

Ltac emits_auto := repeat emits_step.

(** ** The aspect-ratio check *)

Lemma replace_nth_length {A} (l : list A) x y t :
  replace_nth (List.length l) y (l ++ x :: t) = l ++ y :: t.
Proof. induction l as [| h l IH]; simpl; [reflexivity | now rewrite IH]. Qed.

Lemma nth_length {A} (l : list A) x t d : nth (List.length l) (l ++ x :: t) d = x.
Proof. induction l as [| h l IH]; simpl; [reflexivity | exact IH]. Qed.

Lemma nth_length_app {A} (l : list A) x t t' d :
  nth (List.length l) ((l ++ x :: t) ++ t') d = x.
Proof. rewrite <- app_assoc. simpl. apply nth_length. Qed.

Ltac store_norm :=
  repeat first [ rewrite replace_nth_length | rewrite nth_length | rewrite nth_length_app ].

Definition isPowerOfTwo (x : Z) : Prop := exists k : nat, x = 2 ^ Z.of_nat k.

Definition Supported (w h : Z) : Prop :=
  w = 2 * h \/ (w * 3 = h * 4 /\ isPowerOfTwo w) \/ (h * 3 = w * 4 /\ isPowerOfTwo h).

Lemma isPowerOfTwo_pos x : isPowerOfTwo x -> 0 < x.
Proof. intros [k ->]. apply Z.pow_pos_nonneg; lia. Qed.

Lemma size_t_small z : 0 <= z < 2 ^ 64 -> size_t z = z.
Proof. intros H. unfold size_t, SIZE_MAX_plus_1. now apply Z.mod_small. Qed.

Definition worksOnCubemap (e : Event) : bool :=
  match e with
  | Ran (ImageDecoder_decode _) | Ran CubemapUtils_clamp | Ran (CubemapIBL_DFG _ _) => false
  | Ran _ => true
  | _ => false
  end.

Definition beforeCubemap (e : Event) : bool := negb (worksOnCubemap e).

Section InputGate.
Context {collaborators : Collaborators}.

Definition isPOT_contract : Prop :=
  forall x, 0 < x -> (isPOT x = true <-> isPowerOfTwo x).

Lemma layoutOf_Supported (contract : isPOT_contract) w h :
  0 <= w < 2 ^ 62 -> 0 <= h < 2 ^ 62 ->
  (layoutOf w h <> None <-> Supported w h).
Proof.
  intros Hw Hh. unfold layoutOf, isCross.
  rewrite !size_t_small by lia.
  split.
  - intros H.
    destruct (isPOT w && (w * 3 =? h * 4)) eqn:E1.
    { apply andb_prop in E1 as [Pw E]. apply Z.eqb_eq in E.
      destruct (Z.eq_dec w 0) as [-> | N]; [left; lia |].
      right; left. split; [exact E | apply contract; [lia | exact Pw]]. }
    destruct (isPOT h && (h * 3 =? w * 4)) eqn:E2.
    { apply andb_prop in E2 as [Ph E]. apply Z.eqb_eq in E.
      destruct (Z.eq_dec h 0) as [-> | N]; [left; lia |].
      right; right. split; [exact E | apply contract; [lia | exact Ph]]. }
    cbn [orb] in H.
    destruct (Z.eqb_spec w (2 * h)) as [E | N]; [left; exact E | now elim H].
  - intros [E | [[E T] | [E T]]].
    + destruct (_ || _); [discriminate |].
      apply Z.eqb_eq in E. rewrite E. discriminate.
    + pose proof (isPowerOfTwo_pos _ T) as Pos.
      apply contract in T; [| exact Pos].
      apply Z.eqb_eq in E. rewrite T, E. discriminate.
    + pose proof (isPowerOfTwo_pos _ T) as Pos.
      apply contract in T; [| exact Pos].
      apply Z.eqb_eq in E. rewrite T, E. rewrite orb_true_r. discriminate.
Qed.

Definition greeting (gl : Globals) (line : string) : list Event :=
  if g_quiet gl then [] else [Stdout line].

Lemma loadImage_rejected iname w h s :
  isValid (decode iname) = true -> getChannels (decode iname) = 3 ->
  size_t (getWidth (decode iname)) = w -> size_t (getHeight (decode iname)) = h ->
  layoutOf w h = None ->
  loadImage iname s =
    (Exits 0,
     mk_State (globals s)
       (trace s ++ greeting (globals s) "Decoding image..."
          ++ [Ran (ImageDecoder_decode iname); Ran CubemapUtils_clamp;
              Stderr (AspectRatioNotSupported w h)])
       (store s ++ [Clamp (Decoded iname)]) (made s)).
Proof.
  intros V C W H L. unfold layoutOf in L.
  destruct (isCross w h) eqn:E1; [discriminate |].
  destruct (w =? size_t (2 * h)) eqn:E3; [discriminate |].
  unfold loadImage. rewrite V, C, W, H, E1, E3.
  unfold say, greeting, bind, get, when, emit, allocate, overwrite, exit, ret, texelsOf.
  destruct (g_quiet (globals s)); cbn -[Z.mul size_t];
    rewrite ?app_nil_r, <- ?app_assoc; cbn -[Z.mul size_t];
    rewrite replace_nth_length, nth_length; reflexivity.
Qed.
Lemma emits_handleOption opt arg lc : emits beforeCubemap (handleOption opt arg lc).
Proof.
  unfold handleOption, if_then. emits_auto.
Qed.

Lemma emits_optionLoop opts : forall lc, emits beforeCubemap (optionLoop opts lc).
Proof.
  induction opts as [| [opt optarg] rest IH]; intros lc; simpl.
  - apply emits_ret.
  - apply emits_bind; [apply emits_handleOption | intros; apply IH].
Qed.

Lemma emits_handleCommandLineArgments opts :
  emits beforeCubemap (handleCommandLineArgments opts).
Proof.
  unfold handleCommandLineArgments.
  apply emits_bind; [apply emits_optionLoop | intros lc]. emits_auto.
Qed.

Lemma emits_ensureDirectory p dir : p (Mkdir dir) = true -> emits p (ensureDirectory dir).
Proof.
  intros H. unfold ensureDirectory, exists_now.
  apply emits_bind; [apply emits_nothing; reflexivity | intros e].
  apply emits_when. apply emits_bind; [apply emits_emit, H | intros _].
  apply emits_nothing; reflexivity.
Qed.

Lemma emits_saveImage p path format image compression :
  p (Encoded path format image compression) = true ->
  emits p (saveImage path format image compression).
Proof.
  intros H. unfold saveImage. apply emits_bind; [apply emits_emit, H | intros _].
  emits_auto.
Qed.

Lemma emits_iblLutDfg filename size multiscatter :
  emits beforeCubemap (iblLutDfg filename size multiscatter).
Proof.
  unfold iblLutDfg.
  emits_auto; try (apply emits_ensureDirectory; reflexivity);
    try (apply emits_saveImage; reflexivity).
Qed.

Lemma emits_deploySettings iname : emits beforeCubemap (deploySettings iname).
Proof. unfold deploySettings. emits_auto. Qed.

Definition convert (l : Layout) (src : Texels) : Texels :=
  match l with
  | Equirectangular => EquirectangularToCubemap src
  | Cross => CrossToCubemap src
  end.

Definition conversion (l : Layout) (dim : Z) : list Event :=
  match l with
  | Equirectangular => [Ran (CubemapUtils_equirectangularToCubemap dim)]
  | Cross => [Ran (CubemapUtils_crossToCubemap dim)]
  end.

Definition announcement (l : Layout) : string :=
  match l with
  | Equirectangular => "Converting equirectangular image... "
  | Cross => "Loading cross... "
  end.

Lemma loadImage_accepted iname w h l s :
  isValid (decode iname) = true -> getChannels (decode iname) = 3 ->
  size_t (getWidth (decode iname)) = w -> size_t (getHeight (decode iname)) = h ->
  layoutOf w h = Some l ->
  let n := S (List.length (store s)) in
  let dim := outputSizeOr (globals s) IBL_DEFAULT_SIZE in
  loadImage iname s =
    (Returns ([mk_Image (Some n)], [mk_Cubemap dim n]),
     mk_State (globals s)
       (trace s ++ greeting (globals s) "Decoding image..."
          ++ [Ran (ImageDecoder_decode iname); Ran CubemapUtils_clamp]
          ++ greeting (globals s) (announcement l) ++ conversion l dim)
       (store s ++ [Clamp (Decoded iname); convert l (Clamp (Decoded iname))])
       (made s)).
Proof.
  intros V C W H L n dim. subst n dim. unfold layoutOf in L.
  unfold loadImage. rewrite V, C, W, H.
  destruct s as [gl tr st md].
  destruct (isCross w h) eqn:E1;
    [| destruct (w =? size_t (2 * h)) eqn:E3; [| discriminate]];
    injection L as <-;
    unfold say, greeting, bind, get, when, emit, allocate, overwrite, exit, ret, create,
      load, texelsOf;
    destruct (g_quiet gl) eqn:Q;
    repeat (cbn -[Z.mul size_t]; rewrite ?Q);
    store_norm;
    rewrite ?app_nil_r, <- ?app_assoc, ?length_app, ?Nat.add_1_r;
    reflexivity.
Qed.

Lemma num_args_given (iname : string) rest :
  (Z.of_nat (List.length (iname :: rest)) <? 1) = false.
Proof. apply Z.ltb_ge. simpl List.length. lia. Qed.

Lemma main_stops_at_input opts iname rest :
  stops (buildLevels iname) -> emits beforeCubemap (buildLevels iname) ->
  stops (main opts (iname :: rest)) /\ emits beforeCubemap (main opts (iname :: rest)).
Proof.
  intros S E. unfold main. split.
  - apply stops_bind_r; intros _. apply stops_bind_r; intros gl.
    rewrite num_args_given, !andb_false_r.
    apply stops_bind_r; intros _. apply stops_bind_r; intros _.
    apply stops_bind_l, S.
  - apply emits_bind; [apply emits_handleCommandLineArgments | intros _].
    apply emits_bind; [apply emits_get | intros gl].
    rewrite num_args_given, !andb_false_r.
    apply emits_bind.
    { apply emits_when. apply emits_bind; [apply emits_say; reflexivity | intros _].
      apply emits_iblLutDfg. }
    intros _. apply emits_bind; [apply emits_deploySettings | intros _].
    apply emits_bind_stops; assumption.
Qed.

(** The input [iname] is taken as layout [l]: level 0 is one cubemap of the
    output size, made by the conversion of that layout from the clamped
    input, and the conversion is the only cubemap routine that ran. *)
Definition acceptsInput (iname : string) (l : Layout) : Prop :=
  forall s,
    let n := S (List.length (store s)) in
    let dim := outputSizeOr (globals s) IBL_DEFAULT_SIZE in
    loadInput iname s =
      (Returns ([mk_Image (Some n)], [mk_Cubemap dim n]),
       mk_State (globals s)
         (trace s ++ greeting (globals s) "Decoding image..."
            ++ [Ran (ImageDecoder_decode iname); Ran CubemapUtils_clamp]
            ++ greeting (globals s) (announcement l) ++ conversion l dim)
         (store s ++ [Clamp (Decoded iname); convert l (Clamp (Decoded iname))])
         (made s)).

(** The input [iname], of size [w] x [h], is refused: the process exits at
    the aspect-ratio diagnostic, and a run of [main] on it never returns and
    never runs a routine that builds, mirrors, fixes or filters a cubemap. *)
Definition rejectsInput (iname : string) (w h : Z) : Prop :=
  (forall s,
     loadInput iname s =
       (Exits 0,
        mk_State (globals s)
          (trace s ++ greeting (globals s) "Decoding image..."
             ++ [Ran (ImageDecoder_decode iname); Ran CubemapUtils_clamp;
                 Stderr (AspectRatioNotSupported w h)])
          (store s ++ [Clamp (Decoded iname)]) (made s))) /\
  (forall opts rest,
     stops (main opts (iname :: rest)) /\
     emits beforeCubemap (main opts (iname :: rest))).

(** C1. A decoded 3-channel image of width [w] and height [h] is accepted,
    and level 0 built from it by one conversion, exactly when [w = 2h], or
    [3w = 4h] with [w] a power of two, or [3h = 4w] with [h] a power of two;
    any other size ends the process at the aspect-ratio diagnostic, and the
    run contains no conversion, mirroring, seam fix-up or filtering. *)
Theorem aspect_ratio_gate (contract : isPOT_contract) iname w h :
  exists_on_disk iname = true ->
  isValid (decode iname) = true ->
  getChannels (decode iname) = 3 ->
  getWidth (decode iname) = w -> getHeight (decode iname) = h ->
  0 <= w < 2 ^ 62 -> 0 <= h < 2 ^ 62 ->
  ((exists l, acceptsInput iname l) <-> Supported w h) /\
  (~ Supported w h -> rejectsInput iname w h).
Proof.
  intros X V C W H Bw Bh.
  assert (Ew : size_t (getWidth (decode iname)) = w)
    by (rewrite W; apply size_t_small; lia).
  assert (Eh : size_t (getHeight (decode iname)) = h)
    by (rewrite H; apply size_t_small; lia).
  pose proof (layoutOf_Supported contract w h Bw Bh) as D.
  assert (R : layoutOf w h = None -> rejectsInput iname w h).
  { intros L.
    assert (Q : forall s, loadInput iname s = _)
      by (intros s; unfold loadInput; rewrite X;
          exact (loadImage_rejected iname w h s V C Ew Eh L)).
    split; [exact Q |]. intros opts rest.
    apply main_stops_at_input.
    - apply stops_bind_l. intros s a. rewrite Q. discriminate.
    - apply emits_bind_stops.
      + intros s. rewrite Q. cbn [snd trace]. eexists. split; [reflexivity |].
        unfold greeting. destruct (g_quiet (globals s)); reflexivity.
      + intros s a. rewrite Q. discriminate. }
  split; [split |].
  - intros [l A]. destruct (layoutOf w h) eqn:L; [apply D; discriminate |].
    destruct (R eq_refl) as [Q _]. specialize (A initial_state).
    rewrite Q in A. discriminate.
  - intros S. apply D in S. destruct (layoutOf w h) as [l |] eqn:L; [| now elim S].
    exists l. intros s. unfold loadInput. rewrite X.
    exact (loadImage_accepted iname w h l s V C Ew Eh L).
  - intros N. apply R. destruct (layoutOf w h) eqn:L; [| reflexivity].
    elim N. apply D. discriminate.
Qed.
End InputGate.

Lemma Plain_isPowerOfTwo_spec x :
  0 < x -> (Plain.isPowerOfTwo x = true <-> isPowerOfTwo x).
Proof.
  intros P. unfold Plain.isPowerOfTwo.
  destruct (Z.ltb_spec 0 x) as [_ | ?]; [simpl | lia].
  rewrite Z.eqb_eq. split.
  - intros E. exists (Z.to_nat (Z.log2 x)).
    rewrite Z2Nat.id by apply Z.log2_nonneg. exact E.
  - intros [k ->]. rewrite Z.log2_pow2 by lia. reflexivity.
Qed.

Lemma Plain_contract files : @isPOT_contract (Plain.collaborators files).
Proof. intros x. apply Plain_isPowerOfTwo_spec. Qed.

Definition panorama : list (string * LinearImage) :=
  [("env.hdr", mk_LinearImage true 3 512 256)].

Lemma aspect_ratio_gate_witness :
  ((exists l, @acceptsInput (Plain.collaborators panorama) "env.hdr" l)
   <-> Supported 512 256) /\
  (~ Supported 512 256 -> @rejectsInput (Plain.collaborators panorama) "env.hdr" 512 256).
Proof.
  apply (@aspect_ratio_gate (Plain.collaborators panorama) (Plain_contract panorama)
           "env.hdr" 512 256); try reflexivity; lia.
Defined.



(** ** The mip chain *)

(** The loop in the source's terms: test [dim > 1], shift, run the body,
    go round again. *)
Lemma mipLoop_unfold dim mipLevel levels images s :
  mipLoop dim mipLevel levels images s =
    (if 1 <? Zpos dim then
       bind (mipStep (Z.shiftr (Zpos dim) 1) mipLevel levels images)
         (fun r =>
            match Z.shiftr (Zpos dim) 1 with
            | Zpos half => mipLoop half (S mipLevel) (fst r) (snd r)
            | _ => ret r
            end)
     else ret (levels, images)) s.
Proof.
  destruct dim; simpl; try reflexivity; unfold bind;
    destruct (mipStep _ _ _ _ s) as [[[l i] | | | ] s1]; reflexivity.
Qed.

(** 2^k as the loop sees it: a one followed by [k] zero digits. *)
Fixpoint pow2 (k : nat) : positive :=
  match k with
  | O => xH
  | S j => xO (pow2 j)
  end.

Lemma pow2_spec k : Zpos (pow2 k) = 2 ^ Z.of_nat k.
Proof.
  induction k as [| j IH]; [reflexivity |].
  rewrite Nat2Z.inj_succ, Z.pow_succ_r by lia.
  simpl pow2. rewrite <- IH. reflexivity.
Qed.

(** The edge lengths below 2^k: 2^(k-1), ..., 2, 1. *)
Fixpoint halvings (k : nat) : list Z :=
  match k with
  | O => []
  | S j => 2 ^ Z.of_nat j :: halvings j
  end.

Lemma length_halvings k : List.length (halvings k) = k.
Proof. induction k; simpl; congruence. Qed.

Lemma nth_error_halvings k i :
  (i < k)%nat -> nth_error (halvings k) i = Some (2 ^ Z.of_nat (k - S i)).
Proof.
  revert i. induction k as [| j IH]; intros i H; [lia |].
  destruct i as [| i]; simpl.
  - now rewrite Nat.sub_0_r.
  - apply IH. lia.
Qed.

Lemma mipStep_run dim mipLevel levels images src s :
  nth_error levels mipLevel = Some src ->
  exists s',
    mipStep dim mipLevel levels images s =
      (Returns (levels ++ [mk_Cubemap dim (List.length (store s))],
                images ++ [mk_Image (Some (List.length (store s)))]), s') /\
    trace s' = trace s ++
      [Ran (CubemapUtils_downsampleCubemapLevelBoxFilter dim (getDimensions src));
       Ran (Cubemap_makeSeamless dim)] /\
    globals s' = globals s.
Proof.
  intros H. unfold mipStep, bind, create, allocate, ret. cbn.
  rewrite H. eexists. split; [reflexivity |]. cbn.
  rewrite <- app_assoc. split; reflexivity.
Qed.

Lemma mipLoop_pow2 k : forall mipLevel levels images s,
  List.length levels = S mipLevel ->
  exists added owned s',
    mipLoop (pow2 k) mipLevel levels images s =
      (Returns (levels ++ added, images ++ owned), s') /\
    map getDimensions added = halvings k /\
    map raster owned = map (fun cm => Some (backing cm)) added.
Proof.
  induction k as [| j IH]; intros m levels images s L.
  - exists [], [], s. simpl. rewrite !app_nil_r. repeat split.
  - destruct (nth_error levels m) as [src |] eqn:E;
      [| apply nth_error_None in E; lia].
    destruct (mipStep_run (Zpos (pow2 j)) m levels images src s E) as [s1 [R _]].
    destruct (IH (S m) (levels ++ [mk_Cubemap (Zpos (pow2 j)) (List.length (store s))])
                (images ++ [mk_Image (Some (List.length (store s)))]) s1)
      as [added [owned [s2 [R2 [D O]]]]].
    { rewrite length_app, L. simpl. lia. }
    exists (mk_Cubemap (Zpos (pow2 j)) (List.length (store s)) :: added),
           (mk_Image (Some (List.length (store s))) :: owned), s2.
    split; [| split].
    + simpl mipLoop. unfold bind at 1. rewrite R. rewrite R2.
      rewrite <- !app_assoc. reflexivity.
    + simpl. rewrite D, pow2_spec. reflexivity.
    + simpl. now rewrite O.
Qed.

(** C2. From a chain holding one base level of edge 2^k, [generateMipmaps]
    returns a chain of exactly k + 1 = log2(dim) + 1 cubemaps and as many
    rasters, each added raster owned by the image at the index of the
    cubemap that views it, and level i has edge 2^(k-i): each level half
    its predecessor, down to 1. *)
Theorem mip_chain_length (k : nat) (base : Cubemap) (image : Image) (s : State) :
  getDimensions base = 2 ^ Z.of_nat k ->
  exists levels images s',
    generateMipmaps [base] [image] s = (Returns (levels, images), s') /\
    List.length levels = S k /\
    List.length images = S k /\
    Z.of_nat (List.length levels) = Z.log2 (getDimensions base) + 1 /\
    map raster (tl images) = map (fun cm => Some (backing cm)) (tl levels) /\
    forall i, (i <= k)%nat ->
      option_map getDimensions (nth_error levels i) = Some (2 ^ Z.of_nat (k - i)).
Proof.
  intros D.
  assert (Lg : Z.log2 (getDimensions base) = Z.of_nat k)
    by (rewrite D; apply Z.log2_pow2; lia).
  unfold generateMipmaps. rewrite Lg, D, <- pow2_spec.
  destruct (mipLoop_pow2 k 0 [base] [image] s eq_refl)
    as [added [owned [s' [R [Dims O]]]]].
  exists (base :: added), (image :: owned), s'.
  split; [exact R |].
  assert (La : List.length added = k)
    by (rewrite <- (length_map getDimensions), Dims; apply length_halvings).
  split; [simpl; now rewrite La |].
  split; [simpl; rewrite <- La, <- (length_map (fun cm => Some (backing cm))), <- O;
          now rewrite length_map |].
  split; [simpl List.length; rewrite La; lia |].
  split; [exact O |].
  intros [| i] H.
  - simpl. now rewrite D, Nat.sub_0_r.
  - simpl. rewrite <- nth_error_map, Dims. apply nth_error_halvings. lia.
Qed.

(** A 256-edge base: nine levels, 256 down to 1. *)
Lemma mip_chain_length_witness :
  exists levels images s',
    generateMipmaps [mk_Cubemap 256 0] [mk_Image (Some 0%nat)]
      (mk_State initial_globals [] [Uninitialized] []) = (Returns (levels, images), s') /\
    List.length levels = 9%nat /\
    List.length images = 9%nat /\
    Z.of_nat (List.length levels) = Z.log2 256 + 1 /\
    map raster (tl images) = map (fun cm => Some (backing cm)) (tl levels) /\
    forall i, (i <= 8)%nat ->
      option_map getDimensions (nth_error levels i) = Some (2 ^ Z.of_nat (8 - i)).
Proof.
  apply (mip_chain_length 8 (mk_Cubemap 256 0) (mk_Image (Some 0%nat))
           (mk_State initial_globals [] [Uninitialized] [])).
  reflexivity.
Defined.

Example mip_chain_256 :
  match fst (generateMipmaps [mk_Cubemap 256 0] [mk_Image (Some 0%nat)]
               (mk_State initial_globals [] [Uninitialized] [])) with
  | Returns (levels, images) =>
      map getDimensions levels = [256; 128; 64; 32; 16; 8; 4; 2; 1] /\
      List.length images = 9%nat
  | _ => False
  end.
Proof. vm_compute. split; reflexivity. Qed.

(** ** Cross layouts *)



Section Cross.
Context {collaborators : Collaborators}.



End Cross.

(** Two crosses of the same cells: 1024 x 768 and 768 x 1024. *)
Definition crosses : list (string * LinearImage) :=
  [("wide.hdr", mk_LinearImage true 3 1024 768);
   ("tall.hdr", mk_LinearImage true 3 768 1024)].


(** The driver treats the two alike: each is loaded as a cross, by the same
    call. *)
Example crosses_loaded :
  @acceptsInput (Plain.collaborators crosses) "wide.hdr" Cross /\
  @acceptsInput (Plain.collaborators crosses) "tall.hdr" Cross.
Proof.
  split; intros s; unfold loadInput; cbn [exists_on_disk Plain.collaborators];
    [apply (@loadImage_accepted (Plain.collaborators crosses) "wide.hdr" 1024 768 Cross)
    | apply (@loadImage_accepted (Plain.collaborators crosses) "tall.hdr" 768 1024 Cross)];
    reflexivity.
Qed.

(** ** Spherical-harmonics output *)

Lemma range_cons from count : range from (S count) = from :: range (from + 1) count.
Proof.
  unfold range. simpl. rewrite Z.add_0_r. f_equal.
  rewrite <- seq_shift, map_map. apply map_ext. intros k. lia.
Qed.

Lemma length_range from count : List.length (range from count) = count.
Proof. unfold range. now rewrite length_map, length_seq. Qed.

Lemma range_app from c1 c2 :
  range from (c1 + c2) = range from c1 ++ range (from + Z.of_nat c1) c2.
Proof.
  revert from. induction c1 as [| c IH]; intros from.
  - simpl. now rewrite Z.add_0_r.
  - simpl Nat.add. rewrite !range_cons, IH. simpl. do 3 f_equal. lia.
Qed.

Lemma map_add_range d from count :
  map (fun m => d + m) (range from count) = range (d + from) count.
Proof.
  unfold range. rewrite map_map. apply map_ext. intros k. lia.
Qed.

Lemma nth_error_range from count i :
  (i < count)%nat -> nth_error (range from count) i = Some (from + Z.of_nat i).
Proof.
  intros H. unfold range.
  rewrite nth_error_map, nth_error_seq.
  destruct (Nat.ltb_spec i count); [reflexivity | lia].
Qed.

Lemma In_range from count x :
  In x (range from count) <-> from <= x < from + Z.of_nat count.
Proof.
  unfold range. rewrite in_map_iff. split.
  - intros [k [<- H]]. apply in_seq in H. lia.
  - intros H. exists (Z.to_nat (x - from)). split; [lia | apply in_seq; lia].
Qed.

(** The pairs (l, m) in the order the two loops visit them. *)
Definition bandOrders (numBands : Z) : list (Z * Z) :=
  flat_map (fun l => map (fun m => (l, m)) (range (- l) (Z.to_nat (2 * l + 1))))
           (range 0 (Z.to_nat numBands)).

Lemma bandOrders_succ k :
  bandOrders (Z.of_nat (S k)) =
    bandOrders (Z.of_nat k)
      ++ map (fun m => (Z.of_nat k, m)) (range (- Z.of_nat k) (2 * k + 1)).
Proof.
  unfold bandOrders. rewrite !Nat2Z.id.
  replace (S k) with (k + 1)%nat by lia.
  rewrite range_app, flat_map_app. f_equal.
  change (range (0 + Z.of_nat k) 1) with [0 + Z.of_nat k + 0].
  cbn [flat_map]. rewrite app_nil_r, !Z.add_0_r, Z.add_0_l.
  do 2 f_equal. lia.
Qed.

(** The slots are read in increasing order, each once: 0, 1, ..., n^2 - 1. *)
Lemma slots_in_order k :
  map (fun lm => getShIndex (snd lm) (fst lm)) (bandOrders (Z.of_nat k))
    = range 0 (k * k).
Proof.
  induction k as [| k IH]; [reflexivity |].
  rewrite bandOrders_succ, map_app, IH, map_map.
  replace (S k * S k)%nat with (k * k + (2 * k + 1))%nat by lia.
  rewrite (range_app 0 (k * k) (2 * k + 1)). f_equal.
  replace (0 + Z.of_nat (k * k))
    with ((Z.of_nat k * Z.of_nat k + Z.of_nat k) + - Z.of_nat k) by lia.
  rewrite <- map_add_range.
  apply map_ext. intros m. reflexivity.
Qed.

Lemma length_bandOrders k : List.length (bandOrders (Z.of_nat k)) = (k * k)%nat.
Proof.
  rewrite <- (length_map (fun lm => getShIndex (snd lm) (fst lm))), slots_in_order.
  apply length_range.
Qed.

Lemma In_bandOrders n l m :
  In (l, m) (bandOrders n) <-> (0 <= l < n /\ - l <= m <= l).
Proof.
  unfold bandOrders. rewrite in_flat_map. split.
  - intros [l' [Hl Hm]]. apply in_map_iff in Hm as [m' [[= <- <-] Hm]].
    apply In_range in Hl. apply In_range in Hm. lia.
  - intros [Hl Hm]. exists l. split; [apply In_range; lia |].
    apply in_map_iff. exists m. split; [reflexivity | apply In_range; lia].
Qed.

Lemma sequence_map {A B} (f : A -> option B) (g : A -> B) l :
  (forall x, In x l -> f x = Some (g x)) -> sequence (map f l) = Some (map g l).
Proof.
  induction l as [| a l IH]; intros H; [reflexivity |].
  simpl. rewrite (H a (or_introl eq_refl)), IH; [reflexivity |].
  intros x I. apply H. now right.
Qed.

Lemma map_nth_range {A} (l : list A) d :
  map (fun i => nth (Z.to_nat i) l d) (range 0 (List.length l)) = l.
Proof.
  induction l as [| a l IH]; [reflexivity |].
  simpl List.length. rewrite range_cons. cbn [map Z.to_nat nth]. f_equal.
  change (0 + 1) with (1 + 0).
  rewrite <- (map_add_range 1), map_map. rewrite <- IH at 2.
  apply map_ext_in. intros i H. apply In_range in H.
  replace (Z.to_nat (1 + i)) with (S (Z.to_nat i)) by lia. reflexivity.
Qed.

(** The comment [outputSh] puts after the coefficient of band [l], order [m]. *)
Definition lineName (gl : Globals) (l m : Z) : string :=
  let name := String.append "L" (String.append (to_string l) (to_string m)) in
  let name := if g_sh_irradiance gl then String.append name ", irradiance" else name in
  if g_sh_shader gl then String.append name ", pre-scaled base" else name.

Definition zero3 : double3 := mk_double3 0%float 0%float 0%float.

(** The line for (l, m): the coefficient in slot [getShIndex m l]. *)
Definition lineOf (gl : Globals) (sh : list double3) (lm : Z * Z) : ShLine :=
  mk_ShLine (nth (Z.to_nat (getShIndex (snd lm) (fst lm))) sh zero3)
    (lineName gl (fst lm) (snd lm)).

Lemma flat_map_pairs {A B C} (f : A -> B -> C) (R : A -> list B) (ls : list A) :
  flat_map (fun l => map (f l) (R l)) ls
    = map (fun lm => f (fst lm) (snd lm))
          (flat_map (fun l => map (fun m => (l, m)) (R l)) ls).
Proof.
  induction ls as [| l t IH]; [reflexivity |].
  cbn [flat_map]. rewrite map_app, IH, map_map. reflexivity.
Qed.

Lemma shLines_bandOrders gl sh numBands :
  shLines gl sh numBands
    = sequence (map (fun lm => shLine gl sh (fst lm) (snd lm)) (bandOrders numBands)).
Proof.
  unfold shLines, bandOrders. f_equal.
  apply (flat_map_pairs (shLine gl sh)).
Qed.

(** C7. For [n] bands and an array of n^2 coefficients, [outputSh] writes
    exactly n^2 lines, in the order band [l] from 0 to n - 1 outside and
    order [m] from [-l] to [l] inside, the line of (l, m) carrying the
    coefficient of slot l^2 + l + m; the slots come out as 0, 1, ..., n^2 - 1,
    so the triples written are the array itself. *)
Theorem outputSh_enumeration (out : Stream) (sh : list double3) (n : Z) (s : State) :
  1 <= n ->
  List.length sh = Z.to_nat (n * n) ->
  let lines := map (lineOf (globals s) sh) (bandOrders n) in
  outputSh out sh n s =
    (Returns tt,
     mk_State (globals s)
       (trace s ++ [match out with
                    | ToStdout => StdoutSh lines
                    | ToFile path => WroteSh path lines
                    end])
       (store s) (made s)) /\
  List.length lines = Z.to_nat (n * n) /\
  map coefficient lines = sh /\
  (forall l m, In (l, m) (bandOrders n) <-> (0 <= l < n /\ - l <= m <= l)) /\
  (forall l m, getShIndex m l = l ^ 2 + l + m).
Proof.
  intros Hn L lines.
  assert (E : n = Z.of_nat (Z.to_nat n)) by lia.
  assert (Sq : Z.to_nat (n * n) = (Z.to_nat n * Z.to_nat n)%nat) by lia.
  assert (R : shLines (globals s) sh n = Some lines).
  { rewrite shLines_bandOrders. apply sequence_map.
    intros [l m] I. unfold shLine, lineOf, lineName. simpl fst; simpl snd.
    assert (B : In (getShIndex m l) (range 0 (Z.to_nat n * Z.to_nat n))).
    { rewrite <- slots_in_order, <- E. apply in_map_iff. now exists (l, m). }
    apply In_range in B.
    destruct (Z.ltb_spec (getShIndex m l) 0) as [? | _]; [lia |].
    destruct (nth_error sh (Z.to_nat (getShIndex m l))) as [c |] eqn:N.
    - now rewrite (nth_error_nth _ _ _ N).
    - apply nth_error_None in N. lia. }
  split; [| split; [| split; [| split]]].
  - unfold outputSh, bind, get. rewrite R. destruct out; reflexivity.
  - subst lines. rewrite length_map, E, length_bandOrders. lia.
  - subst lines. rewrite map_map. simpl coefficient.
    rewrite <- (map_map (fun lm => getShIndex (snd lm) (fst lm))
                        (fun i => nth (Z.to_nat i) sh zero3)).
    rewrite E, slots_in_order, <- Sq, <- L. apply map_nth_range.
  - intros l m. apply In_bandOrders.
  - intros l m. unfold getShIndex. lia.
Qed.

(** Three bands: nine triples. *)
Lemma outputSh_enumeration_witness :
  outputSh ToStdout (repeat zero3 9) 3 initial_state =
    (Returns tt,
     mk_State initial_globals
       [StdoutSh (map (lineOf initial_globals (repeat zero3 9)) (bandOrders 3))] [] []) /\
  List.length (map (lineOf initial_globals (repeat zero3 9)) (bandOrders 3)) = 9%nat /\
  map coefficient (map (lineOf initial_globals (repeat zero3 9)) (bandOrders 3))
    = repeat zero3 9 /\
  (forall l m, In (l, m) (bandOrders 3) <-> (0 <= l < 3 /\ - l <= m <= l)) /\
  (forall l m, getShIndex m l = l ^ 2 + l + m).
Proof.
  apply (outputSh_enumeration ToStdout (repeat zero3 9) 3 initial_state);
    [lia | reflexivity].
Defined.

Example bandOrders_3 :
  bandOrders 3 =
    [(0, 0); (1, -1); (1, 0); (1, 1); (2, -2); (2, -1); (2, 0); (2, 1); (2, 2)].
Proof. reflexivity. Qed.

(** ** KTX export *)

(** [getBlob]: what the container holds for an index. *)
Definition getBlob (c : KtxBundle) (i : KtxBlobIndex) : option Blob :=
  option_map snd (find (fun e => KtxBlobIndex_eqb (fst e) i) (blobs c)).

Lemma KtxBlobIndex_eqb_refl i : KtxBlobIndex_eqb i i = true.
Proof. unfold KtxBlobIndex_eqb. now rewrite !Z.eqb_refl. Qed.

Lemma getBlob_setBlob_same c i d : getBlob (setBlob c i d) i = Some d.
Proof. unfold getBlob, setBlob. simpl. now rewrite KtxBlobIndex_eqb_refl. Qed.

Lemma KtxBlobIndex_eqb_sym i j : KtxBlobIndex_eqb i j = KtxBlobIndex_eqb j i.
Proof.
  unfold KtxBlobIndex_eqb.
  now rewrite (Z.eqb_sym (mipLevel i)), (Z.eqb_sym (arrayIndex i)),
    (Z.eqb_sym (cubeFace i)).
Qed.

Lemma find_filter_other {A} (p q : A -> bool) l :
  (forall x, p x = true -> q x = true) -> find p (filter q l) = find p l.
Proof.
  intros H. induction l as [| a l IH]; [reflexivity |]. simpl.
  destruct (q a) eqn:Q; simpl.
  - now rewrite IH.
  - destruct (p a) eqn:P; [| exact IH]. apply H in P. congruence.
Qed.

Lemma KtxBlobIndex_eqb_trans i j k :
  KtxBlobIndex_eqb i j = true -> KtxBlobIndex_eqb j k = true -> KtxBlobIndex_eqb i k = true.
Proof.
  unfold KtxBlobIndex_eqb. rewrite !andb_true_iff, !Z.eqb_eq. intuition congruence.
Qed.

Lemma getBlob_setBlob_other c i j d :
  KtxBlobIndex_eqb i j = false -> getBlob (setBlob c i d) j = getBlob c j.
Proof.
  intros N. unfold getBlob, setBlob. simpl. rewrite N. f_equal.
  apply find_filter_other. intros x P.
  destruct (KtxBlobIndex_eqb (fst x) i) eqn:E; [| reflexivity].
  rewrite KtxBlobIndex_eqb_sym in E.
  now rewrite (KtxBlobIndex_eqb_trans _ _ _ E P) in N.
Qed.

Lemma getBlob_set_info c i info' : getBlob (set_info c info') i = getBlob c i.
Proof. reflexivity. Qed.

Section KtxExport.
Context {collaborators : Collaborators}.

(** What the specification says of the compression grammar: a string that
    parses yields a block-compressed configuration, never the invalid one. *)
Definition parse_contract : Prop :=
  forall str c,
    fst (parseOptionString str c) = true ->
    is_INVALID (snd (parseOptionString str c)) = false.

(** The blob [exportKtxFaces] stores for face [j] under a block compressor. *)
Definition compressedFace (compression : CompressionConfig) (pixels : Texels) (j : Z)
    : Blob :=
  mk_Blob (ImageForFace (ktxFace j) pixels) true
    (fst (compressTexture compression (ImageForFace (ktxFace j) pixels))).

Lemma exportKtxFace_compressed compression miplevel cm container j s :
  is_INVALID compression = false ->
  let image := ImageForFace (ktxFace j) (texelsOf s (backing cm)) in
  exportKtxFace compression miplevel cm container j s =
    (Returns
       (set_info
          (setBlob container (mk_KtxBlobIndex (unsigned miplevel) 0 j)
             (compressedFace compression (texelsOf s (backing cm)) j))
          (set_glInternalFormat (unsigned (snd (compressTexture compression image)))
             (info container))),
     mk_State (globals s) (trace s ++ [Ran (compressTexture_call miplevel j)])
       (store s) (made s)).
Proof.
  intros V. unfold exportKtxFace, getImageForFace, bind, load, ret, emit.
  cbn. rewrite V. reflexivity.
Qed.


(** One turn of the face loop on the container, under a block compressor. *)
Definition storeCompressedFace (compression : CompressionConfig) (miplevel : Z)
    (pixels : Texels) (container : KtxBundle) (j : Z) : KtxBundle :=
  set_info
    (setBlob container (mk_KtxBlobIndex (unsigned miplevel) 0 j)
       (compressedFace compression pixels j))
    (set_glInternalFormat
       (unsigned (snd (compressTexture compression (ImageForFace (ktxFace j) pixels))))
       (info container)).

Lemma exportKtxFaceLoop_compressed compression miplevel cm :
  is_INVALID compression = false ->
  forall js container s,
    exportKtxFaceLoop js compression miplevel cm container s =
      (Returns (fold_left (storeCompressedFace compression miplevel
                             (texelsOf s (backing cm))) js container),
       mk_State (globals s)
         (trace s ++ map (fun j => Ran (compressTexture_call miplevel j)) js)
         (store s) (made s)).
Proof.
  intros V. induction js as [| j js IH]; intros container s.
  - simpl. rewrite app_nil_r. destruct s; reflexivity.
  - simpl exportKtxFaceLoop. unfold bind.
    rewrite (exportKtxFace_compressed _ _ _ _ _ _ V), IH.
    cbn [globals trace store made map fold_left]. rewrite <- app_assoc.
    reflexivity.
Qed.

(** C6. With a non-empty compression string [exportKtxFaces] parses it. A
    string that does not parse ends the process with status 1 at the
    diagnostic. One that parses sets [glTypeSize] to 1, [glFormat] to 0 and
    [glBaseInternalFormat] to [RGBA], stores the six faces compressed, and
    leaves in [glInternalFormat] the format tag the compressor returned
    (the one of the last face, NZ); the rest of the header is untouched. *)
Theorem exportKtxFaces_compression (contract : parse_contract)
    (container : KtxBundle) (miplevel : Z) (cm : Cubemap) (s : State) :
  g_compression (globals s) <> "" ->
  let parsed := parseOptionString (g_compression (globals s)) no_compression in
  let pixels := texelsOf s (backing cm) in
  (fst parsed = false ->
   exportKtxFaces container miplevel cm s =
     (Exits 1,
      mk_State (globals s)
        (trace s ++ [Stderr (UnrecognizedCompression (g_compression (globals s)))])
        (store s) (made s))) /\
  (fst parsed = true ->
   exists container' s',
     exportKtxFaces container miplevel cm s = (Returns container', s') /\
     glTypeSize (info container') = 1 /\
     glFormat (info container') = 0 /\
     glBaseInternalFormat (info container') = RGBA /\
     glInternalFormat (info container')
       = unsigned (snd (compressTexture (snd parsed) (ImageForFace NZ pixels))) /\
     (forall j, 0 <= j < 6 ->
        getBlob container' (mk_KtxBlobIndex (unsigned miplevel) 0 j)
          = Some (compressedFace (snd parsed) pixels j)) /\
     endianness (info container') = endianness (info container) /\
     glType (info container') = glType (info container) /\
     pixelWidth (info container') = pixelWidth (info container) /\
     pixelHeight (info container') = pixelHeight (info container) /\
     pixelDepth (info container') = pixelDepth (info container)).
Proof.
  intros N parsed pixels.
  apply String.eqb_neq in N.
  split; intros P.
  - unfold exportKtxFaces, bind, get. rewrite N. fold parsed. rewrite P. reflexivity.
  - pose proof (contract _ _ P) as V. fold parsed in V.
    unfold exportKtxFaces. unfold bind at 1, get.
    rewrite N. fold parsed. rewrite P.
    cbn [negb]. unfold bind, ret.
    rewrite (exportKtxFaceLoop_compressed _ _ _ V).
    fold pixels.
    eexists. eexists. split; [reflexivity |].
    change (range 0 6) with [0; 1; 2; 3; 4; 5].
    cbn [fold_left].
    repeat split.
    intros j Hj.
    assert (C : j = 0 \/ j = 1 \/ j = 2 \/ j = 3 \/ j = 4 \/ j = 5) by lia.
    unfold storeCompressedFace.
    destruct C as [-> | [-> | [-> | [-> | [-> | ->]]]]];
      repeat first
        [ rewrite getBlob_set_info
        | rewrite getBlob_setBlob_same
        | rewrite getBlob_setBlob_other
            by (unfold KtxBlobIndex_eqb; cbn [mipLevel arrayIndex cubeFace];
                now rewrite Z.eqb_refl) ];
      reflexivity.
Qed.
End KtxExport.

Lemma Plain_parse_contract files : @parse_contract (Plain.collaborators files).
Proof.
  intros str c. simpl.
  destruct (_ || _); [reflexivity | discriminate].
Qed.

Definition etc_state : State :=
  mk_State (set_g_compression "etc_rgba8_rgba_40" initial_globals) []
    [GenerateUVGrid 1 1] [].

Definition empty_container : KtxBundle :=
  mk_KtxBundle 1 1 true (mk_KtxInfo 0 0 4 6408 6408 6408 4 4 0) [] [].


Lemma exportKtxFaces_compression_witness :
  (fst (@parseOptionString (Plain.collaborators []) "etc_rgba8_rgba_40" None) = false ->
   @exportKtxFaces (Plain.collaborators []) empty_container 0 (mk_Cubemap 4 0) etc_state =
     (Exits 1,
      mk_State (globals etc_state)
        (trace etc_state ++ [Stderr (UnrecognizedCompression "etc_rgba8_rgba_40")])
        (store etc_state) (made etc_state))) /\
  (fst (@parseOptionString (Plain.collaborators []) "etc_rgba8_rgba_40" None) = true ->
   exists container' s',
     @exportKtxFaces (Plain.collaborators []) empty_container 0 (mk_Cubemap 4 0) etc_state
       = (Returns container', s') /\
     glTypeSize (info container') = 1 /\
     glFormat (info container') = 0 /\
     glBaseInternalFormat (info container') = 6408 /\
     glInternalFormat (info container') = 37808 /\
     (forall j, 0 <= j < 6 ->
        getBlob container' (mk_KtxBlobIndex (unsigned 0) 0 j)
          = Some (@compressedFace (Plain.collaborators [])
                    (Some "etc_rgba8_rgba_40") (GenerateUVGrid 1 1) j)) /\
     endianness (info container') = endianness (info empty_container) /\
     glType (info container') = glType (info empty_container) /\
     pixelWidth (info container') = pixelWidth (info empty_container) /\
     pixelHeight (info container') = pixelHeight (info empty_container) /\
     pixelDepth (info container') = pixelDepth (info empty_container)).
Proof.
  apply (@exportKtxFaces_compression (Plain.collaborators []) (Plain_parse_contract [])
           empty_container 0 (mk_Cubemap 4 0) etc_state).
  discriminate.
Defined.

Example exportKtxFaces_unrecognized :
  fst (@exportKtxFaces (Plain.collaborators []) empty_container 0 (mk_Cubemap 4 0)
         (mk_State (set_g_compression "zip" initial_globals) [] [GenerateUVGrid 1 1] []))
    = Exits 1.
Proof. reflexivity. Qed.

(** ** Synthetic inputs *)

Section Synthetic.
Context {collaborators : Collaborators}.

(** The line printed (unless quiet) when the input is not on disk. *)
Definition missing (gl : Globals) (iname : string) : list Event :=
  if g_quiet gl then [] else [StdoutMissing iname].

(** [loadInput] makes level 0 by the one call [c], leaving pixels [t] in a
    new raster that a cubemap of the output size views. *)
Definition generates (iname : string) (s : State) (t : Texels) (c : Call) : Prop :=
  loadInput iname s =
    (Returns ([mk_Image (Some (List.length (store s)))],
              [mk_Cubemap (outputSizeOr (globals s) IBL_DEFAULT_SIZE)
                 (List.length (store s))]),
     mk_State (globals s) (trace s ++ missing (globals s) iname ++ [Ran c])
       (store s ++ [t]) (made s)).

Ltac run_synthetic :=
  unfold generates, loadInput, generateSynthetic, missing, bind, get, when, emit, create,
    allocate, overwrite, ret, texelsOf;
  match goal with
  | X : exists_on_disk _ = false |- _ => rewrite X
  end;
  repeat match goal with
         | H : sscanf_u _ _ = _ |- _ => rewrite H; clear H
         end;
  destruct (g_quiet (globals _)); cbn;
  rewrite ?app_nil_r, <- ?app_assoc; cbn;
  store_norm; reflexivity.

(** The five cases of the synthetic input, one after the other. *)
Lemma generateSynthetic_cases (iname : string) (s : State) :
  exists_on_disk iname = false ->
  let name := getNameWithoutExtension iname in
  let dim := outputSizeOr (globals s) IBL_DEFAULT_SIZE in
  (forall p, sscanf_u name "uv" = Some p ->
     generates iname s (GenerateUVGrid p p) (CubemapUtils_generateUVGrid dim p p)) /\
  (forall p, sscanf_u name "uv" = None -> sscanf_u name "u" = Some p ->
     generates iname s (GenerateUVGrid p 1) (CubemapUtils_generateUVGrid dim p 1)) /\
  (forall p, sscanf_u name "uv" = None -> sscanf_u name "u" = None ->
     sscanf_u name "v" = Some p ->
     generates iname s (GenerateUVGrid 1 p) (CubemapUtils_generateUVGrid dim 1 p)) /\
  (forall p, sscanf_u name "uv" = None -> sscanf_u name "u" = None ->
     sscanf_u name "v" = None -> sscanf_u name "brdf" = Some p ->
     let linear_roughness := sq (PrimFloat.div (to_double p) (log2 (to_double dim))) in
     generates iname s (Brdf linear_roughness) (CubemapIBL_brdf dim linear_roughness)) /\
  (sscanf_u name "uv" = None -> sscanf_u name "u" = None ->
   sscanf_u name "v" = None -> sscanf_u name "brdf" = None ->
   generates iname s (GenerateUVGrid 1 1) (CubemapUtils_generateUVGrid dim 1 1)).
Proof.
  intros X name dim. subst name dim.
  repeat split; intros; run_synthetic.
Qed.

(** C8. An input that is not on disk never ends the run at the input stage:
    level 0 is the UV grid N x N for a name [uvN], N x 1 for [uN], 1 x N for
    [vN], the BRDF lobe for [brdfN], tried in this order, and the plain
    1 x 1 UV grid for any other name; its edge is the output size, which is
    [IBL_DEFAULT_SIZE] = 256 unless [--size] set another. *)
Theorem synthetic_fallback (iname : string) (s : State) :
  exists_on_disk iname = false ->
  let name := getNameWithoutExtension iname in
  let dim := outputSizeOr (globals s) IBL_DEFAULT_SIZE in
  (forall p, sscanf_u name "uv" = Some p ->
     generates iname s (GenerateUVGrid p p) (CubemapUtils_generateUVGrid dim p p)) /\
  (forall p, sscanf_u name "uv" = None -> sscanf_u name "u" = Some p ->
     generates iname s (GenerateUVGrid p 1) (CubemapUtils_generateUVGrid dim p 1)) /\
  (forall p, sscanf_u name "uv" = None -> sscanf_u name "u" = None ->
     sscanf_u name "v" = Some p ->
     generates iname s (GenerateUVGrid 1 p) (CubemapUtils_generateUVGrid dim 1 p)) /\
  (forall p, sscanf_u name "uv" = None -> sscanf_u name "u" = None ->
     sscanf_u name "v" = None -> sscanf_u name "brdf" = Some p ->
     let linear_roughness := sq (PrimFloat.div (to_double p) (log2 (to_double dim))) in
     generates iname s (Brdf linear_roughness) (CubemapIBL_brdf dim linear_roughness)) /\
  (sscanf_u name "uv" = None -> sscanf_u name "u" = None ->
   sscanf_u name "v" = None -> sscanf_u name "brdf" = None ->
   generates iname s (GenerateUVGrid 1 1) (CubemapUtils_generateUVGrid dim 1 1)) /\
  (exists t c, generates iname s t c) /\
  (g_output_size (globals s) = 0 -> dim = 256).
Proof.
  intros X name dim. subst name dim.
  destruct (generateSynthetic_cases iname s X) as [A [B [C [D E]]]].
  repeat split; auto.
  - destruct (sscanf_u (getNameWithoutExtension iname) "uv") as [p |] eqn:S1;
      [eexists; eexists; apply (A p eq_refl) |].
    destruct (sscanf_u (getNameWithoutExtension iname) "u") as [p |] eqn:S2;
      [eexists; eexists; apply (B p eq_refl eq_refl) |].
    destruct (sscanf_u (getNameWithoutExtension iname) "v") as [p |] eqn:S3;
      [eexists; eexists; apply (C p eq_refl eq_refl eq_refl) |].
    destruct (sscanf_u (getNameWithoutExtension iname) "brdf") as [p |] eqn:S4;
      [eexists; eexists; apply (D p eq_refl eq_refl eq_refl eq_refl) |].
    eexists; eexists; apply (E eq_refl eq_refl eq_refl eq_refl).
  - intros H. unfold outputSizeOr. now rewrite H.
Qed.

End Synthetic.

Lemma synthetic_fallback_witness :
  (forall p, Plain.scan "sky" "uv" = Some p ->
     @generates (Plain.collaborators []) "sky" initial_state
       (GenerateUVGrid p p) (CubemapUtils_generateUVGrid 256 p p)) /\
  (forall p, Plain.scan "sky" "uv" = None -> Plain.scan "sky" "u" = Some p ->
     @generates (Plain.collaborators []) "sky" initial_state
       (GenerateUVGrid p 1) (CubemapUtils_generateUVGrid 256 p 1)) /\
  (forall p, Plain.scan "sky" "uv" = None -> Plain.scan "sky" "u" = None ->
     Plain.scan "sky" "v" = Some p ->
     @generates (Plain.collaborators []) "sky" initial_state
       (GenerateUVGrid 1 p) (CubemapUtils_generateUVGrid 256 1 p)) /\
  (forall p, Plain.scan "sky" "uv" = None -> Plain.scan "sky" "u" = None ->
     Plain.scan "sky" "v" = None -> Plain.scan "sky" "brdf" = Some p ->
     let linear_roughness :=
       sq (PrimFloat.div (to_double p) (Plain.binaryLog (to_double 256))) in
     @generates (Plain.collaborators []) "sky" initial_state
       (Brdf linear_roughness) (CubemapIBL_brdf 256 linear_roughness)) /\
  (Plain.scan "sky" "uv" = None -> Plain.scan "sky" "u" = None ->
   Plain.scan "sky" "v" = None -> Plain.scan "sky" "brdf" = None ->
   @generates (Plain.collaborators []) "sky" initial_state
     (GenerateUVGrid 1 1) (CubemapUtils_generateUVGrid 256 1 1)) /\
  (exists t c, @generates (Plain.collaborators []) "sky" initial_state t c) /\
  (g_output_size (globals initial_state) = 0 -> 256 = 256).
Proof.
  apply (@synthetic_fallback (Plain.collaborators []) "sky" initial_state).
  reflexivity.
Defined.

Example synthetic_uv4 :
  @generates (Plain.collaborators []) "uv4" initial_state
    (GenerateUVGrid 4 4) (CubemapUtils_generateUVGrid 256 4 4).
Proof. reflexivity. Qed.

Example synthetic_other :
  @generates (Plain.collaborators []) "sky" initial_state
    (GenerateUVGrid 1 1) (CubemapUtils_generateUVGrid 256 1 1).
Proof. reflexivity. Qed.

(** ** From the command line to the input *)

Section Prologue.
Context {collaborators : Collaborators}.

(** What [main] does before it looks at the input: the options, the DFG
    LUT when asked for, the deployment settings. *)
Definition prologue (opts : list (ascii * option string)) (iname : string) : M unit :=
  handleCommandLineArgments opts ;;
  gl <- get ;;
  when (g_dfg gl)
    (say "Generating IBL DFG LUT..." ;;
     iblLutDfg (g_dfg_filename gl) (outputSizeOr gl DFG_LUT_DEFAULT_SIZE)
       (g_dfg_multiscatter gl)) ;;
  deploySettings iname.

(** With an input argument, [main] is its prologue, then the mip chain,
    then the stages; an exit in the prologue is the exit of [main]. *)
Lemma main_prologue opts iname rest s0 :
  main opts (iname :: rest) s0 =
    (prologue opts iname ;;
     '(images, levels) <- buildLevels iname ;;
     runStages iname images levels ;;
     ret 0) s0.
Proof.
  unfold main, prologue, bind, get.
  destruct (handleCommandLineArgments opts s0) as [[[] | n | | ] sa]; try reflexivity.
  rewrite num_args_given, !andb_false_r.
  destruct (when (g_dfg (globals sa)) _ sa) as [[[] | n | | ] sb]; try reflexivity.
Qed.

Lemma main_at_input opts iname rest s0 s :
  prologue opts iname s0 = (Returns tt, s) ->
  main opts (iname :: rest) s0 =
    ('(images, levels) <- buildLevels iname ;;
     runStages iname images levels ;;
     ret 0) s.
Proof.
  intros P. rewrite main_prologue. unfold bind at 1. rewrite P. reflexivity.
Qed.


(** *** What ends the run at the input *)

Lemma loadImage_undecodable iname s :
  isValid (decode iname) = false ->
  loadImage iname s =
    (Exits 1,
     mk_State (globals s)
       (trace s ++ greeting (globals s) "Decoding image..."
          ++ [Ran (ImageDecoder_decode iname); Stderr (UnableToOpenImage iname)])
       (store s) (made s)).
Proof.
  intros V. unfold loadImage. rewrite V.
  unfold say, greeting, bind, get, when, emit, exit.
  destruct s as [gl tr st md]. destruct (g_quiet gl) eqn:Q;
    cbn; rewrite ?Q; cbn; rewrite <- ?app_assoc; reflexivity.
Qed.

Lemma loadImage_not_rgb iname s :
  isValid (decode iname) = true ->
  getChannels (decode iname) <> 3 ->
  loadImage iname s =
    (Exits 1,
     mk_State (globals s)
       (trace s ++ greeting (globals s) "Decoding image..."
          ++ [Ran (ImageDecoder_decode iname);
              Stderr (InputImageMustBeRGB (getChannels (decode iname)))])
       (store s) (made s)).
Proof.
  intros V C. apply Z.eqb_neq in C. unfold loadImage. rewrite V, C.
  unfold say, greeting, bind, get, when, emit, exit.
  destruct s as [gl tr st md]. destruct (g_quiet gl) eqn:Q;
    cbn; rewrite ?Q; cbn; rewrite <- ?app_assoc; reflexivity.
Qed.

(** An exit while the mip chain is built is the exit of [main]. *)
Lemma main_exits_at_input opts iname rest s0 s status s' :
  prologue opts iname s0 = (Returns tt, s) ->
  loadInput iname s = (Exits status, s') ->
  main opts (iname :: rest) s0 = (Exits status, s').
Proof.
  intros P L. rewrite (main_at_input _ _ _ _ _ P).
  unfold buildLevels, bind. rewrite L. reflexivity.
Qed.

(** An exit in the option loop is the exit of [main]. *)
Lemma optionLoop_app before after lc s :
  optionLoop (before ++ after) lc s =
    (lc' <- optionLoop before lc ;; optionLoop after lc') s.
Proof.
  revert lc s. induction before as [| [opt optarg] t IH]; intros lc s.
  - reflexivity.
  - simpl. unfold bind.
    destruct (handleOption opt _ lc s) as [[lc1 | n | | ] s1]; try reflexivity.
    rewrite IH. reflexivity.
Qed.

Lemma main_exits_at_option before opt optarg after args lc s0 s status s' :
  optionLoop before initial_locals s0 = (Returns lc, s) ->
  handleOption opt (match optarg with Some a => a | None => "" end) lc s
    = (Exits status, s') ->
  main (before ++ (opt, optarg) :: after) args s0 = (Exits status, s').
Proof.
  intros B H. unfold main, handleCommandLineArgments. unfold bind.
  rewrite optionLoop_app. unfold bind. rewrite B.
  simpl optionLoop. unfold bind. rewrite H. reflexivity.
Qed.

Lemma handleOption_size_rejected arg v lc s :
  stoul arg = Converted v ->
  isPOT (size_t v) = false ->
  handleOption "s" arg lc s =
    (Exits 0,
     mk_State (set_g_output_size (size_t v) (globals s))
       (trace s ++ [Stderr OutputSizeNotPowerOfTwo]) (store s) (made s)).
Proof.
  intros C P. unfold handleOption. rewrite C.
  unfold bind, modify, emit, exit. cbn. rewrite P. reflexivity.
Qed.

(** C10. The four refusals of an input and their exit statuses, as the run
    of [main] ends: a [--size] that is not a power of two, and an aspect
    ratio that is not supported, exit with status 0; an image that cannot
    be decoded, and one whose channel count is not 3, exit with status 1. *)
Theorem exit_statuses :
  (forall before arg after args v lc s0 s,
     optionLoop before initial_locals s0 = (Returns lc, s) ->
     stoul arg = Converted v ->
     isPOT (size_t v) = false ->
     main (before ++ ("s"%char, Some arg) :: after) args s0 =
       (Exits 0,
        mk_State (set_g_output_size (size_t v) (globals s))
          (trace s ++ [Stderr OutputSizeNotPowerOfTwo]) (store s) (made s))) /\
  (forall opts iname rest s0 s,
     prologue opts iname s0 = (Returns tt, s) ->
     exists_on_disk iname = true ->
     isValid (decode iname) = true ->
     getChannels (decode iname) = 3 ->
     layoutOf (size_t (getWidth (decode iname))) (size_t (getHeight (decode iname)))
       = None ->
     main opts (iname :: rest) s0 =
       (Exits 0,
        mk_State (globals s)
          (trace s ++ greeting (globals s) "Decoding image..."
             ++ [Ran (ImageDecoder_decode iname); Ran CubemapUtils_clamp;
                 Stderr (AspectRatioNotSupported
                           (size_t (getWidth (decode iname)))
                           (size_t (getHeight (decode iname))))])
          (store s ++ [Clamp (Decoded iname)]) (made s))) /\
  (forall opts iname rest s0 s,
     prologue opts iname s0 = (Returns tt, s) ->
     exists_on_disk iname = true ->
     isValid (decode iname) = false ->
     main opts (iname :: rest) s0 =
       (Exits 1,
        mk_State (globals s)
          (trace s ++ greeting (globals s) "Decoding image..."
             ++ [Ran (ImageDecoder_decode iname); Stderr (UnableToOpenImage iname)])
          (store s) (made s))) /\
  (forall opts iname rest s0 s,
     prologue opts iname s0 = (Returns tt, s) ->
     exists_on_disk iname = true ->
     isValid (decode iname) = true ->
     getChannels (decode iname) <> 3 ->
     main opts (iname :: rest) s0 =
       (Exits 1,
        mk_State (globals s)
          (trace s ++ greeting (globals s) "Decoding image..."
             ++ [Ran (ImageDecoder_decode iname);
                 Stderr (InputImageMustBeRGB (getChannels (decode iname)))])
          (store s) (made s))).
Proof.
  repeat split.
  - intros before arg after args v lc s0 s B C P.
    apply (main_exits_at_option before "s"%char (Some arg) after args lc s0 s _ _ B).
    apply handleOption_size_rejected; assumption.
  - intros opts iname rest s0 s P X V C L.
    apply (main_exits_at_input _ _ _ _ _ _ _ P).
    unfold loadInput. rewrite X.
    apply loadImage_rejected; auto.
  - intros opts iname rest s0 s P X V.
    apply (main_exits_at_input _ _ _ _ _ _ _ P).
    unfold loadInput. rewrite X.
    apply loadImage_undecodable; assumption.
  - intros opts iname rest s0 s P X V C.
    apply (main_exits_at_input _ _ _ _ _ _ _ P).
    unfold loadInput. rewrite X.
    apply loadImage_not_rgb; assumption.
Qed.

End Prologue.


(** A small file system: a panorama of the wrong shape, a grey-scale image,
    and a file that does not decode. *)
Definition samples : list (string * LinearImage) :=
  [("wide.hdr", mk_LinearImage true 3 500 256);
   ("grey.png", mk_LinearImage true 1 512 256);
   ("torn.hdr", mk_LinearImage false 0 0 0)].

Lemma exit_statuses_witness :
  @main (Plain.collaborators samples) [("s"%char, Some "300")] ["wide.hdr"] initial_state
    = (Exits 0,
       mk_State (set_g_output_size 300 initial_globals)
         [Stderr OutputSizeNotPowerOfTwo] [] []) /\
  @main (Plain.collaborators samples) [] ["wide.hdr"] initial_state
    = (Exits 0,
       mk_State initial_globals
         [Stdout "Decoding image..."; Ran (ImageDecoder_decode "wide.hdr");
          Ran CubemapUtils_clamp; Stderr (AspectRatioNotSupported 500 256)]
         [Clamp (Decoded "wide.hdr")] []) /\
  @main (Plain.collaborators samples) [] ["torn.hdr"] initial_state
    = (Exits 1,
       mk_State initial_globals
         [Stdout "Decoding image..."; Ran (ImageDecoder_decode "torn.hdr");
          Stderr (UnableToOpenImage "torn.hdr")] [] []) /\
  @main (Plain.collaborators samples) [] ["grey.png"] initial_state
    = (Exits 1,
       mk_State initial_globals
         [Stdout "Decoding image..."; Ran (ImageDecoder_decode "grey.png");
          Stderr (InputImageMustBeRGB 1)] [] []).
Proof.
  destruct (@exit_statuses (Plain.collaborators samples)) as [A [B [C D]]].
  split; [| split; [| split]].
  - apply (A [] "300" [] ["wide.hdr"] 300 initial_locals initial_state initial_state);
      reflexivity.
  - apply (B [] "wide.hdr" [] initial_state initial_state); reflexivity.
  - apply (C [] "torn.hdr" [] initial_state initial_state); reflexivity.
  - apply (D [] "grey.png" [] initial_state initial_state);
      try reflexivity; discriminate.
Defined.

(** ** Mirroring *)

(** [keeps f c]: whatever [c] does, the value [f] of the statics is the
    same after it as before. *)
Definition keeps {A X} (f : Globals -> X) (c : M A) : Prop :=
  forall s, f (globals (snd (c s))) = f (globals s).

Lemma keeps_globals {A X} (f : Globals -> X) (c : M A) :
  (forall s, globals (snd (c s)) = globals s) -> keeps f c.
Proof. intros H s. now rewrite H. Qed.

Lemma keeps_ret {A X} (f : Globals -> X) (a : A) : keeps f (ret a).
Proof. apply keeps_globals; reflexivity. Qed.

Lemma keeps_exit {A X} (f : Globals -> X) n : keeps f (@exit A n).
Proof. apply keeps_globals; reflexivity. Qed.

Lemma keeps_terminate {A X} (f : Globals -> X) : keeps f (@terminate A).
Proof. apply keeps_globals; reflexivity. Qed.

Lemma keeps_undefined {A X} (f : Globals -> X) : keeps f (@undefined A).
Proof. apply keeps_globals; reflexivity. Qed.

Lemma keeps_get {X} (f : Globals -> X) : keeps f get.
Proof. apply keeps_globals; reflexivity. Qed.

Lemma keeps_emit {X} (f : Globals -> X) e : keeps f (emit e).
Proof. apply keeps_globals; reflexivity. Qed.

Lemma keeps_allocate {X} (f : Globals -> X) t : keeps f (allocate t).
Proof. apply keeps_globals; reflexivity. Qed.

Lemma keeps_load {X} (f : Globals -> X) n : keeps f (load n).
Proof. apply keeps_globals; reflexivity. Qed.

Lemma keeps_overwrite {X} (f : Globals -> X) n h : keeps f (overwrite n h).
Proof. apply keeps_globals; reflexivity. Qed.

Lemma keeps_modify {X} (f : Globals -> X) h :
  (forall gl, f (h gl) = f gl) -> keeps f (modify h).
Proof. intros H s. apply H. Qed.

Lemma keeps_bind {A B X} (f : Globals -> X) (c : M A) (k : A -> M B) :
  keeps f c -> (forall a, keeps f (k a)) -> keeps f (bind c k).
Proof.
  intros Hc Hk s. unfold bind. specialize (Hc s).
  destruct (c s) as [[a | n | | ] s1]; simpl in *; try assumption.
  now rewrite Hk.
Qed.

Lemma keeps_when {X} (f : Globals -> X) c k : keeps f k -> keeps f (when c k).
Proof. destruct c; simpl; [trivial | intros; apply keeps_ret]. Qed.

Lemma keeps_say {X} (f : Globals -> X) line : keeps f (say line).
Proof.
  unfold say. apply keeps_bind; [apply keeps_get | intros gl].
  apply keeps_when, keeps_emit.
Qed.

Ltac keeps_step :=
  match goal with
  | |- keeps _ (bind _ _) => apply keeps_bind; [| intros ?]
  | |- keeps _ (ret _) => apply keeps_ret
  | |- keeps _ (exit _) => apply keeps_exit
  | |- keeps _ terminate => apply keeps_terminate
  | |- keeps _ undefined => apply keeps_undefined
  | |- keeps _ get => apply keeps_get
  | |- keeps _ (emit _) => apply keeps_emit
  | |- keeps _ (say _) => apply keeps_say
  | |- keeps _ (allocate _) => apply keeps_allocate
  | |- keeps _ (load _) => apply keeps_load
  | |- keeps _ (overwrite _ _) => apply keeps_overwrite
  | |- keeps _ (modify _) => apply keeps_modify; intros ?; reflexivity
  | |- keeps _ (when _ _) => apply keeps_when
  | |- keeps _ (match ?x with _ => _ end) => destruct x
  | |- keeps _ _ => assumption
  end.

Ltac keeps_auto := repeat keeps_step.

Lemma keeps_run {A X} (f : Globals -> X) (c : M A) s o s' :
  c s = (o, s') -> keeps f c -> f (globals s') = f (globals s).
Proof. intros R K. specialize (K s). now rewrite R in K. Qed.

(** If a sequence returns, its first part returned. *)
Lemma bind_returns {A B} (c : M A) (k : A -> M B) s b s' :
  bind c k s = (Returns b, s') ->
  exists a s1, c s = (Returns a, s1) /\ k a s1 = (Returns b, s').
Proof.
  unfold bind. destruct (c s) as [[a | n | | ] s1]; try discriminate.
  intros H. now exists a, s1.
Qed.

Section Mirror.
Context {collaborators : Collaborators}.

(** [--no-mirror] as [getopt_long] returns it. *)
Definition isNoMirror (o : ascii * option string) : bool := Ascii.eqb (fst o) "m".

Lemma handleOption_keeps_g_mirror opt arg lc :
  opt <> "m"%char -> keeps g_mirror (handleOption opt arg lc).
Proof.
  intros N. unfold handleOption, if_then.
  keeps_auto; elim N; reflexivity.
Qed.

Lemma handleOption_g_mirror opt arg lc s :
  g_mirror (globals (snd (handleOption opt arg lc s)))
    = g_mirror (globals s) || Ascii.eqb opt "m".
Proof.
  destruct (Ascii.eqb_spec opt "m") as [-> | N].
  - cbn. now rewrite orb_true_r.
  - rewrite orb_false_r. now apply handleOption_keeps_g_mirror.
Qed.

Lemma optionLoop_g_mirror opts : forall lc s lc' s',
  optionLoop opts lc s = (Returns lc', s') ->
  g_mirror (globals s') = g_mirror (globals s) || existsb isNoMirror opts.
Proof.
  induction opts as [| [opt optarg] rest IH]; intros lc s lc' s' R.
  - injection R as _ <-. now rewrite orb_false_r.
  - simpl in R. apply bind_returns in R as [lc1 [s1 [H R]]].
    rewrite (IH _ _ _ _ R). simpl existsb. unfold isNoMirror at 1. simpl fst.
    rewrite orb_assoc. f_equal.
    pose proof (handleOption_g_mirror opt
                  (match optarg with Some a => a | None => "" end) lc s) as G.
    rewrite H in G. exact G.
Qed.

Lemma prologue_g_mirror opts iname s0 s :
  prologue opts iname s0 = (Returns tt, s) ->
  g_mirror (globals s) = g_mirror (globals s0) || existsb isNoMirror opts.
Proof.
  intros P. unfold prologue, handleCommandLineArgments in P.
  apply bind_returns in P as [[] [s1 [H P]]].
  apply bind_returns in H as [lc [sa [L H]]].
  rewrite <- (optionLoop_g_mirror _ _ _ _ _ L).
  apply keeps_run with (f := g_mirror) in H; [| keeps_auto].
  apply keeps_run with (f := g_mirror) in P; [congruence |].
  unfold iblLutDfg, saveImage, ensureDirectory, exists_now, deploySettings.
  keeps_auto; try (apply keeps_globals; reflexivity).
Qed.


(** Whatever the input, [loadInput] hands back one raster and one cubemap,
    the cubemap viewing the newest raster of the store. *)
Lemma loadInput_returns iname s images levels s1 :
  loadInput iname s = (Returns (images, levels), s1) ->
  exists front t,
    store s1 = front ++ [t] /\
    images = [mk_Image (Some (List.length front))] /\
    levels = [mk_Cubemap (outputSizeOr (globals s) IBL_DEFAULT_SIZE) (List.length front)] /\
    globals s1 = globals s.
Proof.
  destruct (exists_on_disk iname) eqn:X.
  - unfold loadInput. rewrite X.
    destruct (isValid (decode iname)) eqn:V;
      [| rewrite loadImage_undecodable by assumption; discriminate].
    destruct (Z.eq_dec (getChannels (decode iname)) 3) as [C | C];
      [| rewrite loadImage_not_rgb by assumption; discriminate].
    destruct (layoutOf (size_t (getWidth (decode iname)))
                (size_t (getHeight (decode iname)))) as [l |] eqn:L.
    + rewrite (loadImage_accepted iname _ _ l s V C eq_refl eq_refl L).
      intros [= <- <- <-].
      exists (store s ++ [Clamp (Decoded iname)]),
             (convert l (Clamp (Decoded iname))).
      rewrite <- app_assoc, length_app, Nat.add_1_r. repeat split.
    + rewrite (loadImage_rejected iname _ _ s V C eq_refl eq_refl L). discriminate.
  - destruct (generateSynthetic_cases iname s X) as [A [B [C [D E]]]].
    destruct (sscanf_u (getNameWithoutExtension iname) "uv") as [p |] eqn:S1;
      [specialize (A p eq_refl); unfold generates in A; rewrite A |
       destruct (sscanf_u (getNameWithoutExtension iname) "u") as [p |] eqn:S2;
       [specialize (B p eq_refl eq_refl); unfold generates in B; rewrite B |
        destruct (sscanf_u (getNameWithoutExtension iname) "v") as [p |] eqn:S3;
        [specialize (C p eq_refl eq_refl eq_refl); unfold generates in C; rewrite C |
         destruct (sscanf_u (getNameWithoutExtension iname) "brdf") as [p |] eqn:S4;
         [specialize (D p eq_refl eq_refl eq_refl eq_refl); unfold generates in D;
          rewrite D |
          specialize (E eq_refl eq_refl eq_refl eq_refl); unfold generates in E;
          rewrite E]]]];
      intros [= <- <- <-]; eexists; eexists; repeat split.
Qed.

Lemma nth_app_default {A} (l : list A) d n : nth n (l ++ [d]) d = nth n l d.
Proof.
  revert n. induction l as [| a l IH]; intros [| n]; simpl; try reflexivity.
  - now destruct n.
  - apply IH.
Qed.

(** The mirror step proper: [g_mirror] was false, so it is set and level 0
    is swapped for its mirror image in a new raster. *)
Lemma mirrorStage_mirrors image level0 s :
  g_mirror (globals s) = false ->
  mirrorStage [image] [level0] s =
    (Returns ([mk_Image (Some (List.length (store s)))],
              [mk_Cubemap (getDimensions level0) (List.length (store s))]),
     mk_State (set_g_mirror true (globals s))
       (trace s ++ greeting (globals s) "Mirroring..."
          ++ [Ran (CubemapUtils_mirrorCubemap (getDimensions level0))])
       (store s ++ [MirrorCubemap (texelsOf s (backing level0))])
       (made s)).
Proof.
  intros G. destruct s as [gl tr st md]. simpl in G.
  unfold mirrorStage, say, greeting, bind, get, modify, when, emit, create, allocate,
    load, overwrite, ret, texelsOf.
  cbn. rewrite G. cbn.
  destruct (g_quiet gl); cbn; rewrite ?app_nil_r, <- ?app_assoc; cbn;
    store_norm; rewrite nth_app_default; reflexivity.
Qed.

(** With [--no-mirror], [g_mirror] was true: it is cleared and level 0 stays. *)
Lemma mirrorStage_skips images levels s :
  g_mirror (globals s) = true ->
  mirrorStage images levels s =
    (Returns (images, levels),
     mk_State (set_g_mirror false (globals s))
       (trace s ++ greeting (globals s) "Skipped mirroring.")
       (store s) (made s)).
Proof.
  intros G. destruct s as [gl tr st md]. simpl in G.
  unfold mirrorStage, say, greeting, bind, get, modify, when, emit, ret.
  cbn. rewrite G. cbn.
  destruct (g_quiet gl); cbn; rewrite ?app_nil_r; reflexivity.
Qed.

(** The events of [generateMipmaps]. *)
Definition isMipEvent (e : Event) : bool :=
  match e with
  | Ran (CubemapUtils_downsampleCubemapLevelBoxFilter _ _)
  | Ran (Cubemap_makeSeamless _) => true
  | _ => false
  end.

Lemma mipStep_state dim mipLevel levels images src s :
  nth_error levels mipLevel = Some src ->
  mipStep dim mipLevel levels images s =
    (Returns (levels ++ [mk_Cubemap dim (List.length (store s))],
              images ++ [mk_Image (Some (List.length (store s)))]),
     mk_State (globals s)
       (trace s ++
          [Ran (CubemapUtils_downsampleCubemapLevelBoxFilter dim (getDimensions src));
           Ran (Cubemap_makeSeamless dim)])
       (store s ++
          [MakeSeamless (DownsampleCubemapLevelBoxFilter (texelsOf s (backing src)))])
       (made s)).
Proof.
  intros H. destruct s as [gl tr st md].
  unfold mipStep, downsampleCubemapLevelBoxFilter, makeSeamless, bind, create, allocate,
    load, overwrite, emit, ret, texelsOf.
  cbn. rewrite H. cbn. store_norm. rewrite nth_app_default, <- app_assoc. reflexivity.
Qed.

(** The loop always comes back, for any edge length; it only adds rasters
    and only emits its own events. *)
Lemma mipLoop_returns dim : forall mipLevel levels images s,
  List.length levels = S mipLevel ->
  exists added owned s',
    mipLoop dim mipLevel levels images s =
      (Returns (levels ++ added, images ++ owned), s') /\
    globals s' = globals s /\
    (exists new, store s' = store s ++ new) /\
    (exists evs, trace s' = trace s ++ evs /\ forallb isMipEvent evs = true).
Proof.
  induction dim as [half IH | half IH |]; intros m levels images s L.
  3: { exists [], [], s. simpl. rewrite !app_nil_r.
       repeat split; exists []; rewrite app_nil_r; [| split]; reflexivity. }
  all: destruct (nth_error levels m) as [src |] eqn:E;
    [| apply nth_error_None in E; lia];
    pose proof (mipStep_state (Zpos half) m levels images src s E) as R;
    match type of R with
    | _ = (Returns (?l1, ?i1), ?s1) =>
        destruct (IH (S m) l1 i1 s1) as [added [owned [s2 [R2 [G [[new N] [evs [T F]]]]]]]];
          [rewrite length_app, L; simpl; lia |]
    end;
    eexists (_ :: added), (_ :: owned), s2;
    (split; [simpl mipLoop; unfold bind at 1; rewrite R, R2, <- !app_assoc; reflexivity |]);
    split; [exact G |];
    split; [eexists; rewrite N; cbn [store]; rewrite <- app_assoc; reflexivity |];
    eexists; split; [rewrite T; cbn [trace]; rewrite <- app_assoc; reflexivity |];
    simpl; exact F.
Qed.


Lemma generateMipmaps_returns base images s :
  exists added owned s',
    generateMipmaps [base] images s = (Returns (base :: added, images ++ owned), s') /\
    globals s' = globals s /\
    (exists new, store s' = store s ++ new) /\
    (exists evs, trace s' = trace s ++ evs /\ forallb isMipEvent evs = true).
Proof.
  unfold generateMipmaps.
  destruct (getDimensions base) as [| dim | dim];
    try (exists [], [], s; rewrite app_nil_r;
         repeat split; exists []; rewrite app_nil_r; [| split]; reflexivity).
  apply (mipLoop_returns dim 0%nat [base] images s eq_refl).
Qed.

Lemma makeSeamless_run cm s :
  makeSeamless cm s =
    (Returns tt,
     mk_State (globals s) (trace s ++ [Ran (Cubemap_makeSeamless (getDimensions cm))])
       (replace_nth (backing cm) (MakeSeamless (texelsOf s (backing cm))) (store s))
       (made s)).
Proof. reflexivity. Qed.

(** C9. Once the options are handled and the input has given level 0:
    without [--no-mirror], level 0 is replaced by a new cubemap of the same
    edge holding its mirror image, and the mirroring runs before the seam
    fix-up and the mip generation; with [--no-mirror] nothing is mirrored
    and level 0 itself is fixed up. Either way [main] goes on to the stages
    with that chain. *)
Theorem mirror_by_default opts iname rest s images levels s1 :
  prologue opts iname initial_state = (Returns tt, s) ->
  loadInput iname s = (Returns (images, levels), s1) ->
  exists level0 images' chain s2 evs,
    levels = [level0] /\
    buildLevels iname s = (Returns (images', chain), s2) /\
    main opts (iname :: rest) initial_state
      = (runStages iname images' chain ;; ret 0) s2 /\
    forallb isMipEvent evs = true /\
    let dim := getDimensions level0 in
    let base := texelsOf s1 (backing level0) in
    if existsb isNoMirror opts then
      hd_error chain = Some level0 /\
      texelsOf s2 (backing level0) = MakeSeamless base /\
      trace s2 = trace s1 ++ greeting (globals s) "Skipped mirroring."
                   ++ Ran (Cubemap_makeSeamless dim) :: evs
    else
      exists mirrored,
        hd_error chain = Some mirrored /\
        getDimensions mirrored = dim /\
        texelsOf s2 (backing mirrored) = MakeSeamless (MirrorCubemap base) /\
        trace s2 = trace s1 ++ greeting (globals s) "Mirroring..."
                     ++ Ran (CubemapUtils_mirrorCubemap dim)
                     :: Ran (Cubemap_makeSeamless dim) :: evs.
Proof.
  intros P L.
  pose proof (prologue_g_mirror _ _ _ _ P) as G. simpl in G.
  destruct (loadInput_returns _ _ _ _ _ L) as [front [t [St [-> [-> Gl]]]]].
  set (level0 := mk_Cubemap (outputSizeOr (globals s) IBL_DEFAULT_SIZE) (List.length front)).
  rewrite <- Gl in G.
  assert (B : texelsOf s1 (backing level0) = t)
    by (unfold texelsOf; rewrite St; apply nth_length).
  destruct (existsb isNoMirror opts) eqn:Flag.
  - (* --no-mirror *)
    pose proof (mirrorStage_skips [mk_Image (Some (List.length front))] [level0] s1 G) as M.
    match type of M with _ = (_, ?sm) => set (s1' := sm) in * end.
    pose proof (makeSeamless_run level0 s1') as K.
    match type of K with _ = (_, ?sk) => set (s1'' := sk) in * end.
    destruct (generateMipmaps_returns level0 [mk_Image (Some (List.length front))] s1'')
      as [added [owned [s2 [R [_ [[new N] [evs [T F]]]]]]]].
    assert (BL : buildLevels iname s
                 = (Returns ([mk_Image (Some (List.length front))] ++ owned,
                             level0 :: added), s2)).
    { unfold buildLevels. unfold bind at 1. rewrite L.
      unfold bind at 1. fold level0. rewrite M.
      unfold bind at 1. rewrite K. unfold bind at 1. rewrite R. reflexivity. }
    exists level0, ([mk_Image (Some (List.length front))] ++ owned),
      (level0 :: added), s2, evs.
    split; [reflexivity |]. split; [exact BL |].
    split; [rewrite (main_at_input _ _ _ _ _ P); unfold bind at 1; now rewrite BL |].
    split; [exact F |]. cbn zeta. rewrite B.
    split; [reflexivity |]. split.
    + unfold texelsOf. rewrite N. subst s1'' s1'. cbn [store backing level0].
      unfold texelsOf. cbn [store]. rewrite St. store_norm. reflexivity.
    + rewrite T. subst s1'' s1'. cbn [trace getDimensions level0].
      rewrite Gl, <- !app_assoc. reflexivity.
  - (* the default *)
    pose proof (mirrorStage_mirrors (mk_Image (Some (List.length front))) level0 s1 G) as M.
    set (mirrored := mk_Cubemap (getDimensions level0) (List.length (store s1))) in *.
    match type of M with _ = (_, ?sm) => set (s1' := sm) in * end.
    pose proof (makeSeamless_run mirrored s1') as K.
    match type of K with _ = (_, ?sk) => set (s1'' := sk) in * end.
    destruct (generateMipmaps_returns mirrored [mk_Image (Some (List.length (store s1)))] s1'')
      as [added [owned [s2 [R [_ [[new N] [evs [T F]]]]]]]].
    assert (BL : buildLevels iname s
                 = (Returns ([mk_Image (Some (List.length (store s1)))] ++ owned,
                             mirrored :: added), s2)).
    { unfold buildLevels. unfold bind at 1. rewrite L.
      unfold bind at 1. fold level0. rewrite M.
      unfold bind at 1. rewrite K. unfold bind at 1. rewrite R. reflexivity. }
    exists level0, ([mk_Image (Some (List.length (store s1)))] ++ owned),
      (mirrored :: added), s2, evs.
    split; [reflexivity |]. split; [exact BL |].
    split; [rewrite (main_at_input _ _ _ _ _ P); unfold bind at 1; now rewrite BL |].
    split; [exact F |]. cbn zeta. rewrite B.
    exists mirrored. split; [reflexivity |]. split; [reflexivity |]. split.
    + unfold texelsOf. rewrite N. subst s1'' s1' mirrored. cbn [store backing].
      unfold texelsOf. cbn [store]. store_norm.
      unfold texelsOf in B. rewrite B. reflexivity.
    + rewrite T. subst s1'' s1' mirrored. cbn [trace getDimensions level0].
      rewrite Gl, <- !app_assoc. reflexivity.
Qed.

End Mirror.



(** The state in which the plain driver, given no option, has generated the
    fallback grid for the missing input "sky". *)
Definition sky_loaded : State :=
  mk_State initial_globals
    [StdoutMissing "sky"; Ran (CubemapUtils_generateUVGrid 256 1 1)]
    [GenerateUVGrid 1 1] [].

Lemma mirror_by_default_witness :
  exists level0 images' chain s2 evs,
    [mk_Cubemap 256 0] = [level0] /\
    @buildLevels (Plain.collaborators []) "sky" initial_state
      = (Returns (images', chain), s2) /\
    @main (Plain.collaborators []) [] ["sky"] initial_state
      = (@runStages (Plain.collaborators []) "sky" images' chain ;; ret 0) s2 /\
    forallb isMipEvent evs = true /\
    let dim := getDimensions level0 in
    let base := texelsOf sky_loaded (backing level0) in
    if existsb isNoMirror [] then
      hd_error chain = Some level0 /\
      texelsOf s2 (backing level0) = MakeSeamless base /\
      trace s2 = trace sky_loaded ++ greeting initial_globals "Skipped mirroring."
                   ++ Ran (Cubemap_makeSeamless dim) :: evs
    else
      exists mirrored,
        hd_error chain = Some mirrored /\
        getDimensions mirrored = dim /\
        texelsOf s2 (backing mirrored) = MakeSeamless (MirrorCubemap base) /\
        trace s2 = trace sky_loaded ++ greeting initial_globals "Mirroring..."
                     ++ Ran (CubemapUtils_mirrorCubemap dim)
                     :: Ran (Cubemap_makeSeamless dim) :: evs.
Proof.
  apply (@mirror_by_default (Plain.collaborators []) [] "sky" [] initial_state
           [mk_Image (Some 0%nat)] [mk_Cubemap 256 0] sky_loaded);
    reflexivity.
Defined.

Example no_mirror_run :
  map (fun e => match e with Ran c => [c] | _ => [] end)
      (trace (snd (@main (Plain.collaborators [])
                     [("m"%char, None); ("s"%char, Some "2")] ["sky"] initial_state)))
    = [[]; [CubemapUtils_generateUVGrid 2 1 1]; []; [Cubemap_makeSeamless 2];
       [CubemapUtils_downsampleCubemapLevelBoxFilter 1 2]; [Cubemap_makeSeamless 1]].
Proof. reflexivity. Qed.

Example mirror_run :
  map (fun e => match e with Ran c => [c] | _ => [] end)
      (trace (snd (@main (Plain.collaborators [])
                     [("s"%char, Some "2")] ["sky"] initial_state)))
    = [[]; [CubemapUtils_generateUVGrid 2 1 1]; []; [CubemapUtils_mirrorCubemap 2];
       [Cubemap_makeSeamless 2];
       [CubemapUtils_downsampleCubemapLevelBoxFilter 1 2]; [Cubemap_makeSeamless 1]].
Proof. reflexivity. Qed.

(** ** Roughness prefiltering *)

(** [leaves f c]: whatever [c] does, the view [f] of the state is the same
    after it as before. *)
Definition leaves {A X} (f : State -> X) (c : M A) : Prop :=
  forall s, f (snd (c s)) = f s.

Lemma leaves_bind {A B X} (f : State -> X) (c : M A) (k : A -> M B) :
  leaves f c -> (forall a, leaves f (k a)) -> leaves f (bind c k).
Proof.
  intros Hc Hk s. unfold bind. specialize (Hc s).
  destruct (c s) as [[a | n | | ] s1]; simpl in *; try assumption.
  now rewrite Hk.
Qed.

Lemma leaves_when {X} (f : State -> X) c k : leaves f k -> leaves f (when c k).
Proof. destruct c; simpl; [trivial | intros H s; reflexivity]. Qed.

Lemma leaves_forEach {A X} (f : State -> X) (l : list A) body :
  (forall a, leaves f (body a)) -> leaves f (forEach l body).
Proof.
  intros H. induction l as [| a l IH]; simpl.
  - intros s. reflexivity.
  - apply leaves_bind; [apply H | intros; exact IH].
Qed.

(** The primitive steps that leave the store alone. *)
Ltac leaves_store_step :=
  match goal with
  | |- leaves store (bind _ _) => apply leaves_bind; [| intros ?]
  | |- leaves store (when _ _) => apply leaves_when
  | |- leaves store (forEach _ _) => apply leaves_forEach; intros ?
  | |- leaves store (match ?x with _ => _ end) => destruct x
  | |- leaves store (ret _) => intros ?; reflexivity
  | |- leaves store (exit _) => intros ?; reflexivity
  | |- leaves store get => intros ?; reflexivity
  | |- leaves store (emit _) => intros ?; reflexivity
  | |- leaves store (load _) => intros ?; reflexivity
  | |- leaves store (modify _) => intros ?; reflexivity
  | |- leaves store undefined => intros ?; reflexivity
  | |- leaves store _ => assumption
  end.

Ltac leaves_store := repeat leaves_store_step.

(** The arguments of one call of [CubemapIBL::roughnessFilter]. *)
Record FilterCall := mk_FilterCall
  { call_dim : Z; call_roughness : double; call_samples : Z }.

(** The roughness-filter calls among some events, in order. *)
Definition filterCalls (evs : list Event) : list FilterCall :=
  flat_map (fun e => match e with
                     | Ran (CubemapIBL_roughnessFilter dim lr n) => [mk_FilterCall dim lr n]
                     | _ => []
                     end) evs.

Definition notFilterCall (e : Event) : bool :=
  match e with
  | Ran (CubemapIBL_roughnessFilter _ _ _) => false
  | _ => true
  end.

Lemma filterCalls_app a b : filterCalls (a ++ b) = filterCalls a ++ filterCalls b.
Proof. apply flat_map_app. Qed.

Lemma filterCalls_none evs : forallb notFilterCall evs = true -> filterCalls evs = [].
Proof.
  induction evs as [| e evs IH]; [reflexivity |]. simpl.
  intros H. apply andb_prop in H as [N F]. rewrite (IH F), app_nil_r.
  destruct e; try reflexivity. destruct c; try reflexivity. discriminate.
Qed.

Lemma ctz_pos_bound p : 0 <= ctz_pos p /\ 2 ^ ctz_pos p <= Zpos p.
Proof.
  induction p as [q IH | q IH |]; cbn [ctz_pos]; try (split; [lia | simpl; lia]).
  destruct IH as [N B]. split; [lia |].
  rewrite Z.pow_add_r, Z.pow_1_r by lia. lia.
Qed.

(** [__builtin_ctz] of a 32-bit value is between 0 and 31. *)
Lemma builtin_ctz_range x e : builtin_ctz x = Some e -> 0 <= e <= 31.
Proof.
  unfold builtin_ctz. assert (B : 0 <= unsigned x < 2 ^ 32)
    by (apply Z.mod_pos_bound; reflexivity).
  destruct (unsigned x) as [| p | p]; try discriminate.
  intros [= <-]. destruct (ctz_pos_bound p) as [N P]. split; [exact N |].
  assert (ctz_pos p < 32); [| lia].
  apply (Z.pow_lt_mono_r_iff 2); lia.
Qed.

Section Prefilter.
Context {collaborators : Collaborators}.

Lemma loadAll_run levels s :
  loadAll levels s = (Returns (map (fun cm => texelsOf s (backing cm)) levels), s).
Proof.
  induction levels as [| cm t IH]; [reflexivity |].
  simpl. unfold bind, load, ret. now rewrite IH.
Qed.

Lemma leaves_store_exportKtxFaceLoop js compression miplevel cm :
  forall container, leaves store (exportKtxFaceLoop js compression miplevel cm container).
Proof.
  induction js as [| j js IH]; intros container; simpl.
  - intros s. reflexivity.
  - apply leaves_bind; [| intros; apply IH].
    unfold exportKtxFace, getImageForFace. leaves_store.
Qed.

Lemma emits_exportKtxFaceLoop js compression miplevel cm :
  forall container,
    emits notFilterCall (exportKtxFaceLoop js compression miplevel cm container).
Proof.
  induction js as [| j js IH]; intros container; simpl.
  - apply emits_ret.
  - apply emits_bind; [| intros; apply IH].
    unfold exportKtxFace, getImageForFace. emits_auto.
Qed.

Lemma leaves_store_prefilterOutput iname outputDir level image dst container :
  leaves store (prefilterOutput iname outputDir level image dst container).
Proof.
  unfold prefilterOutput, exportKtxFaces, saveImage, pixelsOf, cubemapToEquirectangular,
    cubemapToOctahedron, getImageForFace.
  leaves_store; apply leaves_store_exportKtxFaceLoop.
Qed.

Lemma emits_prefilterOutput iname outputDir level image dst container :
  emits notFilterCall (prefilterOutput iname outputDir level image dst container).
Proof.
  unfold prefilterOutput, exportKtxFaces, saveImage, pixelsOf, cubemapToEquirectangular,
    cubemapToOctahedron, getImageForFace.
  emits_auto; apply emits_exportKtxFaceLoop.
Qed.


(** The line printed for a level unless quiet. *)
Definition levelLine (gl : Globals) (level : Z) (linear_roughness : double)
    : list Event :=
  if g_quiet gl then [] else [StdoutLevel level linear_roughness].

(** The first half of a turn, computed: the level is filtered into a new
    raster and its seams fixed; then comes the output half. *)
Lemma prefilterLevel_filters iname outputDir levels baseExp numLevels i numSamples
    container s :
  let dim := unsigned (Z.shiftl 1 i) in
  let level := size_t (baseExp - i) in
  let n := samplesForLevel level numSamples in
  let lr := linearRoughnessOfLevel level numLevels in
  let ts := map (fun cm => texelsOf s (backing cm)) levels in
  prefilterLevel iname outputDir levels baseExp numLevels i numSamples container s =
    (container <- prefilterOutput iname outputDir level
                    (mk_Image (Some (List.length (store s))))
                    (mk_Cubemap dim (List.length (store s))) container ;;
     ret (n, container))
      (mk_State (globals s)
         (trace s ++ levelLine (globals s) level lr
            ++ [Ran (CubemapIBL_roughnessFilter dim lr n); Ran (Cubemap_makeSeamless dim)])
         (store s ++ [MakeSeamless (roughnessFilterTexels ts lr n)])
         (made s)).
Proof.
  intros dim level n lr ts. destruct s as [gl tr st md].
  unfold prefilterLevel. fold dim level. fold n. fold lr.
  unfold bind at 1. unfold get at 1. cbn [globals].
  unfold bind at 1.
  assert (T : forall tr', map (fun cm => texelsOf (mk_State gl tr' (st ++ [Uninitialized]) md)
                                      (backing cm)) levels = ts).
  { intros tr'. subst ts. apply map_ext. intros cm. unfold texelsOf. cbn [store].
    apply nth_app_default. }
  unfold levelLine. cbn [globals].
  destruct (g_quiet gl); cbn [negb when];
    [unfold ret at 1 | unfold emit at 1];
    cbn [globals trace store made];
    unfold bind at 1; unfold create at 1; unfold bind at 1, allocate at 1, ret at 1;
    cbn [globals trace store made];
    unfold bind at 1; unfold roughnessFilter at 1;
    unfold bind at 1; unfold emit at 1; cbn [globals trace store made getDimensions];
    unfold bind at 1; rewrite loadAll_run, T;
    unfold overwrite at 1; cbn [globals trace store made backing];
    unfold bind at 1; rewrite makeSeamless_run;
    cbn [globals trace store made backing getDimensions];
    unfold texelsOf at 1; cbn [store]; store_norm;
    rewrite ?app_nil_r, <- ?app_assoc; reflexivity.
Qed.

(** One turn: exactly one filter call, with the level's roughness and
    sample count, and exactly one new raster, the filtered level. *)
Lemma prefilterLevel_spec iname outputDir levels baseExp numLevels i numSamples
    container s :
  let dim := unsigned (Z.shiftl 1 i) in
  let level := size_t (baseExp - i) in
  let n := samplesForLevel level numSamples in
  let lr := linearRoughnessOfLevel level numLevels in
  let ts := map (fun cm => texelsOf s (backing cm)) levels in
  let r := prefilterLevel iname outputDir levels baseExp numLevels i numSamples
             container s in
  (exists evs, trace (snd r) = trace s ++ evs /\
               filterCalls evs = [mk_FilterCall dim lr n]) /\
  store (snd r) = store s ++ [MakeSeamless (roughnessFilterTexels ts lr n)] /\
  (forall n' container', fst r = Returns (n', container') -> n' = n).
Proof.
  intros dim level n lr ts r. subst r. rewrite prefilterLevel_filters.
  fold dim level. fold n. fold lr. fold ts.
  match goal with
  | |- context [bind ?c ?k ?s0] =>
      set (out := c); set (sh := s0);
      pose proof (emits_prefilterOutput iname outputDir level
                    (mk_Image (Some (List.length (store s))))
                    (mk_Cubemap dim (List.length (store s))) container sh) as [evs [T F]];
      pose proof (leaves_store_prefilterOutput iname outputDir level
                    (mk_Image (Some (List.length (store s))))
                    (mk_Cubemap dim (List.length (store s))) container sh) as S
  end.
  fold out in T, S. unfold bind.
  destruct (out sh) as [[c' | st' | | ] s']; cbn [fst snd ret] in *;
    (split; [| split]);
    try (eexists; split;
         [rewrite T; subst sh; cbn [trace]; rewrite <- !app_assoc; reflexivity |
          rewrite !filterCalls_app, (filterCalls_none _ F), app_nil_r;
          unfold levelLine; destruct (g_quiet (globals s)); reflexivity]);
    try (rewrite S; reflexivity);
    try discriminate.
  intros n' container' [= <- _]. reflexivity.
Qed.


(** The filter calls of [turns] turns of the loop, as the loop makes them. *)
Fixpoint scheduleFrom (turns : nat) (baseExp numLevels numSamples : Z)
    : list FilterCall :=
  match turns with
  | O => []
  | S i =>
      let level := size_t (baseExp - Z.of_nat i) in
      let n := samplesForLevel level numSamples in
      mk_FilterCall (unsigned (Z.shiftl 1 (Z.of_nat i)))
        (linearRoughnessOfLevel level numLevels) n
        :: scheduleFrom i baseExp numLevels n
  end.

(** The loop makes a prefix of its schedule (all of it when it comes back)
    and only adds rasters. *)
Lemma prefilterLoop_schedule iname outputDir levels baseExp numLevels turns :
  forall numSamples container s,
    let r := prefilterLoop turns iname outputDir levels baseExp numLevels numSamples
               container s in
    exists done evs more,
      trace (snd r) = trace s ++ evs /\
      filterCalls evs = firstn done (scheduleFrom turns baseExp numLevels numSamples) /\
      store (snd r) = store s ++ more /\
      (forall c, fst r = Returns c -> done = turns).
Proof.
  induction turns as [| i IH]; intros numSamples container s r; subst r.
  - exists 0%nat, [], []. simpl. rewrite !app_nil_r. repeat split.
  - destruct (prefilterLevel_spec iname outputDir levels baseExp numLevels (Z.of_nat i)
                numSamples container s) as [[evs1 [T1 F1]] [S1 N1]].
    simpl prefilterLoop. unfold bind.
    destruct (prefilterLevel _ _ _ _ _ _ _ _ s) as [[[n' c'] | st | | ] s1];
      cbn [fst snd] in *.
    + rewrite (N1 n' c' eq_refl).
      destruct (IH (samplesForLevel (size_t (baseExp - Z.of_nat i)) numSamples) c' s1)
        as [done [evs [more [T [F [St R]]]]]].
      match type of S1 with
      | _ = _ ++ [?x] => exists (S done), (evs1 ++ evs), (x :: more)
      end.
      rewrite T, T1, St, S1, filterCalls_app, F1, F, <- !app_assoc.
      repeat split. intros c H. f_equal. exact (R c H).
    + match type of S1 with _ = _ ++ ?x => exists 1%nat, evs1, x end.
      rewrite T1, F1, S1. repeat split. discriminate.
    + match type of S1 with _ = _ ++ ?x => exists 1%nat, evs1, x end.
      rewrite T1, F1, S1. repeat split. discriminate.
    + match type of S1 with _ = _ ++ ?x => exists 1%nat, evs1, x end.
      rewrite T1, F1, S1. repeat split. discriminate.
Qed.

Lemma ensureDirectory_run dir s :
  exists evs made',
    ensureDirectory dir s = (Returns tt, mk_State (globals s) (trace s ++ evs) (store s) made')
    /\ forallb notFilterCall evs = true.
Proof.
  unfold ensureDirectory, exists_now, bind, when, emit.
  destruct (exists_on_disk dir || existsb (String.eqb dir) (made s)); cbn.
  - exists [], (made s). rewrite app_nil_r. destruct s; split; reflexivity.
  - exists [Mkdir dir], (dir :: made s). split; reflexivity.
Qed.

(** The whole stage: at least the first level is filtered, with roughness
    and sample count as scheduled, into the first raster the stage adds. *)
Lemma iblRoughnessPrefilter_schedule iname levels dir s baseExp o s' :
  builtin_ctz (outputSizeOr (globals s) IBL_DEFAULT_SIZE) = Some baseExp ->
  iblRoughnessPrefilter iname levels dir s = (o, s') ->
  let numLevels := baseExp + 1 in
  let N := g_num_samples (globals s) in
  let schedule := scheduleFrom (Z.to_nat (baseExp + 1)) baseExp numLevels N in
  let ts := map (fun cm => texelsOf s (backing cm)) levels in
  exists done evs first more,
    trace s' = trace s ++ evs /\
    filterCalls evs = firstn (S done) schedule /\
    hd_error schedule = Some first /\
    store s' = store s
      ++ MakeSeamless (roughnessFilterTexels ts (call_roughness first) (call_samples first))
      :: more /\
    (forall a, o = Returns a -> S done = Z.to_nat (baseExp + 1)).
Proof.
  intros H Run. cbv zeta.
  assert (Pos : exists i, Z.to_nat (baseExp + 1) = S i).
  { apply builtin_ctz_range in H. exists (Z.to_nat baseExp). lia. }
  destruct Pos as [i Ei].
  unfold iblRoughnessPrefilter in Run.
  destruct (ensureDirectory_run
              (concat (getAbsolutePath dir) (getNameWithoutExtension iname)) s)
    as [evs0 [made' [E F0]]].
  unfold bind at 1 in Run. rewrite E in Run. unfold bind at 1, get at 1 in Run.
  cbn [globals] in Run. rewrite H in Run.
  rewrite Ei in *. simpl prefilterLoop in Run. simpl scheduleFrom.
  set (s0 := mk_State (globals s) (trace s ++ evs0) (store s) made') in *.
  match type of Run with
  | bind (bind (prefilterLevel ?a ?b ?c ?d ?e ?f ?g ?h) ?k) ?post s0 = _ =>
      set (tail := post) in *;
      destruct (prefilterLevel_spec a b c d e f g h s0) as [[evs1 [T1 F1]] [S1 N1]];
      pose proof (fun n' c' => prefilterLoop_schedule a b c d e i n' c') as Loop
  end.
  assert (Tail : forall c, emits notFilterCall (tail c) /\ leaves store (tail c)).
  { intros c. subst tail. split.
    - emits_auto.
    - cbv beta. leaves_store. }
  unfold bind in Run.
  destruct (prefilterLevel _ _ _ _ _ _ _ _ s0) as [[[n' c'] | st | | ] s1];
    cbn [fst snd] in *.
  2-4: injection Run as <- <-;
       eexists 0%nat, (evs0 ++ evs1), _, [];
       rewrite T1, S1, filterCalls_app, (filterCalls_none _ F0), F1;
       subst s0; cbn [trace store]; rewrite <- app_assoc;
       (repeat split); discriminate.
  rewrite (N1 n' c' eq_refl) in *.
  destruct (Loop (samplesForLevel (size_t (baseExp - Z.of_nat i))
                    (g_num_samples (globals s))) c' s1)
    as [done [evs [more [T [F [St R]]]]]].
  cbv zeta in T, F, St, R.
  destruct (prefilterLoop i _ _ _ _ _ _ c' s1) as [[c'' | st | | ] s2];
    cbn [fst snd] in *.
  2-4: injection Run as <- <-;
       eexists done, (evs0 ++ evs1 ++ evs), _, more;
       rewrite T, T1, St, S1, !filterCalls_app, (filterCalls_none _ F0), F1, F;
       subst s0; cbn [trace store]; rewrite <- !app_assoc;
       (repeat split); discriminate.
  destruct (Tail c'') as [ET LT]. destruct (ET s2) as [evs3 [T3 F3]].
  specialize (LT s2). rewrite Run in T3, LT. cbn [snd] in T3, LT.
  eexists done, (evs0 ++ evs1 ++ evs ++ evs3), _, more.
  rewrite T3, LT, T, T1, St, S1, !filterCalls_app, (filterCalls_none _ F0),
    (filterCalls_none _ F3), F1, F, app_nil_r.
  subst s0; cbn [trace store]; rewrite <- !app_assoc.
  repeat split. intros a _. f_equal. exact (R c'' eq_refl).
Qed.


Lemma length_scheduleFrom turns baseExp numLevels :
  forall n, List.length (scheduleFrom turns baseExp numLevels n) = turns.
Proof. induction turns as [| i IH]; intros n; simpl; [reflexivity | now rewrite IH]. Qed.

(** Entry [k] of the schedule is level [k]: its edge and its roughness. *)
Lemma scheduleFrom_level baseExp numLevels :
  0 <= baseExp <= 31 ->
  forall turns n l0 k call,
    Z.of_nat turns = baseExp - l0 + 1 -> 0 <= l0 ->
    nth_error (scheduleFrom turns baseExp numLevels n) k = Some call ->
    call_dim call = 2 ^ (baseExp - (l0 + Z.of_nat k)) /\
    call_roughness call = linearRoughnessOfLevel (l0 + Z.of_nat k) numLevels.
Proof.
  intros B. induction turns as [| i IH]; intros n l0 k call E P H.
  - destruct k; discriminate.
  - simpl in H.
    assert (L : size_t (baseExp - Z.of_nat i) = l0)
      by (rewrite size_t_small; lia).
    rewrite L in H. destruct k as [| k]; simpl in H.
    + injection H as <-. cbn [call_dim call_roughness]. rewrite Z.add_0_r. split.
      * replace (Z.of_nat i) with (baseExp - l0) by lia.
        rewrite Z.shiftl_1_l. unfold unsigned, UINT_MAX_plus_1.
        apply Z.mod_small. split; [apply Z.pow_nonneg; lia |].
        apply Z.pow_lt_mono_r; lia.
      * reflexivity.
    + destruct (IH _ (l0 + 1) k call ltac:(lia) ltac:(lia) H) as [D R].
      rewrite D, R. split; f_equal; lia.
Qed.

(** Entry [k] of the schedule uses N samples at levels 0 and 1 and
    N * 2^(k-1) from level 2 on, while that fits a [size_t]. *)
Lemma scheduleFrom_samples baseExp numLevels N :
  0 <= baseExp <= 31 -> 0 <= N < 2 ^ 34 ->
  forall turns n l0 k call,
    Z.of_nat turns = baseExp - l0 + 1 -> 0 <= l0 ->
    n = (if l0 <=? 1 then N else N * 2 ^ (l0 - 2)) ->
    nth_error (scheduleFrom turns baseExp numLevels n) k = Some call ->
    call_samples call
      = (if l0 + Z.of_nat k <? 2 then N else N * 2 ^ (l0 + Z.of_nat k - 1)).
Proof.
  intros B HN. induction turns as [| i IH]; intros n l0 k call E P Hn H.
  - destruct k; discriminate.
  - simpl in H.
    assert (L : size_t (baseExp - Z.of_nat i) = l0)
      by (rewrite size_t_small; lia).
    rewrite L in H.
    assert (Step : samplesForLevel l0 n = (if l0 <? 2 then N else N * 2 ^ (l0 - 1))).
    { unfold samplesForLevel. subst n.
      destruct (Z.leb_spec 2 l0); destruct (Z.ltb_spec l0 2); try lia.
      - destruct (Z.leb_spec l0 1); try lia.
        replace (N * 2 ^ (l0 - 2) * 2) with (N * 2 ^ (l0 - 1)).
        + apply size_t_small. split; [apply Z.mul_nonneg_nonneg; [lia |];
                                      apply Z.pow_nonneg; lia |].
          assert (2 ^ (l0 - 1) <= 2 ^ 30) by (apply Z.pow_le_mono_r; lia).
          nia.
        + replace (l0 - 1) with (Z.succ (l0 - 2)) by lia.
          rewrite Z.pow_succ_r by lia. lia.
      - destruct (Z.leb_spec l0 1); [reflexivity | lia]. }
    destruct k as [| k]; simpl in H.
    + injection H as <-. cbn [call_samples]. now rewrite Z.add_0_r.
    + rewrite (IH _ (l0 + 1) k call ltac:(lia) ltac:(lia)) with (2 := H).
      * replace (l0 + 1 + Z.of_nat k) with (l0 + Z.of_nat (S k)) by lia. reflexivity.
      * rewrite Step.
        destruct (Z.ltb_spec l0 2); destruct (Z.leb_spec (l0 + 1) 1); try lia.
        -- replace (l0 + 1 - 2) with 0 by lia. now rewrite Z.pow_0_r, Z.mul_1_r.
        -- do 2 f_equal. lia.
Qed.

(** C4. The roughness-filter calls of the stage, in order, are the levels
    0, 1, 2, ...: level 0 is always filtered and uses the configured sample
    count N, level 1 uses N as well, and every level L >= 2 uses
    N * 2^(L-1), the count doubling at each level from level 2 on; a run
    that comes back has filtered all baseExp + 1 levels. *)
Theorem roughness_sample_counts iname levels dir s baseExp o s' :
  builtin_ctz (outputSizeOr (globals s) IBL_DEFAULT_SIZE) = Some baseExp ->
  0 <= g_num_samples (globals s) < 2 ^ 34 ->
  iblRoughnessPrefilter iname levels dir s = (o, s') ->
  let N := g_num_samples (globals s) in
  exists evs,
    trace s' = trace s ++ evs /\
    (exists first, nth_error (filterCalls evs) 0 = Some first /\ call_samples first = N) /\
    (forall L call,
       nth_error (filterCalls evs) L = Some call ->
       call_dim call = 2 ^ (baseExp - Z.of_nat L) /\
       call_samples call = (if Z.of_nat L <? 2 then N else N * 2 ^ (Z.of_nat L - 1))) /\
    (forall a, o = Returns a ->
               List.length (filterCalls evs) = Z.to_nat (baseExp + 1)).
Proof.
  intros H HN Run N.
  pose proof (builtin_ctz_range _ _ H) as B.
  destruct (iblRoughnessPrefilter_schedule _ _ _ _ _ _ _ H Run)
    as [done [evs [first [more [T [F [Hd [_ R]]]]]]]].
  assert (Entry : forall L call,
             nth_error (filterCalls evs) L = Some call ->
             call_dim call = 2 ^ (baseExp - Z.of_nat L) /\
             call_samples call = (if Z.of_nat L <? 2 then N else N * 2 ^ (Z.of_nat L - 1))).
  { intros L call E. rewrite F in E.
    assert (E' : nth_error (scheduleFrom (Z.to_nat (baseExp + 1)) baseExp (baseExp + 1) N)
                   L = Some call).
    { rewrite nth_error_firstn in E. destruct (L <? S done)%nat; [exact E | discriminate]. }
    split.
    - apply (scheduleFrom_level baseExp (baseExp + 1) B (Z.to_nat (baseExp + 1)) N 0 L call);
        [lia | lia | exact E'].
    - apply (scheduleFrom_samples baseExp (baseExp + 1) N B HN (Z.to_nat (baseExp + 1))
               N 0 L call);
        [lia | lia | reflexivity | exact E']. }
  exists evs. split; [exact T |]. split; [| split; [exact Entry |]].
  - exists first.
    assert (E0 : nth_error (filterCalls evs) 0 = Some first).
    { rewrite F. destruct (scheduleFrom _ _ _ _) as [| c t]; [discriminate |].
      simpl in *. exact Hd. }
    split; [exact E0 |]. apply (Entry 0%nat first E0).
  - intros a Ha. rewrite F, length_firstn, (R a Ha).
    rewrite length_scheduleFrom. lia.
Qed.


(** *** The roughness of each level *)

(** [level / (numLevels - 1.0)] as the loop computes it. *)
Definition lodOfLevel (level numLevels : Z) : double :=
  PrimFloat.div (to_double level) (PrimFloat.sub (to_double numLevels) 1).

(** The quotient lies in [0, 1]: checked for every chain length a 32-bit
    size allows and every level of the chain. *)
Definition lodInUnit (level numLevels : Z) : bool :=
  PrimFloat.leb 0 (lodOfLevel level numLevels)
  && PrimFloat.leb (lodOfLevel level numLevels) 1.

Lemma lodInUnit_all :
  forallb (fun e => forallb (fun level => lodInUnit level (e + 1))
                            (range 0 (Z.to_nat (e + 1))))
          (range 1 31) = true.
Proof. vm_compute. reflexivity. Qed.

Lemma lodInUnit_level baseExp level :
  1 <= baseExp <= 31 -> 0 <= level <= baseExp -> lodInUnit level (baseExp + 1) = true.
Proof.
  intros B L. pose proof lodInUnit_all as A.
  rewrite forallb_forall in A. specialize (A baseExp).
  rewrite forallb_forall in A. apply A; apply In_range; lia.
Qed.

(** For the chain lengths 2 to 32: [numLevels - 1.0] is the integer
    [numLevels - 1], level 0 has roughness 0 and the last level roughness 1,
    all exactly. *)
Lemma chain_length_facts (k : nat) :
  (k < 31)%nat ->
  let m := Z.of_nat k + 1 in
  PrimFloat.sub (to_double (m + 1)) 1 = to_double m /\
  sq (PrimFloat.div (to_double 0) (to_double m)) = 0%float /\
  sq (PrimFloat.div (to_double m) (to_double m)) = 1%float.
Proof.
  intros H. cbv zeta.
  do 31 (destruct k as [| k]; [repeat split |]).
  lia.
Qed.

(** What the driver assumes of [saturate]: it leaves [0, 1] alone. *)
Definition saturate_contract : Prop :=
  forall v, PrimFloat.leb 0 v = true -> PrimFloat.leb v 1 = true -> saturate v = v.

Lemma linearRoughnessOfLevel_formula (contract : saturate_contract) baseExp level :
  1 <= baseExp <= 31 -> 0 <= level <= baseExp ->
  linearRoughnessOfLevel level (baseExp + 1)
    = sq (PrimFloat.div (to_double level) (to_double baseExp)).
Proof.
  intros B L. pose proof (lodInUnit_level baseExp level B L) as U.
  unfold lodInUnit in U. apply andb_prop in U as [U0 U1].
  unfold linearRoughnessOfLevel. fold (lodOfLevel level (baseExp + 1)).
  rewrite (contract _ U0 U1). unfold lodOfLevel, sq.
  destruct (chain_length_facts (Z.to_nat (baseExp - 1)) ltac:(lia)) as [E _].
  replace (Z.of_nat (Z.to_nat (baseExp - 1)) + 1) with baseExp in E by lia.
  now rewrite E.
Qed.

(** C5. With [numLevels] >= 2 levels, level [L] is filtered with linear
    roughness (L / (numLevels - 1))^2, which is exactly 0 at level 0 and
    exactly 1 at the last level; level 0 is always filtered, and with its
    roughness 0 the filter gives the unfiltered copy of the base level,
    which after the seam fix-up is the first raster the stage adds. *)
Theorem roughness_of_levels (contract : saturate_contract)
    iname levels dir s baseExp o s' :
  builtin_ctz (outputSizeOr (globals s) IBL_DEFAULT_SIZE) = Some baseExp ->
  1 <= baseExp ->
  iblRoughnessPrefilter iname levels dir s = (o, s') ->
  let numLevels := baseExp + 1 in
  let base := hd Uninitialized (map (fun cm => texelsOf s (backing cm)) levels) in
  exists evs more,
    trace s' = trace s ++ evs /\
    (forall L call,
       nth_error (filterCalls evs) L = Some call ->
       call_roughness call
         = sq (PrimFloat.div (to_double (Z.of_nat L)) (to_double (numLevels - 1)))) /\
    (exists first,
       nth_error (filterCalls evs) 0 = Some first /\ call_roughness first = 0%float) /\
    (forall last,
       nth_error (filterCalls evs) (Z.to_nat (numLevels - 1)) = Some last ->
       call_roughness last = 1%float) /\
    store s' = store s ++ MakeSeamless (UnfilteredCopy base) :: more.
Proof.
  intros H B1 Run numLevels base.
  pose proof (builtin_ctz_range _ _ H) as B.
  assert (B' : 1 <= baseExp <= 31) by lia.
  destruct (iblRoughnessPrefilter_schedule _ _ _ _ _ _ _ H Run)
    as [done [evs [first [more [T [F [Hd [St R]]]]]]]].
  destruct (chain_length_facts (Z.to_nat (baseExp - 1)) ltac:(lia)) as [_ [Zero One]].
  replace (Z.of_nat (Z.to_nat (baseExp - 1)) + 1) with baseExp in Zero, One by lia.
  assert (Entry : forall L call,
             nth_error (filterCalls evs) L = Some call ->
             call_roughness call
               = sq (PrimFloat.div (to_double (Z.of_nat L)) (to_double baseExp))).
  { intros L call E. rewrite F in E.
    assert (E' : nth_error (scheduleFrom (Z.to_nat (baseExp + 1)) baseExp (baseExp + 1)
                              (g_num_samples (globals s))) L = Some call).
    { rewrite nth_error_firstn in E. destruct (L <? S done)%nat; [exact E | discriminate]. }
    assert (LT : (L < Z.to_nat (baseExp + 1))%nat).
    { rewrite <- (length_scheduleFrom (Z.to_nat (baseExp + 1)) baseExp (baseExp + 1)
                    (g_num_samples (globals s))).
      apply nth_error_Some. rewrite E'. discriminate. }
    destruct (scheduleFrom_level baseExp (baseExp + 1) B (Z.to_nat (baseExp + 1))
                (g_num_samples (globals s)) 0 L call ltac:(lia) ltac:(lia) E') as [_ Rg].
    rewrite Rg. apply linearRoughnessOfLevel_formula; [assumption | lia | lia]. }
  assert (E0 : nth_error (filterCalls evs) 0 = Some first).
  { rewrite F. destruct (scheduleFrom _ _ _ _) as [| c t]; [discriminate |].
    simpl in *. exact Hd. }
  assert (R0 : call_roughness first = 0%float)
    by (rewrite (Entry 0%nat first E0); exact Zero).
  exists evs, more. subst numLevels.
  replace (baseExp + 1 - 1) with baseExp by lia.
  split; [exact T |]. split; [exact Entry |]. split; [now exists first |]. split.
  - intros last E. rewrite (Entry _ last E), Z2Nat.id by lia. exact One.
  - rewrite St, R0. reflexivity.
Qed.

End Prefilter.





Lemma Plain_saturate_contract files : @saturate_contract (Plain.collaborators files).
Proof.
  intros v L0 L1. simpl. unfold Plain.clampUnit. now rewrite L0, L1.
Qed.

(** A run of the stage for a 4-edge output: three levels. *)
Definition prefilter_state : State :=
  mk_State (set_g_output_size 4 initial_globals) [] [GenerateUVGrid 1 1] [].

Definition prefilter_run : Outcome unit * State :=
  @iblRoughnessPrefilter (Plain.collaborators []) "sky" [mk_Cubemap 4 0] "out"
    prefilter_state.

Lemma roughness_sample_counts_witness :
  exists evs,
    trace (snd prefilter_run) = trace prefilter_state ++ evs /\
    (exists first, nth_error (filterCalls evs) 0 = Some first /\
                   call_samples first = 1024) /\
    (forall L call,
       nth_error (filterCalls evs) L = Some call ->
       call_dim call = 2 ^ (2 - Z.of_nat L) /\
       call_samples call = (if Z.of_nat L <? 2 then 1024 else 1024 * 2 ^ (Z.of_nat L - 1))) /\
    (forall a, fst prefilter_run = Returns a ->
               List.length (filterCalls evs) = Z.to_nat (2 + 1)).
Proof.
  apply (@roughness_sample_counts (Plain.collaborators []) "sky" [mk_Cubemap 4 0] "out"
           prefilter_state 2 (fst prefilter_run) (snd prefilter_run));
    [vm_compute; reflexivity | simpl; lia | vm_compute; reflexivity].
Defined.

Lemma roughness_of_levels_witness :
  exists evs more,
    trace (snd prefilter_run) = trace prefilter_state ++ evs /\
    (forall L call,
       nth_error (filterCalls evs) L = Some call ->
       call_roughness call
         = sq (PrimFloat.div (to_double (Z.of_nat L)) (to_double (2 + 1 - 1)))) /\
    (exists first,
       nth_error (filterCalls evs) 0 = Some first /\ call_roughness first = 0%float) /\
    (forall last,
       nth_error (filterCalls evs) (Z.to_nat (2 + 1 - 1)) = Some last ->
       call_roughness last = 1%float) /\
    store (snd prefilter_run)
      = store prefilter_state
          ++ MakeSeamless
               (UnfilteredCopy
                  (hd Uninitialized
                     (map (fun cm => texelsOf prefilter_state (backing cm))
                        [mk_Cubemap 4 0])))
          :: more.
Proof.
  apply (@roughness_of_levels (Plain.collaborators []) (Plain_saturate_contract [])
           "sky" [mk_Cubemap 4 0] "out" prefilter_state 2
           (fst prefilter_run) (snd prefilter_run));
    [vm_compute; reflexivity | lia | vm_compute; reflexivity].
Defined.

Example prefilter_calls :
  filterCalls (trace (snd prefilter_run)) =
    [mk_FilterCall 4 0%float 1024; mk_FilterCall 2 0.25%float 1024;
     mk_FilterCall 1 1%float 2048].
Proof. vm_compute. reflexivity. Qed.

(** * The rest of the driver *)

(** ** The command line *)

(** The argument of an option as the loop sees it: [optarg], or the empty
    string when there is none. *)
Definition argOf (o : ascii * option string) : string :=
  match snd o with Some a => a | None => "" end.

(** The values [--type] and [--format] compare their argument with. *)
Definition recognisedType (arg : string) : bool :=
  String.eqb arg "cubemap" || String.eqb arg "ktx" ||
  (String.eqb arg "equirect" || String.eqb arg "equirectangular") ||
  String.eqb arg "octahedron".

Definition recognisedFormat (arg : string) : bool :=
  String.eqb arg "png" || String.eqb arg "hdr" || String.eqb arg "rgbm" ||
  String.eqb arg "exr" || String.eqb arg "psd" || String.eqb arg "dds" ||
  String.eqb arg "ktx".

Definition givesFormat (o : ascii * option string) : bool :=
  Ascii.eqb (fst o) "f" && recognisedFormat (argOf o).

Definition givesType (o : ascii * option string) : bool :=
  Ascii.eqb (fst o) "t" && recognisedType (argOf o).

Definition asksKtxFormat (o : ascii * option string) : bool :=
  Ascii.eqb (fst o) "f" && String.eqb (argOf o) "ktx".

Definition isOption (c : ascii) (o : ascii * option string) : bool := Ascii.eqb (fst o) c.

(** [--sh], [--sh-output], [--sh-irradiance], [--sh-shader]. *)
Definition isShOption (o : ascii * option string) : bool :=
  isOption "z" o || isOption "o" o || isOption "i" o || isOption "b" o.

Section Options.
Context {collaborators : Collaborators}.

Ltac split_option opt :=
  destruct opt as [b0 b1 b2 b3 b4 b5 b6 b7];
  unfold handleOption;
  repeat match goal with
         | |- context [if ?b then _ else _] => is_var b; destruct b
         end;
  cbn -[String.eqb];
  unfold recognisedFormat, recognisedType, if_then, bind, modify, emit, ret,
    exit, terminate, when;
  repeat match goal with
         | |- context [String.eqb ?a ?b] => destruct (String.eqb a b)
         | |- context [stoul ?a] => destruct (stoul a)
         | |- context [stoi ?a] => destruct (stoi a)
         | |- context [stod ?a] => destruct (stod a)
         | |- context [isPOT ?a] => destruct (isPOT a)
         | |- context [PrimFloat.ltb ?a ?b] => destruct (PrimFloat.ltb a b)
         end;
  cbn.

(** What one option does to the locals of the loop. *)
Lemma handleOption_locals opt arg lc s lc' s' :
  handleOption opt arg lc s = (Returns lc', s') ->
  format_specified lc' = format_specified lc || (Ascii.eqb opt "f" && recognisedFormat arg) /\
  type_specified lc' = type_specified lc || (Ascii.eqb opt "t" && recognisedType arg) /\
  ktx_format_requested lc' =
    ktx_format_requested lc || (Ascii.eqb opt "f" && String.eqb arg "ktx") /\
  (Ascii.eqb opt "z" = false -> num_sh_bands lc' = num_sh_bands lc).
Proof.
  destruct lc as [n f t k].
  split_option opt; try discriminate;
    intros [= <- <-]; cbn; rewrite ?orb_false_r, ?orb_true_r; auto.
  repeat split; discriminate.
Qed.

Lemma optionLoop_locals opts : forall lc s lc' s',
  optionLoop opts lc s = (Returns lc', s') ->
  format_specified lc' = format_specified lc || existsb givesFormat opts /\
  type_specified lc' = type_specified lc || existsb givesType opts /\
  ktx_format_requested lc' = ktx_format_requested lc || existsb asksKtxFormat opts /\
  (existsb (isOption "z") opts = false -> num_sh_bands lc' = num_sh_bands lc).
Proof.
  induction opts as [| [opt optarg] rest IH]; intros lc s lc' s' R.
  - injection R as <- _. rewrite !orb_false_r. auto.
  - simpl in R. apply bind_returns in R as [lc1 [s1 [H R]]].
    apply handleOption_locals in H as [F [T [K N]]].
    apply IH in R as [F' [T' [K' N']]].
    rewrite F', T', K', F, T, K. cbn [existsb].
    unfold givesFormat at 1, givesType at 1, asksKtxFormat at 1, isOption at 1, argOf.
    cbn [fst snd]. rewrite !orb_assoc. repeat split.
    intros Z. apply orb_false_elim in Z as [Z1 Z2]. rewrite (N' Z2). apply N, Z1.
Qed.

(** How a flag that one option sets comes out of the loop. *)
Lemma optionLoop_flag (f : Globals -> bool) (c : ascii) :
  (forall opt arg lc s,
     f (globals (snd (handleOption opt arg lc s))) = f (globals s) || Ascii.eqb opt c) ->
  forall opts lc s lc' s',
    optionLoop opts lc s = (Returns lc', s') ->
    f (globals s') = f (globals s) || existsb (isOption c) opts.
Proof.
  intros F. induction opts as [| [opt optarg] rest IH]; intros lc s lc' s' R.
  - injection R as _ <-. now rewrite orb_false_r.
  - simpl in R. apply bind_returns in R as [lc1 [s1 [H R]]].
    rewrite (IH _ _ _ _ R). cbn [existsb]. unfold isOption at 1. cbn [fst].
    rewrite orb_assoc. f_equal.
    specialize (F opt (match optarg with Some a => a | None => "" end) lc s).
    rewrite H in F. exact F.
Qed.

(** The statics the theorems below follow through one option: [--deploy]
    and [--ibl-dfg] set their flag, the four SH options set the band count
    to 1, and no other option touches them. *)
Lemma handleOption_statics opt arg lc s :
  let gl := globals (snd (handleOption opt arg lc s)) in
  g_deploy gl = g_deploy (globals s) || Ascii.eqb opt "x" /\
  g_dfg gl = g_dfg (globals s) || Ascii.eqb opt "a" /\
  g_sh_compute gl = if isShOption (opt, Some arg) then 1 else g_sh_compute (globals s).
Proof.
  destruct s as [gl tr st md].
  split_option opt; rewrite ?orb_false_r, ?orb_true_r; repeat split.
Qed.

Lemma handleOption_g_deploy opt arg lc s :
  g_deploy (globals (snd (handleOption opt arg lc s)))
    = g_deploy (globals s) || Ascii.eqb opt "x".
Proof. apply handleOption_statics. Qed.

Lemma handleOption_g_dfg opt arg lc s :
  g_dfg (globals (snd (handleOption opt arg lc s)))
    = g_dfg (globals s) || Ascii.eqb opt "a".
Proof. apply handleOption_statics. Qed.

Lemma handleOption_g_sh_compute opt arg lc s :
  g_sh_compute (globals (snd (handleOption opt arg lc s)))
    = if isShOption (opt, Some arg) then 1 else g_sh_compute (globals s).
Proof. apply handleOption_statics. Qed.

Lemma optionLoop_g_sh_compute opts : forall lc s lc' s',
  optionLoop opts lc s = (Returns lc', s') ->
  g_sh_compute (globals s') = if existsb isShOption opts then 1 else g_sh_compute (globals s).
Proof.
  induction opts as [| [opt optarg] rest IH]; intros lc s lc' s' R.
  - injection R as _ <-. reflexivity.
  - simpl in R. apply bind_returns in R as [lc1 [s1 [H R]]].
    rewrite (IH _ _ _ _ R). cbn [existsb].
    pose proof (handleOption_g_sh_compute opt
                  (match optarg with Some a => a | None => "" end) lc s) as G.
    rewrite H in G. cbn [snd] in G.
    assert (E : isShOption (opt, optarg) = isShOption (opt, Some (match optarg with Some a => a | None => "" end))) by reflexivity.
    rewrite E. destruct (existsb isShOption rest).
    + now rewrite orb_true_r.
    + rewrite orb_false_r, G. reflexivity.
Qed.


(** The tail of [handleCommandLineArgments]: what the statics are once the
    loop has come back with locals [lc]. *)
Lemma handleCommandLineArgments_returns opts s s' :
  handleCommandLineArgments opts s = (Returns tt, s') ->
  exists lc s1,
    optionLoop opts initial_locals s = (Returns lc, s1) /\
    trace s' = trace s1 /\ store s' = store s1 /\ made s' = made s1 /\
    g_deploy (globals s') = g_deploy (globals s1) /\
    g_deploy_dir (globals s') = g_deploy_dir (globals s1) /\
    g_dfg (globals s') = g_dfg (globals s1) /\
    g_type (globals s') =
      (if ktx_format_requested lc then KTX
       else if g_deploy (globals s1) && negb (type_specified lc) then FACES
       else g_type (globals s1)) /\
    g_format (globals s') =
      (if g_deploy (globals s1) && negb (format_specified lc) then RGBM
       else g_format (globals s1)) /\
    g_sh_compute (globals s') =
      (if negb (num_sh_bands lc =? 0) && negb (g_sh_compute (globals s1) =? 0)
       then size_t (num_sh_bands lc) else g_sh_compute (globals s1)).
Proof.
  unfold handleCommandLineArgments. intros R.
  apply bind_returns in R as [lc [s1 [L R]]].
  exists lc, s1. split; [exact L |].
  destruct s1 as [gl tr st md]. destruct lc as [n f t k].
  unfold bind, when, get, modify, ret in R. cbn in R.
  destruct k, (g_deploy gl) eqn:D, t, f;
    cbn in R; rewrite ?D in R; cbn in R;
    destruct (n =? 0) eqn:N, (g_sh_compute gl =? 0) eqn:Z;
    cbn in R; rewrite ?Z in R; cbn in R;
    injection R as <-; cbn; rewrite ?D, ?Z, ?N; cbn; repeat split.
Qed.

End Options.

(** A conversion that throws. *)
Definition throws {A} (c : Conversion A) : bool :=
  match c with Converted _ => false | _ => true end.

(** A value compares equal to itself unless it is a NaN, and a NaN is
    neither below 0 nor above 1. *)
Lemma SFeqb_refl x : x <> S754_nan -> SFeqb x x = true.
Proof.
  destruct x as [sg | sg | | sg m e]; intros N; try (destruct sg; reflexivity).
  - elim N; reflexivity.
  - unfold SFeqb, SFcompare.
    destruct sg; rewrite Z.compare_refl, Pos.compare_cont_refl; reflexivity.
Qed.

Lemma nan_not_outside v :
  PrimFloat.is_nan v = true -> PrimFloat.ltb v 0 || PrimFloat.ltb 1 v = false.
Proof.
  unfold PrimFloat.is_nan. intros N.
  rewrite !FloatAxioms.ltb_spec. rewrite FloatAxioms.eqb_spec in N.
  destruct (Prim2SF v) as [sg | sg | | sg m e] eqn:E.
  - rewrite (SFeqb_refl (S754_zero sg)) in N; discriminate.
  - rewrite (SFeqb_refl (S754_infinity sg)) in N; discriminate.
  - reflexivity.
  - rewrite (SFeqb_refl (S754_finite sg m e)) in N; discriminate.
Qed.

Section CommandLine.
Context {collaborators : Collaborators}.

(** X1. [--format=ktx] anywhere on the command line makes the output type KTX,
    whatever [--type] options come before or after it. *)
Theorem format_ktx_forces_type opts s s' :
  existsb asksKtxFormat opts = true ->
  handleCommandLineArgments opts s = (Returns tt, s') ->
  g_type (globals s') = KTX.
Proof.
  intros K R.
  apply handleCommandLineArgments_returns in R
    as [lc [s1 [L [_ [_ [_ [_ [_ [_ [T _]]]]]]]]]].
  apply optionLoop_locals in L as [_ [_ [Kx _]]].
  rewrite T, Kx, K, orb_true_r. reflexivity.
Qed.

Lemma optionLoop_option_ignored before o after lc s :
  (forall lc s1, handleOption (fst o) (argOf o) lc s1 = (Returns lc, s1)) ->
  optionLoop (before ++ o :: after) lc s = optionLoop (before ++ after) lc s.
Proof.
  intros H. rewrite !optionLoop_app. unfold bind.
  destruct (optionLoop before lc s) as [[lc1 | n | | ] s1]; try reflexivity.
  destruct o as [opt optarg]. simpl optionLoop. unfold bind.
  unfold argOf in H. cbn [fst snd] in H. rewrite H. reflexivity.
Qed.

Lemma main_option_ignored before o after args s :
  (forall lc s1, handleOption (fst o) (argOf o) lc s1 = (Returns lc, s1)) ->
  main (before ++ o :: after) args s = main (before ++ after) args s.
Proof.
  intros H. unfold main, handleCommandLineArgments, bind.
  rewrite (optionLoop_option_ignored before o after initial_locals s H). reflexivity.
Qed.

(** X2. A [--type] or [--format] value that is none of the values the option
    compares with is silently ignored: the run is the run without the
    option. *)
Theorem unrecognised_values_ignored before arg after args s :
  (recognisedType arg = false ->
   main (before ++ ("t"%char, Some arg) :: after) args s = main (before ++ after) args s) /\
  (recognisedFormat arg = false ->
   main (before ++ ("f"%char, Some arg) :: after) args s = main (before ++ after) args s).
Proof.
  split; intros U; apply main_option_ignored; intros lc s1; cbn [fst argOf snd].
  - unfold recognisedType in U. unfold handleOption, if_then, bind.
    destruct (String.eqb arg "cubemap"), (String.eqb arg "ktx"), (String.eqb arg "equirect"),
      (String.eqb arg "equirectangular"), (String.eqb arg "octahedron");
      try discriminate; reflexivity.
  - unfold recognisedFormat in U. unfold handleOption, if_then, bind.
    destruct (String.eqb arg "png"), (String.eqb arg "hdr"), (String.eqb arg "rgbm"),
      (String.eqb arg "exr"), (String.eqb arg "psd"), (String.eqb arg "dds"),
      (String.eqb arg "ktx");
      try discriminate; reflexivity.
Qed.


Lemma keeps_iblLutDfg {X} (f : Globals -> X) filename size multiscatter :
  keeps f (iblLutDfg filename size multiscatter).
Proof.
  unfold iblLutDfg, saveImage, ensureDirectory, exists_now.
  keeps_auto; try (apply keeps_globals; reflexivity).
Qed.

(** What [main] has done to the statics when it turns to the input, in
    terms of what the option handler left. *)
Lemma prologue_returns opts iname s s' :
  prologue opts iname s = (Returns tt, s') ->
  exists s1 s2,
    handleCommandLineArgments opts s = (Returns tt, s1) /\
    globals s2 = globals s1 /\
    deploySettings iname s2 = (Returns tt, s').
Proof.
  unfold prologue. intros R.
  apply bind_returns in R as [[] [s1 [H R]]].
  apply bind_returns in R as [gl [s1' [G R]]].
  injection G as <- <-.
  apply bind_returns in R as [[] [s2 [W R]]].
  exists s1, s2. split; [exact H |]. split; [| exact R].
  apply keeps_run with (f := fun gl => gl) in W; [exact W |].
  apply keeps_when, keeps_bind; [apply keeps_say | intros; apply keeps_iblLutDfg].
Qed.

(** The statics as [deploySettings] leaves them. *)
Definition deployed (iname : string) (gl : Globals) : Globals :=
  let gl1 :=
    if g_deploy gl then
      set_g_prefilter_dir (g_deploy_dir gl)
        (set_g_prefilter true
           (set_g_extract_faces true
              (set_g_extract_dir (g_deploy_dir gl)
                 (set_g_sh_output true
                    (set_g_sh_file SH_TEXT
                       (set_g_sh_filename
                          (concat (concat (g_deploy_dir gl) (getNameWithoutExtension iname))
                             "sh.txt")
                          (set_g_sh_irradiance true
                             (set_g_sh_shader true (set_g_sh_compute 3 gl)))))))))
    else gl in
  if g_debug gl1 && (g_prefilter gl1 && negb (g_is_mipmap gl1))
  then set_g_is_mipmap_dir (g_prefilter_dir gl1) (set_g_is_mipmap true gl1)
  else gl1.

Lemma deploySettings_run iname s :
  deploySettings iname s =
    (Returns tt, mk_State (deployed iname (globals s)) (trace s) (store s) (made s)).
Proof.
  destruct s as [gl tr st md].
  unfold deploySettings, deployed, bind, get, when, modify, ret. cbn [globals trace store made].
  destruct (g_deploy gl); cbn [globals trace store made];
    match goal with
    | |- context [if ?c then _ else _] => destruct c
    end; reflexivity.
Qed.

(** X3. A deployment run ([--deploy=dir], [-x dir]) fixes the stages whatever the
    other options say: pre-scaled irradiance SH with 3 bands written as text
    to [dir/<name>/sh.txt], face extraction and roughness prefiltering into
    [dir]; without a recognised [--format] the encoder format is RGBM, and
    without a recognised [--type] the output type is cube faces. *)
Theorem deploy_profile opts iname s s' :
  existsb (isOption "x") opts = true ->
  prologue opts iname s = (Returns tt, s') ->
  let gl := globals s' in
  let dir := g_deploy_dir gl in
  g_sh_compute gl = 3 /\ g_sh_shader gl = true /\ g_sh_irradiance gl = true /\
  g_sh_output gl = true /\ g_sh_file gl = SH_TEXT /\
  g_sh_filename gl = concat (concat dir (getNameWithoutExtension iname)) "sh.txt" /\
  g_extract_faces gl = true /\ g_extract_dir gl = dir /\
  g_prefilter gl = true /\ g_prefilter_dir gl = dir /\
  (existsb givesFormat opts = false -> g_format gl = RGBM) /\
  (existsb givesType opts = false -> existsb asksKtxFormat opts = false ->
   g_type gl = FACES).
Proof.
  intros X R.
  apply prologue_returns in R as [s1 [s2 [H [G D]]]].
  apply handleCommandLineArgments_returns in H
    as [lc [s0 [L [_ [_ [_ [Dp [_ [_ [T [F _]]]]]]]]]]].
  pose proof (optionLoop_flag g_deploy "x" handleOption_g_deploy _ _ _ _ _ L) as Dx.
  rewrite X, orb_true_r in Dx.
  apply optionLoop_locals in L as [Fs [Ts [Ks _]]].
  cbn [format_specified type_specified ktx_format_requested initial_locals orb] in Fs, Ts, Ks.
  rewrite Dx in Dp, T, F. rewrite Fs in F. rewrite Ts, Ks in T.
  rewrite deploySettings_run in D. injection D as <-.
  cbn [globals]. rewrite G. unfold deployed. rewrite Dp.
  match goal with
  | |- context [if ?c then _ else _] => destruct c
  end;
    (repeat split; [intros Nf; cbn; rewrite F, Nf; reflexivity |
                    intros Nt Nk; cbn; rewrite T, Nt, Nk; reflexivity]).
Qed.


Lemma existsb_isShOption_z opts :
  existsb (isOption "z") opts = true -> existsb isShOption opts = true.
Proof.
  induction opts as [| o rest IH]; [discriminate |]. cbn [existsb].
  intros H. apply orb_true_iff in H as [H | H].
  - unfold isShOption. now rewrite H.
  - rewrite (IH H). apply orb_true_r.
Qed.

(** X4. The number of SH bands. [--sh=N] with a number [N] asks for [N] bands,
    except that [--sh=0] gives 1 band and a negative [N] wraps as a
    [size_t]; [--sh] with no number, or with something that is not one,
    keeps the default of 3; a number that does not fit an [int] ends the
    process, so the handler does not come back. With none of the SH options
    no SH is computed, and [--sh-output], [--sh-irradiance] or [--sh-shader]
    alone give 3 bands. *)
Theorem sh_band_count :
  (forall before arg after s s',
     existsb (isOption "z") after = false ->
     handleCommandLineArgments (before ++ ("z"%char, Some arg) :: after) s
       = (Returns tt, s') ->
     match stoi arg with
     | Converted v => g_sh_compute (globals s') = if v =? 0 then 1 else size_t v
     | invalid_argument =>
         existsb (isOption "z") before = false -> g_sh_compute (globals s') = 3
     | out_of_range => False
     end) /\
  (forall opts s s',
     existsb (isOption "z") opts = false ->
     g_sh_compute (globals s) = 0 ->
     handleCommandLineArgments opts s = (Returns tt, s') ->
     g_sh_compute (globals s') = if existsb isShOption opts then 3 else 0).
Proof.
  split.
  - intros before arg after s s' Na R.
    apply handleCommandLineArgments_returns in R
      as [lc [s1 [L [_ [_ [_ [_ [_ [_ [_ [_ C]]]]]]]]]]].
    pose proof (optionLoop_g_sh_compute _ _ _ _ _ L) as One.
    rewrite existsb_app in One. cbn [existsb] in One.
    replace (isShOption ("z"%char, Some arg)) with true in One by reflexivity.
    rewrite orb_true_r in One. rewrite One in C. cbn [Z.eqb negb andb] in C.
    rewrite andb_true_r in C.
    rewrite optionLoop_app in L. apply bind_returns in L as [lcb [sb [B L]]].
    simpl optionLoop in L. apply bind_returns in L as [lc1 [s2 [H A]]].
    apply optionLoop_locals in A as [_ [_ [_ Keep]]]. specialize (Keep Na).
    rewrite Keep in C. clear Keep.
    unfold handleOption, bind, modify, ret, terminate in H. cbn in H.
    destruct (stoi arg) as [v | |].
    + injection H as <- _. cbn [num_sh_bands set_num_sh_bands] in C.
      rewrite C. destruct (v =? 0); reflexivity.
    + injection H as <- _. intros Nb.
      apply optionLoop_locals in B as [_ [_ [_ Keep]]]. rewrite (Keep Nb) in C.
      exact C.
    + discriminate.
  - intros opts s s' Nz Z R.
    apply handleCommandLineArgments_returns in R
      as [lc [s1 [L [_ [_ [_ [_ [_ [_ [_ [_ C]]]]]]]]]]].
    rewrite (optionLoop_g_sh_compute _ _ _ _ _ L), Z in C.
    apply optionLoop_locals in L as [_ [_ [_ Keep]]]. rewrite (Keep Nz) in C.
    rewrite C. destruct (existsb isShOption opts); reflexivity.
Qed.

(** An uncaught exception in the option loop ends [main]. *)
Lemma main_terminates_at_option before opt optarg after args lc s0 s s' :
  optionLoop before initial_locals s0 = (Returns lc, s) ->
  handleOption opt (match optarg with Some a => a | None => "" end) lc s
    = (Terminates, s') ->
  main (before ++ (opt, optarg) :: after) args s0 = (Terminates, s').
Proof.
  intros B H. unfold main, handleCommandLineArgments. unfold bind.
  rewrite optionLoop_app. unfold bind. rewrite B.
  simpl optionLoop. unfold bind. rewrite H. reflexivity.
Qed.

(** X5. Numbers on the command line that are not numbers. [--size],
    [--extract-blur] and [--ibl-samples] convert their argument with
    [std::stoul], [std::stod] and [std::stoi] outside any [try]: when the
    conversion throws, the process ends by the uncaught exception, with no
    diagnostic of the driver's own. [--sh] catches [std::invalid_argument]
    only: a number that is out of range ends the process as well, after the
    option has switched the SH output on. *)
Theorem unparsable_numbers_terminate before after args lc s0 s arg :
  optionLoop before initial_locals s0 = (Returns lc, s) ->
  (throws (stoul arg) = true ->
   main (before ++ ("s"%char, Some arg) :: after) args s0 = (Terminates, s)) /\
  (throws (stod arg) = true ->
   main (before ++ ("r"%char, Some arg) :: after) args s0 = (Terminates, s)) /\
  (throws (stoi arg) = true ->
   main (before ++ ("k"%char, Some arg) :: after) args s0 = (Terminates, s)) /\
  (stoi arg = out_of_range ->
   main (before ++ ("z"%char, Some arg) :: after) args s0 =
     (Terminates,
      mk_State (set_g_sh_output true (set_g_sh_compute 1 (globals s)))
        (trace s) (store s) (made s))).
Proof.
  intros B. repeat split.
  - intros N. apply (main_terminates_at_option before "s"%char (Some arg) after args lc s0 s s B).
    unfold handleOption. destruct (stoul arg); [discriminate |..]; reflexivity.
  - intros N. apply (main_terminates_at_option before "r"%char (Some arg) after args lc s0 s s B).
    unfold handleOption. destruct (stod arg); [discriminate |..]; reflexivity.
  - intros N. apply (main_terminates_at_option before "k"%char (Some arg) after args lc s0 s s B).
    unfold handleOption. destruct (stoi arg); [discriminate |..]; reflexivity.
  - intros O. apply (main_terminates_at_option before "z"%char (Some arg) after args lc s0 s _ B).
    unfold handleOption. rewrite O. reflexivity.
Qed.

(** X6. The check of [--extract-blur]: a value below 0 or above 1 ends the
    process with the diagnostic and status 0, the value already stored; any
    other value is kept and the loop goes on. A NaN is neither below 0 nor
    above 1, so it is kept. *)
Theorem extract_blur_check before after args lc s0 s arg v :
  optionLoop before initial_locals s0 = (Returns lc, s) ->
  stod arg = Converted v ->
  (PrimFloat.ltb v 0 || PrimFloat.ltb 1 v = true ->
   main (before ++ ("r"%char, Some arg) :: after) args s0 =
     (Exits 0,
      mk_State (set_g_extract_blur v (globals s))
        (trace s ++ [Stderr RoughnessOutOfRange]) (store s) (made s))) /\
  (PrimFloat.ltb v 0 || PrimFloat.ltb 1 v = false ->
   handleOption "r" arg lc s =
     (Returns lc, mk_State (set_g_extract_blur v (globals s)) (trace s) (store s) (made s))) /\
  (PrimFloat.is_nan v = true ->
   handleOption "r" arg lc s =
     (Returns lc, mk_State (set_g_extract_blur v (globals s)) (trace s) (store s) (made s))).
Proof.
  intros B C.
  assert (In_range : PrimFloat.ltb v 0 || PrimFloat.ltb 1 v = false ->
            handleOption "r" arg lc s =
              (Returns lc,
               mk_State (set_g_extract_blur v (globals s)) (trace s) (store s) (made s))).
  { intros R. unfold handleOption. rewrite C. unfold bind, modify, ret. cbn.
    rewrite R. reflexivity. }
  split; [| split; [exact In_range |]].
  - intros R.
    apply (main_exits_at_option before "r"%char (Some arg) after args lc s0 s _ _ B).
    unfold handleOption. rewrite C. unfold bind, modify, emit, exit. cbn.
    rewrite R. reflexivity.
  - intros N. apply In_range, nan_not_outside, N.
Qed.

End CommandLine.

(** ** Help, license and unknown options *)

(** The options the [switch] has a case for, [h] apart (it shares the
    default case). *)
Definition knownOption (c : ascii) : bool :=
  existsb (Ascii.eqb c) (list_ascii_of_string "lqtfcszoiberypPaukxdm").

Section Help.
Context {collaborators : Collaborators}.

(** X7. [--help], and any option character the [switch] has no case for (the
    [?] that [getopt_long] returns for an option it does not know, for
    one): the usage is printed and the process ends with status 0, once the
    options before it have been handled; what follows on the command line
    is not looked at. [--license] ends the run the same way after the
    licences. The call of [printUsage] is the event [Usage]; when that call
    comes back is the subject of the section on the usage message. *)
Theorem help_and_unknown_options before opt optarg after args lc s0 s :
  optionLoop before initial_locals s0 = (Returns lc, s) ->
  (knownOption opt = false ->
   main (before ++ (opt, optarg) :: after) args s0 =
     (Exits 0, mk_State (globals s) (trace s ++ [Usage]) (store s) (made s))) /\
  (opt = "l"%char ->
   main (before ++ (opt, optarg) :: after) args s0 =
     (Exits 0, mk_State (globals s) (trace s ++ [License]) (store s) (made s))).
Proof.
  intros B. split.
  - intros U. apply (main_exits_at_option before opt optarg after args lc s0 s _ _ B).
    destruct opt as [b0 b1 b2 b3 b4 b5 b6 b7].
    destruct b0, b1, b2, b3, b4, b5, b6, b7; try discriminate U; reflexivity.
  - intros ->. apply (main_exits_at_option before "l"%char optarg after args lc s0 s _ _ B).
    reflexivity.
Qed.

End Help.

(** ** The usage message *)

Section UsageMessage.

Import UsageText.
Local Open Scope nat_scope.

(** [from] begins at position [i] of [s]. *)
Definition occursAt (from s : list ascii) (i : nat) : Prop :=
  startsWith from (skipn i s) = true.

Lemma startsWith_length from : forall s,
  startsWith from s = true -> (List.length from <= List.length s)%nat.
Proof.
  induction from as [| a from IH]; intros [| c s]; simpl; try lia; try discriminate.
  intros H. apply andb_prop in H as [_ H]. apply IH in H. lia.
Qed.

Lemma startsWith_app from : forall a b,
  startsWith from a = true -> startsWith from (a ++ b) = true.
Proof.
  induction from as [| x from IH]; intros [| c a] b; simpl; try reflexivity;
    try discriminate.
  intros H. apply andb_prop in H as [E H]. rewrite E. simpl. now apply IH.
Qed.

Lemma occursAt_length from s i :
  from <> [] -> occursAt from s i -> (i + List.length from <= List.length s)%nat.
Proof.
  intros N O. apply startsWith_length in O. rewrite length_skipn in O.
  destruct from; [contradiction | simpl in *; lia].
Qed.

Lemma find_bounds s from : forall pos q,
  find s from pos = Some q -> (pos <= q)%nat /\ occursAt from s q.
Proof.
  induction s as [| c s IH]; intros pos q.
  - destruct pos; simpl; [| discriminate].
    destruct (startsWith from []) eqn:E; [| discriminate].
    intros [= <-]. split; [lia | exact E].
  - destruct pos as [| pos]; simpl.
    + destruct (startsWith from (c :: s)) eqn:E.
      * intros [= <-]. split; [lia | exact E].
      * destruct (find s from 0) as [q' |] eqn:F; [| discriminate].
        intros [= <-]. destruct (IH _ _ F) as [_ O]. split; [lia | exact O].
    + destruct (find s from pos) as [q' |] eqn:F; [| discriminate].
      intros [= <-]. destruct (IH _ _ F) as [L O]. split; [lia | exact O].
Qed.

(** An occurrence at or after [pos] is found, there or before. *)
Lemma find_finds from : from <> [] -> forall s pos i,
  (pos <= i)%nat -> occursAt from s i ->
  exists q, find s from pos = Some q /\ (q <= i)%nat.
Proof.
  intros N. induction s as [| c s IH]; intros pos i L O.
  - apply occursAt_length in O; [| exact N].
    destruct from; [contradiction | simpl in O; lia].
  - destruct pos as [| pos]; simpl.
    + destruct (startsWith from (c :: s)) eqn:E.
      * exists 0%nat. split; [reflexivity | lia].
      * destruct i as [| i]; [unfold occursAt in O; simpl in O; congruence |].
        destruct (IH 0%nat i ltac:(lia) O) as [q [F Q]]. rewrite F.
        exists (S q). split; [reflexivity | lia].
    + destruct i as [| i]; [lia |].
      destruct (IH pos i ltac:(lia) O) as [q [F Q]]. rewrite F.
      exists (S q). split; [reflexivity | lia].
Qed.

(** The search past a prefix is the search in what follows it. *)
Lemma find_app_skip from a : forall x,
  find (a ++ x) from (List.length a) = option_map (Nat.add (List.length a)) (find x from 0).
Proof.
  induction a as [| c a IH]; intros x; simpl.
  - destruct (find x from 0); reflexivity.
  - rewrite IH. destruct (find x from 0); reflexivity.
Qed.

(** [clean from e b]: no occurrence of [from] in [e ++ b] begins in [e]. *)
Definition clean (from e b : list ascii) : Prop :=
  forall i, (i < List.length e)%nat -> ~ occursAt from (e ++ b) i.

Lemma find_clean from : forall e b,
  clean from e b ->
  find (e ++ b) from 0 = option_map (Nat.add (List.length e)) (find b from 0).
Proof.
  induction e as [| c e IH]; intros b C; simpl.
  - destruct (find b from 0); reflexivity.
  - destruct (startsWith from (c :: e ++ b)) eqn:E.
    + elim (C 0%nat); [simpl; lia | exact E].
    + rewrite IH.
      * destruct (find b from 0); reflexivity.
      * intros i Hi O. apply (C (S i)); [simpl; lia | exact O].
Qed.

(** An occurrence that begins in [e] lies in [e], or its tail begins [b]. *)
Lemma startsWith_app_split (from : list ascii) : forall e b,
  e <> [] -> startsWith from (e ++ b) = true ->
  startsWith from e = true \/
  exists n, (0 < n < List.length from)%nat /\ startsWith (skipn n from) b = true.
Proof.
  induction from as [| a from IH]; intros e b N H.
  - left. reflexivity.
  - destruct e as [| c e]; [contradiction |]. simpl in H.
    apply andb_prop in H as [E H].
    destruct e as [| c' e].
    + destruct from as [| a' from'].
      * left. simpl. now rewrite E.
      * right. exists 1%nat. split; [simpl; lia | exact H].
    + destruct (IH (c' :: e) b ltac:(discriminate) H) as [L | [n [Hn R]]].
      * left. simpl. simpl in L. now rewrite E, L.
      * right. exists (S n). split; [simpl; lia | exact R].
Qed.

(** No proper tail of [from] begins [b]. *)
Definition noStraddle (from b : list ascii) : bool :=
  forallb (fun n => negb (startsWith (skipn n from) b)) (seq 1 (List.length from - 1)).

Lemma clean_intro from e b :
  from <> [] -> find e from 0 = None -> noStraddle from b = true -> clean from e b.
Proof.
  intros N F S i Hi O. unfold occursAt in O.
  rewrite skipn_app in O. replace (i - List.length e)%nat with 0%nat in O by lia.
  simpl skipn in O.
  apply startsWith_app_split in O.
  - destruct O as [O | [n [Hn O]]].
    + destruct (find_finds from N e 0%nat i ltac:(lia) O) as [q [Q _]]. congruence.
    + unfold noStraddle in S. rewrite forallb_forall in S.
      specialize (S n). rewrite O in S. discriminate S. apply in_seq. lia.
  - intros E. apply (f_equal (@List.length ascii)) in E.
    rewrite length_skipn in E. simpl in E. lia.
Qed.

Section Substitution.

Variable exec_name : list ascii.

(** One turn of the loop when the name brings no new occurrence: the
    occurrence at [k] in the part [b] still to be searched is replaced, and
    the search goes on in what follows it. *)
Lemma substitute_step turns d b k :
  find b from 0 = Some k ->
  clean from exec_name (skipn (k + List.length from) b) ->
  substitute (S turns) exec_name (d ++ b) (Some (List.length d + k)%nat) =
    substitute turns exec_name
      ((d ++ firstn k b ++ exec_name) ++ skipn (k + List.length from) b)
      (option_map (Nat.add (List.length (d ++ firstn k b ++ exec_name)))
         (find (skipn (k + List.length from) b) from 0)).
Proof.
  intros F C.
  destruct (find_bounds _ _ _ _ F) as [_ O].
  apply occursAt_length in O; [| discriminate].
  assert (Lk : List.length (firstn k b) = k) by (rewrite length_firstn; lia).
  cbn [substitute]. cbv zeta. unfold replace.
  assert (E1 : firstn (List.length d + k) (d ++ b) = d ++ firstn k b).
  { rewrite firstn_app, firstn_all2 by lia. f_equal. f_equal. lia. }
  assert (E2 : skipn (List.length d + k + List.length from) (d ++ b)
               = skipn (k + List.length from) b).
  { rewrite skipn_app, skipn_all2 by lia. simpl. f_equal. lia. }
  rewrite E1, E2.
  set (b' := skipn (k + List.length from) b) in *.
  replace ((d ++ firstn k b) ++ exec_name ++ b')
    with ((d ++ firstn k b ++ exec_name) ++ b') by (now rewrite <- !app_assoc).
  f_equal.
  replace (List.length d + k)%nat with (List.length (d ++ firstn k b))
    by (rewrite length_app; lia).
  replace ((d ++ firstn k b ++ exec_name) ++ b')
    with ((d ++ firstn k b) ++ (exec_name ++ b')) by (now rewrite <- !app_assoc).
  rewrite find_app_skip, (find_clean _ _ _ C).
  destruct (find b' from 0) as [k' |]; [| reflexivity].
  simpl. f_equal. rewrite !length_app. lia.
Qed.

(** A name in which [from] occurs: every turn finds an occurrence again. *)
Lemma substitute_loops k :
  occursAt from exec_name k ->
  forall turns usage p,
    (p <= List.length usage)%nat ->
    substitute turns exec_name usage (Some p) = None.
Proof.
  intros O. induction turns as [| turns IH]; intros usage p L; [reflexivity |].
  cbn [substitute]. cbv zeta. unfold replace.
  set (usage' := firstn p usage ++ exec_name ++ skipn (p + List.length from) usage).
  assert (Lp : List.length (firstn p usage) = p) by (rewrite length_firstn; lia).
  pose proof (occursAt_length from exec_name k ltac:(discriminate) O) as Lk.
  assert (O' : occursAt from usage' (p + k)).
  { unfold occursAt, usage'. rewrite skipn_app, Lp.
    rewrite skipn_all2 by lia. rewrite app_nil_l.
    replace (p + k - p)%nat with k by lia.
    rewrite skipn_app. apply startsWith_app. exact O. }
  destruct (find_finds from ltac:(discriminate) usage' p (p + k)%nat ltac:(lia) O')
    as [q [F Q]].
  rewrite F. apply IH.
  unfold usage'. rewrite !length_app, Lp. lia.
Qed.

End Substitution.

Lemma substitute_done turns exec_name usage :
  substitute turns exec_name usage None = Some usage.
Proof. destruct turns; reflexivity. Qed.

Lemma append_assoc (a b c : string) :
  String.append (String.append a b) c = String.append a (String.append b c).
Proof. induction a as [| x a IH]; simpl; [reflexivity | now rewrite IH]. Qed.

Lemma string_of_list_ascii_app a b :
  string_of_list_ascii (a ++ b)
    = String.append (string_of_list_ascii a) (string_of_list_ascii b).
Proof. induction a as [| c a IH]; simpl; [reflexivity | now rewrite IH]. Qed.

(** X8. The usage message for an executable whose name does not contain
    [CMGEN]: the loop ends after three turns, and the text printed is the
    usage text with the executable's name in place of each of the three
    occurrences of [CMGEN] (at offsets 0, 227 and 260), the rest of the
    text as it is. *)
Theorem printUsage_substitutes (exec_name : string) (turns : nat) :
  find (list_ascii_of_string exec_name) from 0 = None ->
  (3 <= turns)%nat ->
  printUsage turns exec_name =
    Some (String.append exec_name
            (String.append (substring 5 222 usage)
               (String.append exec_name
                  (String.append (substring 232 28 usage)
                     (String.append exec_name (substring 265 2664 usage)))))).
Proof.
  intros N T.
  destruct turns as [| [| [| turns]]]; try lia. clear T.
  unfold printUsage. cbv zeta.
  set (text := list_ascii_of_string usage).
  set (exec := list_ascii_of_string exec_name) in *.
  set (b1 := skipn (0 + List.length from) text).
  set (b2 := skipn (222 + List.length from) b1).
  set (b3 := skipn (28 + List.length from) b2).
  assert (F0 : find text from 0 = Some 0%nat) by (vm_compute; reflexivity).
  assert (F1 : find b1 from 0 = Some 222%nat) by (vm_compute; reflexivity).
  assert (F2 : find b2 from 0 = Some 28%nat) by (vm_compute; reflexivity).
  assert (F3 : find b3 from 0 = None) by (vm_compute; reflexivity).
  assert (C1 : clean from exec b1)
    by (apply clean_intro; [discriminate | exact N | vm_compute; reflexivity]).
  assert (C2 : clean from exec b2)
    by (apply clean_intro; [discriminate | exact N | vm_compute; reflexivity]).
  assert (C3 : clean from exec b3)
    by (apply clean_intro; [discriminate | exact N | vm_compute; reflexivity]).
  rewrite F0.
  change text with ([] ++ text) at 1.
  change (Some 0%nat) with (Some (List.length (@nil ascii) + 0)%nat).
  rewrite (substitute_step exec _ [] text 0 F0 C1). fold b1. rewrite F1.
  cbn [option_map].
  rewrite (substitute_step exec _ _ b1 222 F1 C2). fold b2. rewrite F2.
  cbn [option_map].
  rewrite (substitute_step exec _ _ b2 28 F2 C3). fold b3. rewrite F3.
  cbn [option_map]. rewrite substitute_done. cbn [option_map].
  f_equal.
  rewrite !string_of_list_ascii_app. cbn [string_of_list_ascii firstn].
  unfold exec. rewrite !string_of_list_ascii_of_string.
  replace (string_of_list_ascii (firstn 222 b1)) with (substring 5 222 usage)
    by (vm_compute; reflexivity).
  replace (string_of_list_ascii (firstn 28 b2)) with (substring 232 28 usage)
    by (vm_compute; reflexivity).
  replace (string_of_list_ascii b3) with (substring 265 2664 usage)
    by (vm_compute; reflexivity).
  cbn [String.append]. rewrite !append_assoc. reflexivity.
Qed.

(** X9. The usage message for an executable whose name contains [CMGEN]: each
    replacement brings a new occurrence at or after the place the search
    restarts from, so the loop never ends and nothing is printed. *)
Theorem printUsage_never_ends (exec_name : string) (k turns : nat) :
  find (list_ascii_of_string exec_name) from 0 = Some k ->
  printUsage turns exec_name = None.
Proof.
  intros F. unfold printUsage. cbv zeta.
  destruct (find_bounds _ _ _ _ F) as [_ O].
  replace (find (list_ascii_of_string usage) from 0) with (Some 0%nat)
    by (vm_compute; reflexivity).
  rewrite (substitute_loops _ k O); [reflexivity | lia].
Qed.

End UsageMessage.

(** ** Exit statuses

    [exitsWith P c]: whenever [c] ends the process by [exit], the status
    satisfies [P]; [returnsOnly Q c]: whenever [c] returns, its value
    satisfies [Q]. *)

Definition exitsWith {A} (P : Z -> Prop) (c : M A) : Prop :=
  forall s n, fst (c s) = Exits n -> P n.

Definition returnsOnly {A} (Q : A -> Prop) (c : M A) : Prop :=
  forall s a, fst (c s) = Returns a -> Q a.

Lemma exitsWith_never {A} P (c : M A) :
  (forall s n, fst (c s) <> Exits n) -> exitsWith P c.
Proof. intros H s n E. elim (H s n E). Qed.

Lemma exitsWith_exit {A} (P : Z -> Prop) n : P n -> exitsWith P (@exit A n).
Proof. intros H s m [= <-]. exact H. Qed.

Lemma exitsWith_bind {A B} P (c : M A) (k : A -> M B) :
  exitsWith P c -> (forall a, exitsWith P (k a)) -> exitsWith P (bind c k).
Proof.
  intros Hc Hk s n. unfold bind. specialize (Hc s).
  destruct (c s) as [[a | m | | ] s1]; cbn [fst] in *; try discriminate.
  - apply Hk.
  - intros [= <-]. now apply Hc.
Qed.

Lemma exitsWith_when P c k : exitsWith P k -> exitsWith P (when c k).
Proof. destruct c; simpl; [trivial | intros _ s n; discriminate]. Qed.

Lemma exitsWith_forEach {A} P (l : list A) body :
  (forall a, exitsWith P (body a)) -> exitsWith P (forEach l body).
Proof.
  intros H. induction l as [| a l IH]; simpl.
  - intros s n; discriminate.
  - apply exitsWith_bind; [apply H | intros; exact IH].
Qed.

Lemma exitsWith_loadAll P levels : exitsWith P (loadAll levels).
Proof.
  intros s n. rewrite loadAll_run. discriminate.
Qed.

Ltac exits_step :=
  match goal with
  | |- exitsWith _ (bind _ _) => apply exitsWith_bind; [| intros ?]
  | |- exitsWith _ (exit _) => apply exitsWith_exit; auto
  | |- exitsWith _ (when _ _) => apply exitsWith_when
  | |- exitsWith _ (forEach _ _) => apply exitsWith_forEach; intros ?
  | |- exitsWith _ (loadAll _) => apply exitsWith_loadAll
  | |- exitsWith _ (match ?x with _ => _ end) => destruct x
  | |- exitsWith _ _ => assumption
  | |- exitsWith _ _ => apply exitsWith_never; intros ? ?; discriminate
  end.

Ltac exits_auto := repeat exits_step.

Lemma returnsOnly_bind {A B} Q (c : M A) (k : A -> M B) :
  (forall a, returnsOnly Q (k a)) -> returnsOnly Q (bind c k).
Proof.
  intros Hk s b. unfold bind.
  destruct (c s) as [[a | m | | ] s1]; cbn [fst]; try discriminate.
  apply Hk.
Qed.

Lemma returnsOnly_ret {A} (Q : A -> Prop) a : Q a -> returnsOnly Q (ret a).
Proof. intros H s b [= <-]. exact H. Qed.

Section Statuses.
Context {collaborators : Collaborators}.

Lemma exitsWith_handleOption opt arg lc :
  exitsWith (fun n => n = 0) (handleOption opt arg lc).
Proof. unfold handleOption, if_then. exits_auto. Qed.

Lemma exitsWith_optionLoop opts : forall lc,
  exitsWith (fun n => n = 0) (optionLoop opts lc).
Proof.
  induction opts as [| [opt optarg] rest IH]; intros lc; simpl.
  - exits_auto.
  - apply exitsWith_bind; [apply exitsWith_handleOption | intros; apply IH].
Qed.

Lemma exitsWith_handleCommandLineArgments opts :
  exitsWith (fun n => n = 0) (handleCommandLineArgments opts).
Proof.
  unfold handleCommandLineArgments.
  apply exitsWith_bind; [apply exitsWith_optionLoop | intros lc]. exits_auto.
Qed.

Lemma exitsWith_saveImage path format image compression :
  exitsWith (fun n => n = 1) (saveImage path format image compression).
Proof. unfold saveImage. exits_auto. Qed.

Lemma exitsWith_ensureDirectory P dir : exitsWith P (ensureDirectory dir).
Proof. unfold ensureDirectory, exists_now. exits_auto. Qed.

Lemma exitsWith_outputSh P out sh n : exitsWith P (outputSh out sh n).
Proof. unfold outputSh. exits_auto. Qed.

Lemma exitsWith_iblLutDfg filename size multiscatter :
  exitsWith (fun n => n = 1) (iblLutDfg filename size multiscatter).
Proof.
  unfold iblLutDfg. exits_auto;
    first [apply exitsWith_ensureDirectory | apply exitsWith_saveImage].
Qed.

Lemma exitsWith_exportKtxFaceLoop P js compression miplevel cm :
  forall container, exitsWith P (exportKtxFaceLoop js compression miplevel cm container).
Proof.
  induction js as [| j js IH]; intros container; simpl.
  - exits_auto.
  - apply exitsWith_bind; [| intros; apply IH].
    unfold exportKtxFace, getImageForFace. exits_auto.
Qed.

Lemma exitsWith_exportKtxFaces container miplevel cm :
  exitsWith (fun n => n = 1) (exportKtxFaces container miplevel cm).
Proof.
  unfold exportKtxFaces. exits_auto. apply exitsWith_exportKtxFaceLoop.
Qed.

Ltac exits_stage :=
  exits_auto;
  first [ apply exitsWith_ensureDirectory | apply exitsWith_saveImage
        | apply exitsWith_outputSh | apply exitsWith_exportKtxFaces ].

Lemma exitsWith_sphericalHarmonics iname cm :
  exitsWith (fun n => n = 1) (sphericalHarmonics iname cm).
Proof.
  unfold sphericalHarmonics, renderSH, renderPreScaledSH3Bands, create, pixelsOf.
  repeat exits_stage.
Qed.

Lemma exitsWith_iblMipmapPrefilter iname images levels dir :
  exitsWith (fun n => n = 1) (iblMipmapPrefilter iname images levels dir).
Proof.
  unfold iblMipmapPrefilter, cubemapToEquirectangular, cubemapToOctahedron,
    getImageForFace, pixelsOf.
  repeat exits_stage.
Qed.

Lemma exitsWith_prefilterLoop iname outputDir levels baseExp numLevels turns :
  forall numSamples container,
    exitsWith (fun n => n = 1)
      (prefilterLoop turns iname outputDir levels baseExp numLevels numSamples container).
Proof.
  induction turns as [| i IH]; intros numSamples container; simpl.
  - exits_auto.
  - apply exitsWith_bind; [| intros [n c]; apply IH].
    unfold prefilterLevel, prefilterOutput, roughnessFilter, makeSeamless, create,
      cubemapToEquirectangular, cubemapToOctahedron, getImageForFace, pixelsOf.
    repeat exits_stage.
Qed.

Lemma exitsWith_iblRoughnessPrefilter iname levels dir :
  exitsWith (fun n => n = 1) (iblRoughnessPrefilter iname levels dir).
Proof.
  unfold iblRoughnessPrefilter.
  apply exitsWith_bind; [apply exitsWith_ensureDirectory | intros _].
  apply exitsWith_bind; [exits_auto | intros gl].
  destruct (builtin_ctz _); [| exits_auto].
  apply exitsWith_bind; [apply exitsWith_prefilterLoop | intros c]. exits_auto.
Qed.

Lemma exitsWith_iblDiffuseIrradiance iname levels dir :
  exitsWith (fun n => n = 1) (iblDiffuseIrradiance iname levels dir).
Proof.
  unfold iblDiffuseIrradiance, diffuseIrradiance, renderSH, create, getImageForFace,
    pixelsOf.
  repeat exits_stage.
Qed.

Lemma exitsWith_extractCubemapFaces iname cm dir :
  exitsWith (fun n => n = 1) (extractCubemapFaces iname cm dir).
Proof.
  unfold extractCubemapFaces, cubemapToEquirectangular, cubemapToOctahedron,
    getImageForFace.
  repeat exits_stage.
Qed.

Lemma exitsWith_runStages iname images levels :
  exitsWith (fun n => n = 1) (runStages iname images levels).
Proof.
  unfold runStages, roughnessFilter, create, say.
  exits_auto;
    first [ apply exitsWith_sphericalHarmonics | apply exitsWith_iblMipmapPrefilter
          | apply exitsWith_iblRoughnessPrefilter | apply exitsWith_iblDiffuseIrradiance
          | apply exitsWith_extractCubemapFaces ].
Qed.


Lemma exitsWith_mipLoop P dim : forall mipLevel levels images,
  exitsWith P (mipLoop dim mipLevel levels images).
Proof.
  induction dim as [half IH | half IH |]; intros m levels images; simpl.
  3: exits_auto.
  all: apply exitsWith_bind; [| intros [l i]; apply IH];
    unfold mipStep, downsampleCubemapLevelBoxFilter, makeSeamless, create; exits_auto.
Qed.

Lemma exitsWith_buildLevels iname :
  exitsWith (fun n => n = 0 \/ n = 1) (buildLevels iname).
Proof.
  unfold buildLevels, loadInput, loadImage, generateSynthetic, mirrorStage, generateMipmaps,
    makeSeamless, create, say.
  exits_auto; apply exitsWith_mipLoop.
Qed.

Lemma exitsWith_weaken {A} (P Q : Z -> Prop) (c : M A) :
  (forall n, P n -> Q n) -> exitsWith P c -> exitsWith Q c.
Proof. intros W H s n E. apply W, (H s n E). Qed.

(** X10. The statuses of the process. [main] returns 0 or 1 and every [exit] it
    reaches has status 0 or 1. The option handler exits with status 0 only
    (usage, license, and its two range checks); the DFG stage and the stages
    that follow the mip chain exit with status 1 only (an image that cannot
    be encoded, a compression string that is not recognised). *)
Theorem process_statuses :
  (forall opts args s,
     match fst (main opts args s) with
     | Returns v => v = 0 \/ v = 1
     | Exits n => n = 0 \/ n = 1
     | _ => True
     end) /\
  (forall opts s,
     match fst (handleCommandLineArgments opts s) with Exits n => n = 0 | _ => True end) /\
  (forall filename size multiscatter s,
     match fst (iblLutDfg filename size multiscatter s) with
     | Exits n => n = 1
     | _ => True
     end) /\
  (forall iname images levels s,
     match fst (runStages iname images levels s) with Exits n => n = 1 | _ => True end).
Proof.
  split; [| split; [| split]].
  - intros opts args s.
    assert (E : exitsWith (fun n => n = 0 \/ n = 1) (main opts args)).
    { unfold main.
      apply exitsWith_bind;
        [apply (exitsWith_weaken (fun n => n = 0)); [auto | apply exitsWith_handleCommandLineArgments] |
         intros _].
      apply exitsWith_bind; [exits_auto | intros gl].
      destruct (negb (g_dfg gl) && _); [exits_auto |].
      apply exitsWith_bind.
      { apply exitsWith_when, exitsWith_bind; [unfold say; exits_auto | intros _].
        apply (exitsWith_weaken (fun n => n = 1)); [auto | apply exitsWith_iblLutDfg]. }
      intros _. destruct (g_dfg gl && _); [exits_auto |].
      destruct args as [| iname rest]; [exits_auto |].
      apply exitsWith_bind; [unfold deploySettings; exits_auto | intros _].
      apply exitsWith_bind; [apply exitsWith_buildLevels | intros [images levels]].
      apply exitsWith_bind; [| intros; exits_auto].
      apply (exitsWith_weaken (fun n => n = 1)); [auto | apply exitsWith_runStages]. }
    assert (R : returnsOnly (fun v => v = 0 \/ v = 1) (main opts args)).
    { unfold main.
      apply returnsOnly_bind; intros _. apply returnsOnly_bind; intros gl.
      destruct (negb (g_dfg gl) && _).
      - apply returnsOnly_bind; intros _. apply returnsOnly_ret. auto.
      - apply returnsOnly_bind; intros _.
        destruct (g_dfg gl && _); [apply returnsOnly_ret; auto |].
        destruct args as [| iname rest]; [intros s1 a; discriminate |].
        apply returnsOnly_bind; intros _. apply returnsOnly_bind; intros [images levels].
        apply returnsOnly_bind; intros _. apply returnsOnly_ret. auto. }
    specialize (E s). specialize (R s).
    destruct (fst (main opts args s)) as [v | n | |]; auto.
  - intros opts s. pose proof (exitsWith_handleCommandLineArgments opts s) as E.
    destruct (fst (handleCommandLineArgments opts s)); auto.
  - intros filename size multiscatter s.
    pose proof (exitsWith_iblLutDfg filename size multiscatter s) as E.
    destruct (fst (iblLutDfg filename size multiscatter s)); auto.
  - intros iname images levels s.
    pose proof (exitsWith_runStages iname images levels s) as E.
    destruct (fst (runStages iname images levels s)); auto.
Qed.

End Statuses.

(** ** A run without an input *)

Section NoInput.
Context {collaborators : Collaborators}.

(** [ensureDirectory], computed: the directory is made unless it exists. *)
Definition directoryEvents (s : State) (dir : string) : list Event :=
  if exists_on_disk dir || existsb (String.eqb dir) (made s) then [] else [Mkdir dir].

Definition directoriesAfter (s : State) (dir : string) : list string :=
  if exists_on_disk dir || existsb (String.eqb dir) (made s) then made s else dir :: made s.

Lemma ensureDirectory_exact dir s :
  ensureDirectory dir s =
    (Returns tt,
     mk_State (globals s) (trace s ++ directoryEvents s dir) (store s)
       (directoriesAfter s dir)).
Proof.
  unfold ensureDirectory, exists_now, directoryEvents, directoriesAfter, bind, when, emit.
  destruct (exists_on_disk dir || existsb (String.eqb dir) (made s)); cbn.
  - rewrite app_nil_r. destruct s; reflexivity.
  - reflexivity.
Qed.

(** The DFG stage, computed. *)
Lemma iblLutDfg_run filename size multiscatter s :
  let s1 := mk_State (globals s) (trace s ++ [Ran (CubemapIBL_DFG size multiscatter)])
              (store s ++ [DFG multiscatter]) (made s) in
  let dir := getParent (getAbsolutePath filename) in
  let format := chooseFormat (getName filename) true in
  iblLutDfg filename size multiscatter s =
    if isTextFile filename then
      (Returns tt,
       mk_State (globals s)
         (trace s ++ [Ran (CubemapIBL_DFG size multiscatter)] ++ directoryEvents s dir
            ++ [WroteDfgText filename size (isIncludeFile filename)])
         (store s ++ [DFG multiscatter]) (directoriesAfter s dir))
    else
      (if encode format (DFG multiscatter) (g_compression (globals s)) filename
       then Returns tt else Exits 1,
       mk_State (globals s)
         (trace s ++ [Ran (CubemapIBL_DFG size multiscatter)] ++ directoryEvents s dir
            ++ [Encoded filename format (DFG multiscatter) (g_compression (globals s))])
         (store s ++ [DFG multiscatter]) (directoriesAfter s dir)).
Proof.
  intros s1 dir format. unfold iblLutDfg.
  unfold bind at 1. unfold emit at 1. unfold bind at 1. unfold allocate at 1.
  cbn [globals trace store made]. unfold bind at 1. rewrite ensureDirectory_exact.
  cbn [globals trace store made].
  change (directoryEvents (mk_State ?g ?t ?st (made s)) ?d) with (directoryEvents s d).
  change (directoriesAfter (mk_State ?g ?t ?st (made s)) ?d) with (directoriesAfter s d).
  destruct (isTextFile filename).
  - unfold emit. cbn [globals trace store made]. rewrite <- !app_assoc. reflexivity.
  - unfold bind, get, load, saveImage, emit, texelsOf. cbn [globals trace store made].
    rewrite nth_length. fold dir format. rewrite <- !app_assoc. cbn [app].
    unfold bind.
    destruct (encode format (DFG multiscatter) (g_compression (globals s)) filename);
      unfold ret, exit; cbn [globals trace store made]; rewrite <- ?app_assoc; reflexivity.
Qed.


Lemma say_run line s :
  say line s =
    (Returns tt,
     mk_State (globals s) (trace s ++ greeting (globals s) line) (store s) (made s)).
Proof.
  unfold say, greeting, bind, get, when, emit, ret.
  destruct (g_quiet (globals s)); cbn; [rewrite app_nil_r; destruct s |]; reflexivity.
Qed.

(** X11. [main] with no input file. Without [--ibl-dfg] it prints the usage and
    returns 1, having done nothing else. With [--ibl-dfg] it computes the
    LUT, writes it and returns 0 without building any cubemap: a file with
    a source-code extension is written as text and cannot fail; any other
    file goes through the encoder, with the format chosen from the file
    name, and a failure of the encoder is exit status 1. The call of
    [printUsage] is the event [Usage], as everywhere in [main]. *)
Theorem main_without_input opts s0 s1 :
  handleCommandLineArgments opts s0 = (Returns tt, s1) ->
  let gl := globals s1 in
  let size := outputSizeOr gl DFG_LUT_DEFAULT_SIZE in
  let filename := g_dfg_filename gl in
  let multiscatter := g_dfg_multiscatter gl in
  let format := chooseFormat (getName filename) true in
  let lut :=
    greeting gl "Generating IBL DFG LUT..." ++
    [Ran (CubemapIBL_DFG size multiscatter)] ++
    directoryEvents s1 (getParent (getAbsolutePath filename)) in
  let made' := directoriesAfter s1 (getParent (getAbsolutePath filename)) in
  g_dfg gl = g_dfg (globals s0) || existsb (isOption "a") opts /\
  (g_dfg gl = false ->
   main opts [] s0 =
     (Returns 1, mk_State gl (trace s1 ++ [Usage]) (store s1) (made s1))) /\
  (g_dfg gl = true -> isTextFile filename = true ->
   main opts [] s0 =
     (Returns 0,
      mk_State gl
        (trace s1 ++ lut ++ [WroteDfgText filename size (isIncludeFile filename)])
        (store s1 ++ [DFG multiscatter]) made')) /\
  (g_dfg gl = true -> isTextFile filename = false ->
   main opts [] s0 =
     (if encode format (DFG multiscatter) (g_compression gl) filename
      then Returns 0 else Exits 1,
      mk_State gl
        (trace s1 ++ lut ++ [Encoded filename format (DFG multiscatter) (g_compression gl)])
        (store s1 ++ [DFG multiscatter]) made')).
Proof.
  intros H gl size filename multiscatter format lut made'.
  split; [| split; [| split]].
  - apply handleCommandLineArgments_returns in H
      as [lc [sl [L [_ [_ [_ [_ [_ [D _]]]]]]]]].
    subst gl. rewrite D. apply (optionLoop_flag g_dfg "a" handleOption_g_dfg _ _ _ _ _ L).
  - intros D. unfold main. unfold bind at 1. rewrite H.
    unfold bind at 1. unfold get at 1. fold gl. rewrite D. reflexivity.
  - intros D T. unfold main. unfold bind at 1. rewrite H.
    unfold bind at 1. unfold get at 1. fold gl. rewrite D.
    cbn [negb andb when Datatypes.length Z.of_nat]. change (0 <? 1) with true.
    cbn [andb]. unfold bind at 1. unfold bind at 1. rewrite say_run.
    fold gl size filename multiscatter.
    rewrite iblLutDfg_run. cbn [globals trace store made]. fold gl filename. rewrite T.
    unfold ret. subst lut made'. rewrite <- !app_assoc. reflexivity.
  - intros D T. unfold main. unfold bind at 1. rewrite H.
    unfold bind at 1. unfold get at 1. fold gl. rewrite D.
    cbn [negb andb when Datatypes.length Z.of_nat]. change (0 <? 1) with true.
    cbn [andb]. unfold bind at 1. unfold bind at 1. rewrite say_run.
    fold gl size filename multiscatter.
    rewrite iblLutDfg_run. cbn [globals trace store made]. fold gl filename. rewrite T.
    fold format.
    destruct (encode format (DFG multiscatter) (g_compression gl) filename);
      unfold ret; subst lut made'; rewrite <- !app_assoc; reflexivity.
Qed.

End NoInput.

(** ** The stash of the SH stage *)

Section Harmonics.
Context {collaborators : Collaborators}.

Ltac keeps_stage :=
  unfold saveImage, ensureDirectory, exists_now, outputSh, renderSH,
    renderPreScaledSH3Bands, create, pixelsOf;
  keeps_auto; try (apply keeps_globals; reflexivity).

(** What [sphericalHarmonics] has done to the statics when it comes back. *)
Lemma sphericalHarmonics_returns iname inputCubemap s s' :
  sphericalHarmonics iname inputCubemap s = (Returns tt, s') ->
  let gl := globals s in
  let input := texelsOf s (backing inputCubemap) in
  let computed :=
    if g_sh_shader gl then computeIrradianceSH3Bands input
    else computeSH input (g_sh_compute gl) (g_sh_irradiance gl) in
  let other := computeSH input (g_sh_compute gl) (negb (g_sh_irradiance gl)) in
  globals s' = set_g_coefficients (Some (if g_debug gl then other else computed)) gl.
Proof.
  intros R gl input computed other. unfold sphericalHarmonics in R.
  apply bind_returns in R as [gl0 [sa [G R]]]. injection G as <- <-.
  apply bind_returns in R as [input0 [sb [L R]]]. injection L as <- <-.
  fold gl input in R.
  apply bind_returns in R as [sh0 [s2 [A R]]].
  assert (A' : sh0 = computed /\ globals s2 = gl).
  { subst computed. destruct (g_sh_shader gl);
      unfold bind, emit, ret in A; injection A as <- <-; split; reflexivity. }
  destruct A' as [-> G2]. clear A.
  apply bind_returns in R as [[] [s3 [W R]]].
  apply keeps_run with (f := fun g => g) in W; [| keeps_stage].
  apply bind_returns in R as [sh1 [s4 [B R]]].
  assert (V : sh1 = if g_debug gl then other else computed).
  { match type of B with
    | ?c s3 = _ =>
        assert (Q : returnsOnly (fun sh1 => sh1 = if g_debug gl then other else computed) c)
    end.
    { destruct (g_debug gl) eqn:D; rewrite ?orb_true_r, ?orb_false_r.
      - apply returnsOnly_bind; intros [image cm].
        repeat (apply returnsOnly_bind; intros ?).
        apply returnsOnly_ret. reflexivity.
      - destruct (negb (ShFile_eqb (g_sh_file gl) SH_NONE)).
        + apply returnsOnly_bind; intros [image cm].
          apply returnsOnly_bind; intros ?. apply returnsOnly_ret. reflexivity.
        + apply returnsOnly_ret. reflexivity. }
    apply (Q s3). rewrite B. reflexivity. }
  apply keeps_run with (f := fun g => g) in B; [| keeps_stage].
  unfold modify in R. injection R as <-. cbn [globals].
  rewrite B, W, G2, V. reflexivity.
Qed.

(** X12. The coefficients [sphericalHarmonics] leaves for the later stages. It
    stashes the ones it computed first (pre-scaled irradiance with
    [--sh-shader], else radiance or irradiance as [--sh-irradiance] says),
    except in debug mode, where the variable has been reused for "the other
    one": then the stash holds the coefficients of the opposite kind.
    Nothing else of the statics changes. *)
Theorem sphericalHarmonics_stash iname inputCubemap s s' :
  sphericalHarmonics iname inputCubemap s = (Returns tt, s') ->
  let gl := globals s in
  let input := texelsOf s (backing inputCubemap) in
  let computed :=
    if g_sh_shader gl then computeIrradianceSH3Bands input
    else computeSH input (g_sh_compute gl) (g_sh_irradiance gl) in
  let other := computeSH input (g_sh_compute gl) (negb (g_sh_irradiance gl)) in
  globals s' = set_g_coefficients (Some (if g_debug gl then other else computed)) gl.
Proof. apply sphericalHarmonics_returns. Qed.


End Harmonics.

(** ** The mip chain, level by level *)

(** What the loop adds for an edge [dim], the source level holding [t] and
    the next free raster being number [n]: each new cubemap with the
    contents of its raster. *)
Fixpoint chainFrom (dim : positive) (n : nat) (t : Texels) : list (Cubemap * Texels) :=
  match dim with
  | xH => []
  | xO half | xI half =>
      let t' := MakeSeamless (DownsampleCubemapLevelBoxFilter t) in
      (mk_Cubemap (Zpos half) n, t') :: chainFrom half (S n) t'
  end.

Fixpoint chainEvents (dim : positive) (srcDim : Z) : list Event :=
  match dim with
  | xH => []
  | xO half | xI half =>
      Ran (CubemapUtils_downsampleCubemapLevelBoxFilter (Zpos half) srcDim)
        :: Ran (Cubemap_makeSeamless (Zpos half)) :: chainEvents half (Zpos half)
  end.

Lemma texelsOf_app_old s t n gl tr md :
  (n < List.length (store s))%nat ->
  texelsOf (mk_State gl tr (store s ++ t) md) n = texelsOf s n.
Proof. intros H. unfold texelsOf. cbn [store]. now rewrite app_nth1. Qed.

Lemma texelsOf_new gl tr st x md :
  texelsOf (mk_State gl tr (st ++ [x]) md) (List.length st) = x.
Proof. unfold texelsOf. cbn [store]. apply nth_length. Qed.

Lemma length_chainFrom dim : forall n t,
  List.length (chainFrom dim n t) = Z.to_nat (Z.log2 (Zpos dim)).
Proof.
  assert (A : forall n t, S (List.length (chainFrom dim n t)) = Pos.to_nat (Pos.size dim)).
  { induction dim as [half IH | half IH |]; intros n t; simpl;
      rewrite ?Pos2Nat.inj_succ, ?IH; reflexivity. }
  intros n t. specialize (A n t).
  destruct dim as [half | half |]; [| | reflexivity];
    cbn [Pos.size Z.log2] in *; rewrite Pos2Nat.inj_succ in A; cbn [Z.to_nat]; lia.
Qed.

(** Entry [i] of the chain: its raster, its edge, and where its texels come
    from. *)
Lemma chainFrom_entry dim : forall n t i cm x,
  nth_error (chainFrom dim n t) i = Some (cm, x) ->
  backing cm = (n + i)%nat /\
  getDimensions cm = Z.shiftr (Zpos dim) (Z.of_nat (S i)) /\
  x = MakeSeamless
        (DownsampleCubemapLevelBoxFilter
           (match i with
            | O => t
            | S j => nth j (map snd (chainFrom dim n t)) Uninitialized
            end)).
Proof.
  induction dim as [half IH | half IH |]; intros n t i cm x E.
  3: { destruct i; discriminate. }
  all: simpl chainFrom in *; destruct i as [| j];
    [ injection E as <- <-; cbn [backing getDimensions]; rewrite Nat.add_0_r;
      repeat split
    | cbn [nth_error] in E; destruct (IH _ _ _ _ _ E) as [B [D X]];
      split; [rewrite B; lia |]; split;
      [ rewrite D;
        match goal with
        | |- _ = Z.shiftr ?d _ => change (Zpos half) with (Z.shiftr d 1)
        end;
        rewrite Z.shiftr_shiftr by lia; f_equal; lia
      | rewrite X; cbn [map snd nth]; destruct j; reflexivity ] ].
Qed.

Section MipChain.
Context {collaborators : Collaborators}.

Lemma mipLoop_chain dim : forall mipLevel levels images src s,
  nth_error levels mipLevel = Some src ->
  List.length levels = S mipLevel ->
  mipLoop dim mipLevel levels images s =
    (let chain := chainFrom dim (List.length (store s)) (texelsOf s (backing src)) in
     (Returns (levels ++ map fst chain,
               images ++ map (fun c => mk_Image (Some (backing (fst c)))) chain),
      mk_State (globals s) (trace s ++ chainEvents dim (getDimensions src))
        (store s ++ map snd chain) (made s))).
Proof.
  induction dim as [half IH | half IH |]; intros m levels images src s E L.
  3: { simpl. rewrite !app_nil_r. destruct s; reflexivity. }
  all: cbn zeta; simpl mipLoop; unfold bind at 1;
    rewrite (mipStep_state (Zpos half) m levels images src s E);
    match goal with
    | |- mipLoop _ _ ?l1 _ ?s1 = _ =>
        rewrite (IH (S m) l1 _ (mk_Cubemap (Zpos half) (List.length (store s))) s1)
    end;
    [| rewrite nth_error_app2, L, Nat.sub_diag by lia; reflexivity
     | rewrite length_app, L; simpl; lia ];
    cbn [globals trace store made backing getDimensions];
    rewrite length_app; cbn [List.length]; rewrite Nat.add_1_r;
    rewrite !texelsOf_new;
    simpl chainFrom; simpl chainEvents; cbn [map fst snd backing];
    rewrite <- !app_assoc; cbn [app]; reflexivity.
Qed.


Lemma nth_error_map_fst {A B} (l : list (A * B)) i a :
  nth_error (map fst l) i = Some a -> exists b, nth_error l i = Some (a, b).
Proof.
  rewrite nth_error_map. destruct (nth_error l i) as [[a' b] |]; [| discriminate].
  intros [= <-]. now exists b.
Qed.

Lemma nth_map_snd {A B} (l : list (A * B)) i a b d :
  nth_error l i = Some (a, b) -> nth i (map snd l) d = b.
Proof.
  intros E. apply nth_error_nth. rewrite nth_error_map, E. reflexivity.
Qed.

(** X13. The mip chain for any edge length. From a base level that views an
    existing raster, [generateMipmaps] adds floor(log2(edge)) levels (none
    for an edge of 1 or less); level [i + 1] has the edge of the base
    shifted right [i + 1] times, lives in the [i]-th raster the function
    allocates, and holds the seam-corrected box-filtered contents of level
    [i]; each added raster is owned by the image at the same index; the
    rasters that existed before are left as they were. *)
Theorem mip_chain_levels base image s :
  (backing base < List.length (store s))%nat ->
  exists added s',
    generateMipmaps [base] [image] s =
      (Returns (base :: added,
                image :: map (fun cm => mk_Image (Some (backing cm))) added), s') /\
    globals s' = globals s /\
    List.length added = Z.to_nat (Z.log2 (getDimensions base)) /\
    List.length (store s') = (List.length (store s) + List.length added)%nat /\
    (forall n, (n < List.length (store s))%nat -> texelsOf s' n = texelsOf s n) /\
    (forall i src dst,
       nth_error (base :: added) i = Some src ->
       nth_error (base :: added) (S i) = Some dst ->
       getDimensions dst = Z.shiftr (getDimensions base) (Z.of_nat (S i)) /\
       backing dst = (List.length (store s) + i)%nat /\
       texelsOf s' (backing dst) =
         MakeSeamless (DownsampleCubemapLevelBoxFilter (texelsOf s' (backing src)))).
Proof.
  intros V. unfold generateMipmaps.
  destruct (getDimensions base) as [| dim | dim] eqn:D.
  1, 3: exists [], s; cbn [map List.length Z.log2 Z.to_nat];
    rewrite Nat.add_0_r;
    (split; [reflexivity |]); (split; [reflexivity |]); (split; [reflexivity |]);
    (split; [reflexivity |]); (split; [reflexivity |]);
    intros i src dst _ E; destruct i; discriminate.
  rewrite (mipLoop_chain dim 0 [base] [image] base s eq_refl eq_refl). cbn zeta.
  set (n0 := List.length (store s)).
  set (t0 := texelsOf s (backing base)).
  set (chain := chainFrom dim n0 t0).
  exists (map fst chain).
  eexists. split.
  { cbn [app]. rewrite map_map. reflexivity. }
  cbn [globals store].
  split; [reflexivity |].
  split; [rewrite length_map; apply length_chainFrom |].
  split; [rewrite length_app, !length_map; reflexivity |].
  split; [intros n Hn; apply texelsOf_app_old, Hn |].
  intros i src dst Es Ed. cbn [nth_error] in Ed.
  apply nth_error_map_fst in Ed as [x Ed].
  destruct (chainFrom_entry dim n0 t0 i dst x Ed) as [B [Dm X]].
  split; [exact Dm |]. split; [exact B |].
  assert (Tdst : forall tr,
             texelsOf (mk_State (globals s) tr (store s ++ map snd chain) (made s))
               (backing dst) = x).
  { intros tr. unfold texelsOf. cbn [store]. rewrite B, app_nth2 by (fold n0; lia).
    fold n0. replace (n0 + i - n0)%nat with i by lia.
    apply (nth_map_snd _ _ _ _ _ Ed). }
  rewrite Tdst, X. do 2 f_equal.
  destruct i as [| j].
  - injection Es as <-. rewrite texelsOf_app_old by exact V. reflexivity.
  - cbn [nth_error] in Es. apply nth_error_map_fst in Es as [y Es].
    destruct (chainFrom_entry dim n0 t0 j src y Es) as [Bs _].
    unfold texelsOf. cbn [store]. rewrite Bs, app_nth2 by (fold n0; lia).
    fold n0. replace (n0 + j - n0)%nat with j by lia. reflexivity.
Qed.

End MipChain.

(** ** KTX containers *)

Lemma getBlob_setMetadata c key value i : getBlob (setMetadata c key value) i = getBlob c i.
Proof. reflexivity. Qed.

Section Containers.
Context {collaborators : Collaborators}.

(** One turn of the face loop of [exportKtxFaces] on the container. *)
Definition storeFace (compression : CompressionConfig) (miplevel dim : Z)
    (pixels : Texels) (container : KtxBundle) (j : Z) : KtxBundle :=
  let image := ImageForFace (ktxFace j) pixels in
  let blobIndex := mk_KtxBlobIndex (unsigned miplevel) 0 j in
  if negb (is_INVALID compression) then
    set_info
      (setBlob container blobIndex
         (mk_Blob image true (fst (compressTexture compression image))))
      (set_glInternalFormat (unsigned (snd (compressTexture compression image)))
         (info container))
  else
    setBlob container blobIndex (mk_Blob image false (unsigned (dim * dim * 4))).

Definition compressCalls (compression : CompressionConfig) (miplevel : Z) (js : list Z)
    : list Event :=
  if negb (is_INVALID compression)
  then map (fun j => Ran (compressTexture_call miplevel j)) js else [].

Lemma exportKtxFaceLoop_run compression miplevel cm : forall js container s,
  exportKtxFaceLoop js compression miplevel cm container s =
    (Returns (fold_left (storeFace compression miplevel (unsigned (getDimensions cm))
                           (texelsOf s (backing cm))) js container),
     mk_State (globals s) (trace s ++ compressCalls compression miplevel js)
       (store s) (made s)).
Proof.
  unfold compressCalls.
  induction js as [| j js IH]; intros container s.
  - simpl. destruct (negb _); cbn [map]; rewrite app_nil_r; destruct s; reflexivity.
  - simpl exportKtxFaceLoop. unfold bind at 1.
    unfold exportKtxFace, getImageForFace, bind, load, ret, emit.
    cbn [fold_left]. unfold storeFace at 2.
    destruct (negb (is_INVALID compression)) eqn:V; rewrite IH;
      cbn [globals trace store made map]; unfold compressCalls; rewrite ?V;
      rewrite <- ?app_assoc; reflexivity.
Qed.

(** The container after the six faces of one level. *)
Lemma storeFaces_blobs compression miplevel dim pixels container :
  let container' :=
    fold_left (storeFace compression miplevel dim pixels) (range 0 6) container in
  (forall j, 0 <= j < 6 ->
     exists b,
       getBlob container' (mk_KtxBlobIndex (unsigned miplevel) 0 j) = Some b /\
       blob_pixels b = ImageForFace (ktxFace j) pixels /\
       (is_INVALID compression = true ->
        b = mk_Blob (ImageForFace (ktxFace j) pixels) false (unsigned (dim * dim * 4)))) /\
  (forall i, mipLevel i <> unsigned miplevel -> getBlob container' i = getBlob container i) /\
  numMipLevels container' = numMipLevels container /\
  arrayLength container' = arrayLength container /\
  isCubemap container' = isCubemap container /\
  metadata container' = metadata container /\
  (is_INVALID compression = true -> info container' = info container).
Proof.
  intros container'. subst container'.
  change (range 0 6) with [0; 1; 2; 3; 4; 5]. cbn [fold_left].
  unfold storeFace.
  destruct (is_INVALID compression) eqn:V; cbn [negb].
  - split; [| split; [| repeat split]].
    + intros j Hj.
      assert (C : j = 0 \/ j = 1 \/ j = 2 \/ j = 3 \/ j = 4 \/ j = 5) by lia.
      eexists. split; [| split; [| intros _; reflexivity]].
      * destruct C as [-> | [-> | [-> | [-> | [-> | ->]]]]];
          repeat first
            [ rewrite getBlob_setBlob_same
            | rewrite getBlob_setBlob_other
                by (unfold KtxBlobIndex_eqb; cbn [mipLevel arrayIndex cubeFace];
                    now rewrite Z.eqb_refl) ];
          reflexivity.
      * reflexivity.
    + intros i N.
      repeat rewrite getBlob_setBlob_other
        by (unfold KtxBlobIndex_eqb; cbn [mipLevel arrayIndex cubeFace];
            apply not_eq_sym, Z.eqb_neq in N; now rewrite N).
      reflexivity.
  - split; [| split; [| repeat split; discriminate]].
    + intros j Hj.
      assert (C : j = 0 \/ j = 1 \/ j = 2 \/ j = 3 \/ j = 4 \/ j = 5) by lia.
      eexists. split; [| split; [| discriminate]].
      * destruct C as [-> | [-> | [-> | [-> | [-> | ->]]]]];
          repeat first
            [ rewrite getBlob_set_info
            | rewrite getBlob_setBlob_same
            | rewrite getBlob_setBlob_other
                by (unfold KtxBlobIndex_eqb; cbn [mipLevel arrayIndex cubeFace];
                    now rewrite Z.eqb_refl) ];
          reflexivity.
      * reflexivity.
    + intros i N.
      repeat first
        [ rewrite getBlob_set_info
        | rewrite getBlob_setBlob_other
            by (unfold KtxBlobIndex_eqb; cbn [mipLevel arrayIndex cubeFace];
                apply not_eq_sym, Z.eqb_neq in N; now rewrite N) ].
      reflexivity.
Qed.


(** What a call of [exportKtxFaces] that comes back has done: the six faces
    of the cubemap are in the container under the level's index, the blobs
    of the other levels, the level count and the metadata are as before,
    and only the trace of the state has grown. *)
Lemma exportKtxFaces_returns container miplevel cm s container' s' :
  exportKtxFaces container miplevel cm s = (Returns container', s') ->
  (forall j, 0 <= j < 6 ->
     exists b,
       getBlob container' (mk_KtxBlobIndex (unsigned miplevel) 0 j) = Some b /\
       blob_pixels b = ImageForFace (ktxFace j) (texelsOf s (backing cm))) /\
  (forall i, mipLevel i <> unsigned miplevel -> getBlob container' i = getBlob container i) /\
  numMipLevels container' = numMipLevels container /\
  metadata container' = metadata container /\
  globals s' = globals s /\ store s' = store s /\ made s' = made s.
Proof.
  unfold exportKtxFaces. intros R.
  apply bind_returns in R as [gl [s0 [G R]]]. injection G as <- <-.
  apply bind_returns in R as [[compression c0] [s1 [P R]]].
  rewrite exportKtxFaceLoop_run in R. injection R as <- <-.
  assert (C0 : (forall i, getBlob c0 i = getBlob container i) /\
               numMipLevels c0 = numMipLevels container /\
               metadata c0 = metadata container /\
               globals s1 = globals s /\ store s1 = store s /\ made s1 = made s).
  { destruct (negb (String.eqb (g_compression (globals s)) "")).
    - destruct (negb (fst (parseOptionString (g_compression (globals s)) no_compression))).
      + unfold bind, emit, exit in P. discriminate.
      + injection P as _ <- <-. repeat split.
    - injection P as _ <- <-. repeat split. }
  destruct C0 as [B0 [N0 [M0 [G1 [S1 D1]]]]].
  pose proof (storeFaces_blobs compression miplevel (unsigned (getDimensions cm))
                (texelsOf s1 (backing cm)) c0) as H.
  cbv zeta in H. destruct H as [F [O [N [_ [_ [M _]]]]]].
  cbn [globals store made].
  assert (T : texelsOf s1 (backing cm) = texelsOf s (backing cm))
    by (unfold texelsOf; now rewrite S1).
  rewrite T in *.
  split; [| split; [| repeat split; try congruence]].
  - intros j Hj. destruct (F j Hj) as [b [Gb [Pb _]]]. exists b. split; [exact Gb | exact Pb].
  - intros i Ni. transitivity (getBlob c0 i); [exact (O i Ni) | apply B0].
  - transitivity (numMipLevels c0); [exact N | exact N0].
  - transitivity (metadata c0); [exact M | exact M0].
Qed.

(** X14. The export of a level without compression. With no compression string
    the default-constructed configuration is used; it is the invalid one,
    so no string is parsed and nothing is compressed: the call cannot fail,
    the header is left as it was, and face [j] of the level is stored raw,
    with the size [dim * dim * 4] computed in 32 bits. For edges up
    to 32767 that is four bytes per texel; for an edge of 32768 it is 0. *)
Theorem exportKtxFaces_uncompressed container miplevel cm s :
  g_compression (globals s) = "" ->
  is_INVALID no_compression = true ->
  let dim := unsigned (getDimensions cm) in
  exists container',
    exportKtxFaces container miplevel cm s = (Returns container', s) /\
    info container' = info container /\
    metadata container' = metadata container /\
    (forall j, 0 <= j < 6 ->
       getBlob container' (mk_KtxBlobIndex (unsigned miplevel) 0 j) =
         Some (mk_Blob (ImageForFace (ktxFace j) (texelsOf s (backing cm))) false
                 (unsigned (dim * dim * 4)))) /\
    (forall i, mipLevel i <> unsigned miplevel ->
       getBlob container' i = getBlob container i) /\
    (0 <= getDimensions cm < 2 ^ 15 ->
     unsigned (dim * dim * 4) = 4 * getDimensions cm * getDimensions cm) /\
    (getDimensions cm = 2 ^ 15 -> unsigned (dim * dim * 4) = 0).
Proof.
  intros E V dim.
  unfold exportKtxFaces. unfold bind at 1, get. rewrite E. cbn [String.eqb negb].
  unfold bind, ret. rewrite exportKtxFaceLoop_run. unfold compressCalls. rewrite V.
  cbn [negb]. rewrite app_nil_r. fold dim.
  pose proof (storeFaces_blobs no_compression miplevel dim (texelsOf s (backing cm))
                container) as H.
  cbv zeta in H. destruct H as [F [O [_ [_ [_ [M I]]]]]].
  eexists. split; [destruct s; reflexivity |].
  split; [exact (I V) |]. split; [exact M |].
  split; [| split; [exact O |]].
  - intros j Hj. destruct (F j Hj) as [b [Gb [_ Eb]]]. rewrite Gb, (Eb V). reflexivity.
  - split.
    + intros B.
      assert (D : dim = getDimensions cm)
        by (subst dim; unfold unsigned, UINT_MAX_plus_1; apply Z.mod_small; lia).
      rewrite D. unfold unsigned, UINT_MAX_plus_1.
      assert (getDimensions cm <= 2 ^ 15 - 1) by lia.
      assert (getDimensions cm * getDimensions cm <= (2 ^ 15 - 1) * (2 ^ 15 - 1)) by nia.
      rewrite Z.mod_small; lia.
    + intros E15. subst dim. rewrite E15. reflexivity.
Qed.

End Containers.

(** ** The container of the prefilter stage *)

(** Events that are not the writing of a container, and events that are not
    the encoding of an image file. *)
Definition notContainer (e : Event) : bool :=
  match e with WroteKtx _ _ => false | _ => true end.

Definition notEncoded (e : Event) : bool :=
  match e with Encoded _ _ _ _ => false | _ => true end.

Section KtxPrefilter.
Context {collaborators : Collaborators}.

Lemma keeps_saveImage {X} (f : Globals -> X) path format image compression :
  keeps f (saveImage path format image compression).
Proof. unfold saveImage. keeps_auto. Qed.

Lemma leaves_store_saveImage path format image compression :
  leaves store (saveImage path format image compression).
Proof. unfold saveImage. leaves_store. Qed.

Lemma leaves_run {A X} (f : State -> X) (c : M A) s o s' :
  c s = (o, s') -> leaves f c -> f s' = f s.
Proof. intros R K. specialize (K s). now rewrite R in K. Qed.

(** The output half of a turn in KTX mode. *)
Lemma prefilterOutput_ktx iname outputDir level image dst container s container' s' :
  g_type (globals s) = KTX ->
  prefilterOutput iname outputDir level image dst container s = (Returns container', s') ->
  (forall j, 0 <= j < 6 ->
     exists b,
       getBlob container' (mk_KtxBlobIndex (unsigned level) 0 j) = Some b /\
       blob_pixels b = ImageForFace (ktxFace j) (texelsOf s (backing dst))) /\
  (forall i, mipLevel i <> unsigned level -> getBlob container' i = getBlob container i) /\
  numMipLevels container' = numMipLevels container /\
  metadata container' = metadata container /\
  globals s' = globals s /\ store s' = store s.
Proof.
  intros K R. unfold prefilterOutput in R.
  apply bind_returns in R as [gl [s0 [G R]]]. injection G as <- <-.
  apply bind_returns in R as [[] [s1 [D R]]].
  rewrite K in R. cbn [OutputType_eqb] in R.
  assert (G1 : globals s1 = globals s).
  { apply keeps_run with (f := fun g => g) in D; [exact D |].
    apply keeps_when. unfold pixelsOf. keeps_auto; apply keeps_saveImage. }
  assert (S1 : store s1 = store s).
  { apply leaves_run with (f := store) in D; [exact D |].
    apply leaves_when. unfold pixelsOf. leaves_store; apply leaves_store_saveImage. }
  apply exportKtxFaces_returns in R as [F [O [N [M [G2 [S2 _]]]]]].
  assert (T : texelsOf s1 (backing dst) = texelsOf s (backing dst))
    by (unfold texelsOf; now rewrite S1).
  rewrite T in F.
  repeat split; try congruence; assumption.
Qed.


(** One turn of the loop in KTX mode. *)
Lemma prefilterLevel_ktx iname outputDir levels baseExp numLevels i numSamples container
    s n' container' s' :
  g_type (globals s) = KTX ->
  prefilterLevel iname outputDir levels baseExp numLevels i numSamples container s
    = (Returns (n', container'), s') ->
  let level := size_t (baseExp - i) in
  (exists x, store s' = store s ++ [x]) /\
  globals s' = globals s /\
  (forall j, 0 <= j < 6 ->
     exists b,
       getBlob container' (mk_KtxBlobIndex (unsigned level) 0 j) = Some b /\
       blob_pixels b = ImageForFace (ktxFace j) (texelsOf s' (List.length (store s)))) /\
  (forall idx, mipLevel idx <> unsigned level ->
     getBlob container' idx = getBlob container idx) /\
  numMipLevels container' = numMipLevels container /\
  metadata container' = metadata container.
Proof.
  intros K R level. rewrite prefilterLevel_filters in R.
  apply bind_returns in R as [c1 [s1 [P R]]]. injection R as _ <- <-.
  apply prefilterOutput_ktx in P as [F [O [N [M [G S]]]]]; [| exact K].
  cbn [globals store backing] in *. fold level in F, O.
  split; [eexists; exact S |]. split; [exact G |].
  split; [| repeat split; assumption].
  intros j Hj. destruct (F j Hj) as [b [Gb Pb]]. exists b. split; [exact Gb |].
  rewrite Pb. unfold texelsOf. cbn [store]. rewrite S. reflexivity.
Qed.

(** The loop in KTX mode: every level it goes through ends up in the
    container, face by face, from the raster the turn allocated. *)
Lemma prefilterLoop_ktx iname outputDir levels baseExp numLevels :
  0 <= baseExp <= 31 ->
  forall turns numSamples container s container' s',
    Z.of_nat turns <= baseExp + 1 ->
    g_type (globals s) = KTX ->
    prefilterLoop turns iname outputDir levels baseExp numLevels numSamples container s
      = (Returns container', s') ->
    globals s' = globals s /\
    (exists more, store s' = store s ++ more /\ List.length more = turns) /\
    (forall i, (i < turns)%nat -> forall j, 0 <= j < 6 ->
       exists b,
         getBlob container' (mk_KtxBlobIndex (baseExp - Z.of_nat i) 0 j) = Some b /\
         blob_pixels b =
           ImageForFace (ktxFace j)
             (texelsOf s' (List.length (store s) + (turns - 1 - i)))) /\
    (forall idx, (forall i, (i < turns)%nat -> mipLevel idx <> baseExp - Z.of_nat i) ->
       getBlob container' idx = getBlob container idx) /\
    numMipLevels container' = numMipLevels container /\
    metadata container' = metadata container.
Proof.
  intros B. induction turns as [| i0 IH]; intros numSamples container s c' s' T K R.
  - injection R as <- <-. split; [reflexivity |].
    split; [exists []; rewrite app_nil_r; split; reflexivity |].
    split; [intros i Hi; exfalso; lia |]. repeat split.
  - simpl prefilterLoop in R. apply bind_returns in R as [[n1 c1] [s1 [P R]]].
    apply prefilterLevel_ktx in P as [[x S1] [G1 [F1 [O1 [N1 M1]]]]]; [| exact K].
    assert (U : unsigned (size_t (baseExp - Z.of_nat i0)) = baseExp - Z.of_nat i0).
    { unfold unsigned, size_t, UINT_MAX_plus_1, SIZE_MAX_plus_1.
      rewrite (Z.mod_small (baseExp - Z.of_nat i0) (2 ^ 64)) by lia.
      apply Z.mod_small. lia. }
    rewrite U in F1, O1.
    apply IH in R as [G [[more [St L]] [F [O [N M]]]]]; [| lia | congruence].
    split; [congruence |].
    split; [exists (x :: more); rewrite St, S1, <- app_assoc; split;
            [reflexivity | simpl; now rewrite L] |].
    split; [| split; [| split; congruence]].
    + intros i Hi j Hj.
      destruct (Nat.eq_dec i i0) as [-> | Ni].
      * destruct (F1 j Hj) as [b [Gb Pb]]. exists b. split.
        -- rewrite O; [exact Gb |]. intros i Hi'. cbn [mipLevel]. lia.
        -- rewrite Pb. unfold texelsOf. rewrite St, S1.
           replace (S i0 - 1 - i0)%nat with 0%nat by lia. rewrite Nat.add_0_r.
           rewrite <- app_assoc. cbn [app]. rewrite !nth_length. reflexivity.
      * destruct (F i ltac:(lia) j Hj) as [b [Gb Pb]]. exists b. split; [exact Gb |].
        rewrite Pb. f_equal. f_equal. rewrite S1, length_app. simpl. lia.
    + intros idx Hidx. rewrite O.
      * apply O1. apply (Hidx i0). lia.
      * intros i Hi. apply Hidx. lia.
Qed.


Lemma emits_exportKtxFaceLoop_calls p js compression miplevel cm :
  (forall l j, p (Ran (compressTexture_call l j)) = true) ->
  forall container, emits p (exportKtxFaceLoop js compression miplevel cm container).
Proof.
  intros H. induction js as [| j js IH]; intros container; simpl.
  - apply emits_ret.
  - apply emits_bind; [| intros; apply IH].
    unfold exportKtxFace, getImageForFace.
    repeat first [ apply emits_emit, H | emits_step ].
Qed.

Lemma keeps_exportKtxFaceLoop {X} (f : Globals -> X) js compression miplevel cm :
  forall container, keeps f (exportKtxFaceLoop js compression miplevel cm container).
Proof.
  induction js as [| j js IH]; intros container; simpl.
  - apply keeps_ret.
  - apply keeps_bind; [| intros; apply IH].
    unfold exportKtxFace, getImageForFace. keeps_auto.
Qed.

Lemma emits_prefilterLoop_notContainer iname outputDir levels baseExp numLevels turns :
  forall numSamples container,
    emits notContainer
      (prefilterLoop turns iname outputDir levels baseExp numLevels numSamples container).
Proof.
  induction turns as [| i IH]; intros numSamples container; simpl.
  - apply emits_ret.
  - apply emits_bind; [| intros [n c]; apply IH].
    unfold prefilterLevel, prefilterOutput, roughnessFilter, makeSeamless, create,
      exportKtxFaces, saveImage, pixelsOf, cubemapToEquirectangular, cubemapToOctahedron,
      getImageForFace.
    emits_auto.
    all: apply emits_exportKtxFaceLoop_calls; reflexivity.
Qed.

Lemma emits_exportKtxFaces_notEncoded container miplevel cm :
  emits notEncoded (exportKtxFaces container miplevel cm).
Proof.
  unfold exportKtxFaces. emits_auto.
  all: apply emits_exportKtxFaceLoop_calls; reflexivity.
Qed.

(** Without [--debug], a KTX turn writes no image file. *)
Lemma prefilterLoop_ktx_quiet iname outputDir levels baseExp numLevels turns :
  forall numSamples container s,
    g_type (globals s) = KTX -> g_debug (globals s) = false ->
    exists es,
      trace (snd (prefilterLoop turns iname outputDir levels baseExp numLevels numSamples
                    container s)) = trace s ++ es /\
      forallb notEncoded es = true.
Proof.
  induction turns as [| i IH]; intros numSamples container s K D.
  - exists []. simpl. now rewrite app_nil_r.
  - simpl prefilterLoop. unfold bind at 1. rewrite prefilterLevel_filters.
    match goal with
    | |- context [bind (prefilterOutput ?a ?b ?c ?d ?e ?f) ?k ?s0] =>
        set (sf := s0);
        assert (E : prefilterOutput a b c d e f sf = exportKtxFaces f c e sf)
    end.
    { unfold prefilterOutput, bind at 1, get. subst sf. cbn [globals]. rewrite K, D.
      cbn [when OutputType_eqb]. unfold bind at 1, ret. reflexivity. }
    unfold bind. rewrite E.
    match goal with
    | |- context [exportKtxFaces ?f ?c ?e sf] =>
        pose proof (emits_exportKtxFaces_notEncoded f c e sf) as [es1 [T1 F1]];
        assert (G1 : globals (snd (exportKtxFaces f c e sf)) = globals s);
        [ apply (keeps_run (fun g => g) (exportKtxFaces f c e) sf _ _
                   (surjective_pairing _));
          unfold exportKtxFaces; keeps_auto; apply keeps_exportKtxFaceLoop
        | destruct (exportKtxFaces f c e sf) as [[c1 | n | | ] s1] ]
    end; cbn [fst snd ret] in *.
    2-4: eexists; split; [rewrite T1; subst sf; cbn [trace]; rewrite <- !app_assoc;
                          reflexivity |];
         rewrite !forallb_app, F1; unfold levelLine; destruct (g_quiet (globals s));
         reflexivity.
    destruct (IH (samplesForLevel (size_t (baseExp - Z.of_nat i)) numSamples) c1 s1)
      as [es [T F]]; [congruence | congruence |].
    eexists. split.
    + rewrite T, T1. subst sf. cbn [trace]. rewrite <- !app_assoc. reflexivity.
    + rewrite !forallb_app, F1, F. unfold levelLine. destruct (g_quiet (globals s));
        reflexivity.
Qed.


(** The stage in KTX mode, when it comes back. *)
Lemma iblRoughnessPrefilter_ktx iname levels dir s s' baseExp :
  g_type (globals s) = KTX ->
  builtin_ctz (outputSizeOr (globals s) IBL_DEFAULT_SIZE) = Some baseExp ->
  iblRoughnessPrefilter iname levels dir s = (Returns tt, s') ->
  let outputDir := concat (getAbsolutePath dir) (getNameWithoutExtension iname) in
  let path := concat outputDir (String.append (getNameWithoutExtension iname) "_ibl.ktx") in
  exists evs container,
    trace s' = trace s ++ evs ++ [Ran KtxBundle_serialize; WroteKtx path container] /\
    forallb notContainer evs = true /\
    (g_debug (globals s) = false -> forallb notEncoded evs = true) /\
    numMipLevels container = baseExp + 1 /\
    (forall L j, 0 <= L <= baseExp -> 0 <= j < 6 ->
       exists b,
         getBlob container (mk_KtxBlobIndex L 0 j) = Some b /\
         blob_pixels b =
           ImageForFace (ktxFace j) (texelsOf s' (List.length (store s) + Z.to_nat L))) /\
    (forall idx, ~ 0 <= mipLevel idx <= baseExp -> getBlob container idx = None) /\
    match g_coefficients (globals s) with
    | Some coefficients =>
        exists text,
          shMetadata coefficients (g_sh_compute (globals s)) = Some text /\
          metadata container = [("sh", text)]
    | None => metadata container = []
    end.
Proof.
  intros K C R outputDir path.
  pose proof (builtin_ctz_range _ _ C) as B.
  unfold iblRoughnessPrefilter in R. fold outputDir in R.
  apply bind_returns in R as [[] [s0 [E R]]].
  rewrite ensureDirectory_exact in E. injection E as <-.
  apply bind_returns in R as [gl [s0' [G R]]]. injection G as <- <-.
  cbn [globals] in R. rewrite C in R.
  apply bind_returns in R as [c1 [s1 [L R]]].
  match type of L with
  | prefilterLoop ?t ?a ?b ?c ?d ?e ?n ?c0 ?s0 = _ =>
      pose proof (emits_prefilterLoop_notContainer a b c d e t n c0 s0) as [es [T F]];
      pose proof (prefilterLoop_ktx_quiet a b c d e t n c0 s0 K) as Q;
      rewrite L in T, Q;
      apply (prefilterLoop_ktx a b c d e B) in L as [G1 [[more [St Lm]] [Fb [O [N M]]]]];
        [| lia | exact K]
  end.
  cbn [snd globals trace store made] in *.
  apply bind_returns in R as [gl1 [s1' [G R]]]. injection G as <- <-.
  rewrite G1, K in R. cbn [OutputType_eqb when] in R.
  apply bind_returns in R as [c2 [s2 [Md R]]].
  unfold bind, emit in R. injection R as <-. cbn [trace store].
  assert (C2 : s2 = s1 /\
               (forall idx, getBlob c2 idx = getBlob c1 idx) /\
               numMipLevels c2 = numMipLevels c1 /\
               match g_coefficients (globals s) with
               | Some coefficients =>
                   exists text,
                     shMetadata coefficients (g_sh_compute (globals s)) = Some text /\
                     metadata c2 = [("sh", text)]
               | None => metadata c2 = []
               end).
  { destruct (g_coefficients (globals s)) as [cs |].
    - destruct (shMetadata cs (g_sh_compute (globals s))) as [text |]; [| discriminate].
      injection Md as <- <-. repeat split. exists text. split; [reflexivity |].
      cbn [metadata setMetadata]. rewrite M. reflexivity.
    - injection Md as <- <-. repeat split. exact M. }
  destruct C2 as [-> [B2 [N2 M2]]].
  exists (directoryEvents s outputDir ++ es), c2.
  split; [rewrite T, <- !app_assoc; reflexivity |].
  split.
  { rewrite forallb_app, F, andb_true_r. unfold directoryEvents.
    destruct (_ || _); reflexivity. }
  split.
  { intros D. destruct (Q D) as [es' [T' F']]. rewrite T in T'.
    apply app_inv_head in T'. subst es'.
    rewrite forallb_app, F', andb_true_r. unfold directoryEvents.
    destruct (_ || _); reflexivity. }
  split; [rewrite N2, N; reflexivity |].
  split; [| split; [| exact M2]].
  - intros Lv j HL Hj.
    assert (Hi : (Z.to_nat (baseExp - Lv) < Z.to_nat (baseExp + 1))%nat)
      by (clear - B HL; lia).
    destruct (Fb (Z.to_nat (baseExp - Lv)) Hi j Hj) as [b [Gb Pb]].
    exists b. rewrite B2. split.
    + rewrite <- Gb. do 2 f_equal. clear - B HL. lia.
    + rewrite Pb. unfold texelsOf. cbn [store]. do 3 f_equal. clear - B HL. lia.
  - intros idx Hidx. rewrite B2, O; [reflexivity |].
    intros i Hi. clear - B Hidx Hi. lia.
Qed.

(** X15. The KTX output of the roughness prefilter. In KTX mode the stage, when
    it comes back, has written exactly one container, as its last act, to
    [<dir>/<name>/<name>_ibl.ktx]. The container has [baseExp + 1] mip
    levels and, for every level [L] from 0 to [baseExp] and every face
    index [j] from 0 to 5, a blob made of face [ktxFace j] of the [L]-th
    raster the stage allocated; it holds no blob for any other level. Its
    metadata is the entry ["sh"] when spherical harmonics were computed
    before and nothing otherwise. Without [--debug] no image file is
    written. *)
Theorem prefilter_ktx_container iname levels dir s s' baseExp :
  g_type (globals s) = KTX ->
  builtin_ctz (outputSizeOr (globals s) IBL_DEFAULT_SIZE) = Some baseExp ->
  iblRoughnessPrefilter iname levels dir s = (Returns tt, s') ->
  let outputDir := concat (getAbsolutePath dir) (getNameWithoutExtension iname) in
  let path := concat outputDir (String.append (getNameWithoutExtension iname) "_ibl.ktx") in
  exists evs container,
    trace s' = trace s ++ evs ++ [Ran KtxBundle_serialize; WroteKtx path container] /\
    forallb notContainer evs = true /\
    (g_debug (globals s) = false -> forallb notEncoded evs = true) /\
    numMipLevels container = baseExp + 1 /\
    (forall L j, 0 <= L <= baseExp -> 0 <= j < 6 ->
       exists b,
         getBlob container (mk_KtxBlobIndex L 0 j) = Some b /\
         blob_pixels b =
           ImageForFace (ktxFace j) (texelsOf s' (List.length (store s) + Z.to_nat L))) /\
    (forall idx, ~ 0 <= mipLevel idx <= baseExp -> getBlob container idx = None) /\
    match g_coefficients (globals s) with
    | Some coefficients =>
        exists text,
          shMetadata coefficients (g_sh_compute (globals s)) = Some text /\
          metadata container = [("sh", text)]
    | None => metadata container = []
    end.
Proof. apply iblRoughnessPrefilter_ktx. Qed.


End KtxPrefilter.

(** ** The files of the stages *)

(** The turns of a loop that are started when each turn can fail: all of
    them up to and including the first that fails. *)
Fixpoint attempted {A} (ok : A -> bool) (l : list A) : list A :=
  match l with
  | [] => []
  | a :: t => if ok a then a :: attempted ok t else [a]
  end.

Section Files.
Context {collaborators : Collaborators}.

(** A loop that saves one face per turn: it stops, with status 1, at the
    first face the encoder refuses. *)
Lemma forEach_saveFaces (cm : Cubemap) (path : Z -> string) format compression
    (l : list Z) (s : State) :
  let pixels i := ImageForFace (face_of_index i) (texelsOf s (backing cm)) in
  let ok i := encode format (pixels i) compression (path i) in
  forEach l (fun i =>
               image <- getImageForFace cm (face_of_index i) ;;
               saveImage (path i) format image compression) s =
    (if forallb ok l then Returns tt else Exits 1,
     mk_State (globals s)
       (trace s ++ map (fun i => Encoded (path i) format (pixels i) compression)
                     (attempted ok l))
       (store s) (made s)).
Proof.
  intros pixels ok. revert s pixels ok.
  induction l as [| i l IH]; intros s pixels ok.
  - simpl. rewrite app_nil_r. destruct s; reflexivity.
  - simpl forEach. unfold bind at 1. unfold bind at 1.
    unfold getImageForFace at 1. unfold bind at 1, load at 1, ret at 1.
    unfold saveImage at 1. unfold bind at 1, emit at 1.
    cbn [globals trace store made forallb attempted]. fold (pixels i). fold (ok i).
    destruct (ok i) eqn:O; unfold ret, exit; cbn [andb].
    + rewrite IH. cbn [globals trace store made].
      change (texelsOf (mk_State ?g ?t (store s) ?m) ?n) with (texelsOf s n).
      fold pixels. fold ok. cbn [map]. rewrite <- app_assoc. reflexivity.
    + reflexivity.
Qed.


(** X16. The faces of a cubemap as image files. With output type cube faces,
    [extractCubemapFaces] encodes the six faces in the order of the face
    enumeration, each to [<dir>/<name>/<face><ext>], and stops with status 1
    at the first the encoder refuses; with type equirect or octahedron it
    encodes one image, the converted cubemap, to [<dir>/<name>/skybox<ext>].
    The directory is made first if it is missing. *)
Theorem extractCubemapFaces_images iname cm dir s :
  let gl := globals s in
  let outputDir := concat (getAbsolutePath dir) (getNameWithoutExtension iname) in
  let ext := chooseExtension (g_format gl) in
  let t := texelsOf s (backing cm) in
  let ends (o : Outcome unit) (evs : list Event) :=
    (o, mk_State gl (trace s ++ directoryEvents s outputDir ++ evs) (store s)
          (directoriesAfter s outputDir)) in
  let whole (converted : Texels) (call : Call) :=
    ends (if encode (g_format gl) converted (g_compression gl)
               (concat outputDir (String.append "skybox" ext))
          then Returns tt else Exits 1)
      [Ran call;
       Encoded (concat outputDir (String.append "skybox" ext)) (g_format gl) converted
         (g_compression gl)] in
  let facePath i := concat outputDir (String.append (getFaceName (face_of_index i)) ext) in
  let pixels i := ImageForFace (face_of_index i) t in
  let ok i := encode (g_format gl) (pixels i) (g_compression gl) (facePath i) in
  (g_type gl = FACES ->
   extractCubemapFaces iname cm dir s =
     ends (if forallb ok (range 0 6) then Returns tt else Exits 1)
       (map (fun i => Encoded (facePath i) (g_format gl) (pixels i) (g_compression gl))
          (attempted ok (range 0 6)))) /\
  (g_type gl = EQUIRECT ->
   extractCubemapFaces iname cm dir s =
     whole (CubemapToEquirectangular t)
       (CubemapUtils_cubemapToEquirectangular (getDimensions cm))) /\
  (g_type gl = OCTAHEDRON ->
   extractCubemapFaces iname cm dir s =
     whole (CubemapToOctahedron t) (CubemapUtils_cubemapToOctahedron (getDimensions cm))).
Proof.
  intros gl outputDir ext t ends whole facePath pixels ok.
  split; [| split]; intros K;
    unfold extractCubemapFaces; fold outputDir;
    unfold bind at 1; rewrite ensureDirectory_exact;
    unfold bind at 1; unfold get at 1; cbn [globals]; fold gl; fold ext;
    rewrite K; cbn [OutputType_eqb].
  - rewrite (forEach_saveFaces cm facePath (g_format gl) (g_compression gl)).
    cbn [globals trace store made].
    change (texelsOf (mk_State ?g ?tr (store s) ?m) ?n) with (texelsOf s n).
    fold t. fold pixels. fold ok. subst ends. cbn beta. rewrite <- ?app_assoc. reflexivity.
  - unfold cubemapToEquirectangular, saveImage, bind, emit, load, ret.
    cbn [globals trace store made].
    change (texelsOf (mk_State ?g ?tr (store s) ?m) ?n) with (texelsOf s n). fold t.
    subst whole ends. cbn beta.
    destruct (encode _ _ _ _); unfold ret, exit; rewrite <- !app_assoc; reflexivity.
  - unfold cubemapToOctahedron, saveImage, bind, emit, load, ret.
    cbn [globals trace store made].
    change (texelsOf (mk_State ?g ?tr (store s) ?m) ?n) with (texelsOf s n). fold t.
    subst whole ends. cbn beta.
    destruct (encode _ _ _ _); unfold ret, exit; rewrite <- !app_assoc; reflexivity.
Qed.

End Files.

Ltac emits_stage :=
  repeat first [ apply emits_ensureDirectory; reflexivity
               | apply emits_saveImage; reflexivity
               | emits_step ].

Section MoreFiles.
Context {collaborators : Collaborators}.

(** X17. The diffuse-irradiance stage pays no attention to the output type.
    Without [--debug] it filters the chain into one new cubemap of edge
    [1 << baseExp] and encodes its six faces, in the order of the face
    enumeration, to [<dir>/<name>/i_<face><ext>] in the format of
    [--format], whether the type is faces, KTX, equirect or octahedron; it
    stops with status 1 at the first face the encoder refuses. *)
Theorem iblDiffuseIrradiance_faces iname levels dir s baseExp :
  g_debug (globals s) = false ->
  builtin_ctz (outputSizeOr (globals s) IBL_DEFAULT_SIZE) = Some baseExp ->
  let gl := globals s in
  let outputDir := concat (getAbsolutePath dir) (getNameWithoutExtension iname) in
  let ext := chooseExtension (g_format gl) in
  let dim := unsigned (Z.shiftl 1 baseExp) in
  let filtered :=
    DiffuseIrradiance (map (fun cm => texelsOf s (backing cm)) levels) (g_num_samples gl) in
  let facePath i :=
    concat outputDir
      (String.append "i_" (String.append (getFaceName (face_of_index i)) ext)) in
  let pixels i := ImageForFace (face_of_index i) filtered in
  let ok i := encode (g_format gl) (pixels i) (g_compression gl) (facePath i) in
  iblDiffuseIrradiance iname levels dir s =
    (if forallb ok (range 0 6) then Returns tt else Exits 1,
     mk_State gl
       (trace s ++ directoryEvents s outputDir
          ++ [Ran (CubemapIBL_diffuseIrradiance dim (g_num_samples gl))]
          ++ map (fun i => Encoded (facePath i) (g_format gl) (pixels i) (g_compression gl))
               (attempted ok (range 0 6)))
       (store s ++ [filtered]) (directoriesAfter s outputDir)).
Proof.
  intros D C gl outputDir ext dim filtered facePath pixels ok.
  unfold iblDiffuseIrradiance. fold outputDir.
  unfold bind at 1. rewrite ensureDirectory_exact.
  unfold bind at 1. unfold get at 1. cbn [globals]. rewrite C. fold gl. fold dim. fold ext.
  unfold bind at 1. unfold create at 1. unfold bind at 1, allocate at 1, ret at 1.
  cbn [globals trace store made].
  unfold bind at 1. unfold diffuseIrradiance at 1.
  unfold bind at 1. unfold emit at 1. cbn [globals trace store made getDimensions].
  unfold bind at 1. rewrite loadAll_run.
  unfold overwrite at 1. cbn [globals trace store made backing].
  store_norm.
  assert (T : map (fun cm => texelsOf
                               (mk_State gl
                                  ((trace s ++ directoryEvents s outputDir) ++
                                   [Ran (CubemapIBL_diffuseIrradiance dim (g_num_samples gl))])
                                  (store s ++ [Uninitialized])
                                  (directoriesAfter s outputDir)) (backing cm)) levels
              = map (fun cm => texelsOf s (backing cm)) levels).
  { apply map_ext. intros cm. unfold texelsOf. cbn [store]. apply nth_app_default. }
  rewrite T. fold filtered.
  unfold bind at 1.
  rewrite (forEach_saveFaces (mk_Cubemap dim (List.length (store s))) facePath
             (g_format gl) (g_compression gl)).
  cbn [globals trace store made backing]. rewrite texelsOf_new.
  fold pixels. fold ok. fold gl in D. rewrite D. cbn [when].
  subst ok pixels. cbv beta.
  destruct (forallb _ (range 0 6)); unfold ret; rewrite <- !app_assoc; reflexivity.
Qed.


Lemma emits_exportKtxFaces p container miplevel cm :
  (forall l j, p (Ran (compressTexture_call l j)) = true) ->
  (forall d, p (Stderr d) = true) ->
  emits p (exportKtxFaces container miplevel cm).
Proof.
  intros H E. unfold exportKtxFaces.
  repeat first [ apply emits_emit, E | apply emits_exportKtxFaceLoop_calls, H | emits_step ].
Qed.

(** X18. The faces of a cubemap as a container. With output type KTX,
    [extractCubemapFaces], when it comes back, has written one container
    and no image file: [<dir>/<name>/<name>_skybox.ktx], with one mip level,
    no metadata, and the six faces of the cubemap under the indices
    (0, 0, j), face [ktxFace j] under [j]. The rasters and the statics are
    as before. *)
Theorem extractCubemapFaces_ktx iname cm dir s s' :
  g_type (globals s) = KTX ->
  extractCubemapFaces iname cm dir s = (Returns tt, s') ->
  let outputDir := concat (getAbsolutePath dir) (getNameWithoutExtension iname) in
  let path :=
    concat outputDir (String.append (getNameWithoutExtension iname) "_skybox.ktx") in
  exists evs container,
    trace s' = trace s ++ evs ++ [Ran KtxBundle_serialize; WroteKtx path container] /\
    forallb notContainer evs = true /\
    forallb notEncoded evs = true /\
    numMipLevels container = 1 /\
    metadata container = [] /\
    (forall j, 0 <= j < 6 ->
       exists b,
         getBlob container (mk_KtxBlobIndex 0 0 j) = Some b /\
         blob_pixels b = ImageForFace (ktxFace j) (texelsOf s (backing cm))) /\
    (forall idx, mipLevel idx <> 0 -> getBlob container idx = None) /\
    store s' = store s /\ globals s' = globals s.
Proof.
  intros K R outputDir path. unfold extractCubemapFaces in R. fold outputDir in R.
  apply bind_returns in R as [[] [s0 [E R]]].
  rewrite ensureDirectory_exact in E. injection E as <-.
  apply bind_returns in R as [gl [s0' [G R]]]. injection G as <- <-.
  cbn [globals] in R. rewrite K in R. cbn [OutputType_eqb] in R.
  apply bind_returns in R as [c1 [s1 [X R]]].
  unfold bind, emit in R. injection R as <-. cbn [trace store globals].
  match type of X with
  | exportKtxFaces ?c ?l ?m ?s0 = _ =>
      pose proof (emits_exportKtxFaces notContainer c l m
                    ltac:(reflexivity) ltac:(reflexivity) s0) as [es [T F]];
      pose proof (emits_exportKtxFaces notEncoded c l m
                    ltac:(reflexivity) ltac:(reflexivity) s0) as [es' [T' F']];
      rewrite X in T, T'; cbn [snd trace] in T, T'
  end.
  rewrite T in T'. apply app_inv_head in T'. subst es'.
  apply exportKtxFaces_returns in X as [Fb [O [N [M [G [S _]]]]]].
  cbn [globals store numMipLevels metadata] in *.
  exists (directoryEvents s outputDir ++ es), c1.
  split; [rewrite T, <- !app_assoc; reflexivity |].
  assert (Dv : forall p, forallb p (directoryEvents s outputDir) = true \/
                         directoryEvents s outputDir = [Mkdir outputDir]).
  { intros p. unfold directoryEvents. destruct (_ || _); [left | right]; reflexivity. }
  split; [rewrite forallb_app, F; destruct (Dv notContainer) as [-> | ->]; reflexivity |].
  split; [rewrite forallb_app, F'; destruct (Dv notEncoded) as [-> | ->]; reflexivity |].
  split; [exact N |]. split; [exact M |].
  split; [| split; [| split; assumption]].
  - intros j Hj. destruct (Fb j Hj) as [b [Gb Pb]]. exists b. split; [exact Gb | exact Pb].
  - intros idx Hi. rewrite O; [reflexivity | exact Hi].
Qed.

Lemma emits_sphericalHarmonics iname cm :
  emits notContainer (sphericalHarmonics iname cm).
Proof.
  unfold sphericalHarmonics, outputSh, renderSH, renderPreScaledSH3Bands, create, pixelsOf.
  emits_stage.
Qed.

Lemma emits_iblMipmapPrefilter iname images levels dir :
  emits notContainer (iblMipmapPrefilter iname images levels dir).
Proof.
  unfold iblMipmapPrefilter, cubemapToEquirectangular, cubemapToOctahedron,
    getImageForFace, pixelsOf.
  emits_stage.
Qed.

Lemma emits_iblDiffuseIrradiance iname levels dir :
  emits notContainer (iblDiffuseIrradiance iname levels dir).
Proof.
  unfold iblDiffuseIrradiance, diffuseIrradiance, renderSH, create, getImageForFace,
    pixelsOf.
  emits_stage.
Qed.

(** X19. Containers come from two places only: whatever the options, the SH
    stage, the mipmap stage for importance sampling, the diffuse-irradiance
    stage and the DFG stage never write a KTX container. *)
Theorem containers_from_two_stages :
  (forall iname cm, emits notContainer (sphericalHarmonics iname cm)) /\
  (forall iname images levels dir,
     emits notContainer (iblMipmapPrefilter iname images levels dir)) /\
  (forall iname levels dir, emits notContainer (iblDiffuseIrradiance iname levels dir)) /\
  (forall filename size multiscatter,
     emits notContainer (iblLutDfg filename size multiscatter)).
Proof.
  repeat split; intros.
  - apply emits_sphericalHarmonics.
  - apply emits_iblMipmapPrefilter.
  - apply emits_iblDiffuseIrradiance.
  - unfold iblLutDfg. emits_stage.
Qed.

End MoreFiles.

(** ** Two runs that differ in the statics only

    [alikeRuns g1 g2 c1 c2]: from states that differ in the statics only,
    [g1] for [c1] and [g2] for [c2], the two computations end the same way
    and leave the same trace, rasters and directories, and neither changes
    the statics. *)

Definition withGlobals (g : Globals) (s : State) : State :=
  mk_State g (trace s) (store s) (made s).

Definition alikeRuns {A} (g1 g2 : Globals) (c1 c2 : M A) : Prop :=
  forall s,
    c1 (withGlobals g1 s) =
      (fst (c2 (withGlobals g2 s)), withGlobals g1 (snd (c2 (withGlobals g2 s)))) /\
    globals (snd (c2 (withGlobals g2 s))) = g2.

Lemma withGlobals_eta g s : globals s = g -> withGlobals g s = s.
Proof. intros <-. destruct s; reflexivity. Qed.

Lemma alikeRuns_bind {A B} g1 g2 (c1 c2 : M A) (k1 k2 : A -> M B) :
  alikeRuns g1 g2 c1 c2 -> (forall a, alikeRuns g1 g2 (k1 a) (k2 a)) ->
  alikeRuns g1 g2 (bind c1 k1) (bind c2 k2).
Proof.
  intros Hc Hk s. unfold bind. destruct (Hc s) as [E G]. rewrite E.
  destruct (c2 (withGlobals g2 s)) as [[a | n | | ] s2]; cbn [fst snd] in *;
    try (split; [reflexivity | exact G]).
  destruct (Hk a s2) as [E' G']. rewrite (withGlobals_eta g2 s2 G) in E', G'.
  split; [exact E' | exact G'].
Qed.

Lemma alikeRuns_get {A} g1 g2 (k1 k2 : Globals -> M A) :
  alikeRuns g1 g2 (k1 g1) (k2 g2) -> alikeRuns g1 g2 (bind get k1) (bind get k2).
Proof. intros H s. unfold bind, get. cbn [globals withGlobals]. apply H. Qed.

(** A computation that neither reads nor writes the statics. *)
Lemma alikeRuns_blind {A} g1 g2 (c : M A) :
  (forall g s, c (withGlobals g s) = (fst (c s), withGlobals g (snd (c s)))) ->
  alikeRuns g1 g2 c c.
Proof.
  intros H s. rewrite (H g1 s), (H g2 s). cbn [fst snd]. split; reflexivity.
Qed.

Lemma alikeRuns_when g1 g2 b (c1 c2 : M unit) :
  alikeRuns g1 g2 c1 c2 -> alikeRuns g1 g2 (when b c1) (when b c2).
Proof.
  intros H. destruct b; [exact H |]. apply alikeRuns_blind. reflexivity.
Qed.

Lemma alikeRuns_forEach {A} g1 g2 (l : list A) (b1 b2 : A -> M unit) :
  (forall a, alikeRuns g1 g2 (b1 a) (b2 a)) ->
  alikeRuns g1 g2 (forEach l b1) (forEach l b2).
Proof.
  intros H. induction l as [| a l IH]; simpl.
  - apply alikeRuns_blind. reflexivity.
  - apply alikeRuns_bind; [apply H | intros; exact IH].
Qed.

Ltac alike_step :=
  match goal with
  | |- alikeRuns _ _ (bind _ _) (bind _ _) => apply alikeRuns_bind; [| intros ?]
  | |- alikeRuns _ _ (when _ _) (when _ _) => apply alikeRuns_when
  | |- alikeRuns _ _ (forEach _ _) (forEach _ _) => apply alikeRuns_forEach; intros ?
  | |- alikeRuns _ _ (if ?b then _ else _) (if ?b then _ else _) => destruct b
  | |- alikeRuns _ _ (match ?x with _ => _ end) (match ?x with _ => _ end) => destruct x
  | |- alikeRuns _ _ ?c ?c => apply alikeRuns_blind; intros ? ?; reflexivity
  end.

Section MipmapFiles.
Context {collaborators : Collaborators}.

(** X20. The mipmap stage for importance sampling has no KTX output. With the
    output type KTX it does what it does with the type cube faces: the same
    files in the same order, the same outcome, and the statics as they
    were. *)
Theorem mipmap_stage_ktx_as_faces iname images levels dir s :
  g_type (globals s) = KTX ->
  let ktx := iblMipmapPrefilter iname images levels dir s in
  iblMipmapPrefilter iname images levels dir
      (mk_State (set_g_type FACES (globals s)) (trace s) (store s) (made s)) =
    (fst ktx,
     mk_State (set_g_type FACES (globals s)) (trace (snd ktx)) (store (snd ktx))
       (made (snd ktx))) /\
  globals (snd ktx) = globals s.
Proof.
  intros K ktx.
  assert (R : alikeRuns (set_g_type FACES (globals s)) (globals s)
                (iblMipmapPrefilter iname images levels dir)
                (iblMipmapPrefilter iname images levels dir)).
  { unfold iblMipmapPrefilter, ensureDirectory, exists_now.
    apply alikeRuns_bind; [repeat alike_step | intros _].
    apply alikeRuns_forEach. intros level.
    destruct (nth_error levels level) as [dst |]; [| alike_step].
    destruct (nth_error images level) as [img |]; [| alike_step].
    apply alikeRuns_get. cbn [g_debug g_compression g_format g_type set_g_type].
    rewrite K. cbn [OutputType_eqb].
    unfold saveImage, pixelsOf, getImageForFace.
    repeat alike_step. }
  specialize (R s). rewrite (withGlobals_eta (globals s) s eq_refl) in R.
  exact R.
Qed.

End MipmapFiles.

(** ** From the SH stage to the container *)

Section AcrossStages.
Context {collaborators : Collaborators}.

Lemma keeps_forEach {A X} (f : Globals -> X) (l : list A) body :
  (forall a, keeps f (body a)) -> keeps f (forEach l body).
Proof.
  intros H. induction l as [| a l IH]; simpl.
  - apply keeps_ret.
  - apply keeps_bind; [apply H | intros; exact IH].
Qed.

Lemma keeps_iblMipmapPrefilter {X} (f : Globals -> X) iname images levels dir :
  keeps f (iblMipmapPrefilter iname images levels dir).
Proof.
  unfold iblMipmapPrefilter, saveImage, ensureDirectory, exists_now,
    cubemapToEquirectangular, cubemapToOctahedron, getImageForFace, pixelsOf.
  repeat first [ apply keeps_forEach; intros ? | keeps_step
               | apply keeps_globals; reflexivity ].
Qed.

Definition anyEvent (e : Event) : bool := true.

Lemma emits_extractCubemapFaces iname cm dir :
  emits anyEvent (extractCubemapFaces iname cm dir).
Proof.
  unfold extractCubemapFaces, cubemapToEquirectangular, cubemapToOctahedron,
    getImageForFace.
  repeat first [ apply emits_exportKtxFaces; reflexivity | emits_stage ].
Qed.

Lemma emits_weaken {A} (p q : Event -> bool) (c : M A) :
  (forall e, p e = true -> q e = true) -> emits p c -> emits q c.
Proof.
  intros W H s. destruct (H s) as [es [T F]]. exists es. split; [exact T |].
  rewrite forallb_forall in *. intros e I. apply W, F, I.
Qed.

Lemma emits_run {A} p (c : M A) s o s' :
  c s = (o, s') -> emits p c -> exists es, trace s' = trace s ++ es.
Proof.
  intros R H. destruct (H s) as [es [T _]]. rewrite R in T. now exists es.
Qed.

(** X21. Spherical harmonics reach the KTX container. When SH are asked for and
    the roughness prefilter runs in KTX mode, [runStages], when it comes
    back, has written the container [<ld-dir>/<name>/<name>_ibl.ktx] with
    the metadata entry ["sh"]: the SH stage runs first and leaves its
    coefficients in the statics, from where the prefilter takes them. The
    coefficients are the ones [sphericalHarmonics] stashed (the opposite
    kind in debug mode). *)
Theorem ktx_carries_sh iname images level0 rest s s' baseExp :
  g_sh_compute (globals s) <> 0 ->
  g_prefilter (globals s) = true ->
  g_type (globals s) = KTX ->
  builtin_ctz (outputSizeOr (globals s) IBL_DEFAULT_SIZE) = Some baseExp ->
  runStages iname images (level0 :: rest) s = (Returns tt, s') ->
  let gl := globals s in
  let input := texelsOf s (backing level0) in
  let stash :=
    if g_debug gl then computeSH input (g_sh_compute gl) (negb (g_sh_irradiance gl))
    else if g_sh_shader gl then computeIrradianceSH3Bands input
    else computeSH input (g_sh_compute gl) (g_sh_irradiance gl) in
  let outputDir :=
    concat (getAbsolutePath (g_prefilter_dir gl)) (getNameWithoutExtension iname) in
  let path := concat outputDir (String.append (getNameWithoutExtension iname) "_ibl.ktx") in
  exists before container text after,
    trace s' = trace s ++ before ++ [WroteKtx path container] ++ after /\
    numMipLevels container = baseExp + 1 /\
    shMetadata stash (g_sh_compute gl) = Some text /\
    metadata container = [("sh", text)].
Proof.
  intros Sh P K C R gl input stash outputDir path.
  unfold runStages in R.
  apply bind_returns in R as [gl0 [s0 [G R]]]. injection G as <- <-. fold gl in R.
  apply Z.eqb_neq in Sh. fold gl in Sh. rewrite Sh in R. cbn [negb when] in R.
  apply bind_returns in R as [[] [s1 [H R]]].
  apply bind_returns in H as [[] [sa [Say H]]].
  rewrite say_run in Say. injection Say as <-.
  pose proof (emits_run _ _ _ _ _ H (emits_sphericalHarmonics iname level0)) as [e1 T1].
  apply sphericalHarmonics_returns in H. cbn [globals trace store] in H, T1.
  change (texelsOf (mk_State ?g ?t (store s) ?m) ?n) with (texelsOf s n) in H.
  fold gl input in H.
  apply bind_returns in R as [gl1 [s1' [G R]]]. injection G as <- <-.
  apply bind_returns in R as [[] [s2 [Mi R]]].
  assert (G2 : globals s2 = globals s1).
  { apply keeps_run with (f := fun g => g) in Mi; [exact Mi |].
    apply keeps_when, keeps_bind; [apply keeps_say | intros; apply keeps_iblMipmapPrefilter]. }
  assert (T2 : exists e2, trace s2 = trace s1 ++ e2).
  { apply (emits_run notContainer _ _ _ _ Mi).
    apply emits_when, emits_bind; [apply emits_say; reflexivity |
                                   intros; apply emits_iblMipmapPrefilter]. }
  destruct T2 as [e2 T2].
  assert (Pf : g_prefilter (globals s1) = true) by (rewrite H; exact P).
  rewrite Pf in R. cbn [when] in R.
  apply bind_returns in R as [[] [s3 [Pre R]]].
  apply bind_returns in Pre as [[] [sb [Say Pre]]].
  rewrite say_run in Say. injection Say as <-.
  apply iblRoughnessPrefilter_ktx with (baseExp := baseExp) in Pre;
    [| cbn [globals]; rewrite G2, H; exact K
     | cbn [globals]; rewrite G2, H; exact C].
  cbn [globals trace store] in Pre.
  destruct Pre as [evs [container [T3 [_ [_ [N [_ [_ Md]]]]]]]].
  rewrite G2, H in Md. cbn [g_coefficients set_g_coefficients g_sh_compute] in Md.
  destruct Md as [text [Sm Mc]].
  apply bind_returns in R as [[] [s4 [Irr R]]].
  assert (T4 : exists e4, trace s4 = trace s3 ++ e4).
  { apply (emits_run notContainer _ _ _ _ Irr).
    apply emits_when, emits_bind; [apply emits_say; reflexivity |
                                   intros; apply emits_iblDiffuseIrradiance]. }
  destruct T4 as [e4 T4].
  assert (T5 : exists e5, trace s' = trace s4 ++ e5).
  { apply (emits_run anyEvent _ _ _ _ R).
    unfold roughnessFilter, create.
    repeat first [ apply emits_extractCubemapFaces | apply emits_say; reflexivity
                 | emits_step ]. }
  destruct T5 as [e5 T5].
  assert (T : exists before after,
             trace s' = trace s ++ before ++ [WroteKtx path container] ++ after).
  { rewrite T5, T4, T3, T2, T1. rewrite G2, H. cbn [g_prefilter_dir set_g_coefficients].
    fold gl. fold outputDir. fold path.
    rewrite <- !app_assoc. cbn [app].
    match goal with
    | |- exists _ _, _ ++ ?a ++ ?b ++ ?c ++ ?d ++ ?e ++ _ = _ =>
        exists (a ++ b ++ c ++ d ++ e ++ [Ran KtxBundle_serialize]), (e4 ++ e5)
    end.
    rewrite <- !app_assoc. cbn [app]. reflexivity. }
  destruct T as [before [after T]].
  exists before, container, text, after.
  split; [exact T | split; [exact N | split; [exact Sm | exact Mc]]].
Qed.

End AcrossStages.

(** ** Runs of the plain implementation *)

(** The plain implementation with the conversions as the C++ library has
    them at the edges: [std::stoi] throws [std::out_of_range] for a number
    that does not fit an [int], and [std::stod] reads [nan]. *)
Definition strict (files : list (string * LinearImage)) : Collaborators :=
  let plain := Plain.collaborators files in
  {| isPOT := @isPOT plain;
     saturate := @saturate plain;
     log2 := @log2 plain;
     stoul := @stoul plain;
     stoi := fun s =>
       match Plain.decimal s with
       | Some v => if v <? 2 ^ 31 then Converted v else out_of_range
       | None => invalid_argument
       end;
     stod := fun s => if String.eqb s "nan" then Converted nan else @stod plain s;
     sscanf_u := @sscanf_u plain;
     formatDouble := @formatDouble plain;
     exists_on_disk := @exists_on_disk plain;
     getName := @getName plain;
     getNameWithoutExtension := @getNameWithoutExtension plain;
     getExtension := @getExtension plain;
     getAbsolutePath := @getAbsolutePath plain;
     getParent := @getParent plain;
     concat := @concat plain;
     decode := @decode plain;
     encode := @encode plain;
     chooseFormat := @chooseFormat plain;
     chooseExtension := @chooseExtension plain;
     CompressionConfig := @CompressionConfig plain;
     no_compression := @no_compression plain;
     is_INVALID := @is_INVALID plain;
     parseOptionString := @parseOptionString plain;
     compressTexture := @compressTexture plain;
     face_of_index := @face_of_index plain;
     getFaceName := @getFaceName plain;
     computeSH := @computeSH plain;
     computeIrradianceSH3Bands := @computeIrradianceSH3Bands plain;
     ENDIAN_DEFAULT := @ENDIAN_DEFAULT plain;
     UNSIGNED_BYTE := @UNSIGNED_BYTE plain;
     RGBA := @RGBA plain |}.

Section Runs.

#[local] Instance on_no_files : Collaborators := strict [].

(** A store with one raster, the level-0 cubemap of a synthetic input. *)
Definition grid_state (gl : Globals) : State := mk_State gl [] [GenerateUVGrid 1 1] [].

(** [cmgen -f ktx -t equirect]: the type is KTX. *)
Lemma format_ktx_forces_type_witness :
  g_type (globals (snd (handleCommandLineArgments
                          [("f"%char, Some "ktx"); ("t"%char, Some "equirect")]
                          initial_state))) = KTX.
Proof.
  apply (format_ktx_forces_type [("f"%char, Some "ktx"); ("t"%char, Some "equirect")]
           initial_state);
    [reflexivity | vm_compute; reflexivity].
Defined.

(** [--type=cube] and [--format=jpg] change nothing. *)
Lemma unrecognised_values_ignored_witness :
  main [("q"%char, None); ("t"%char, Some "cube")] ["sky.hdr"] initial_state
    = main [("q"%char, None)] ["sky.hdr"] initial_state /\
  main [("f"%char, Some "jpg"); ("q"%char, None)] [] initial_state
    = main [("q"%char, None)] [] initial_state.
Proof.
  split.
  - exact (proj1 (unrecognised_values_ignored [("q"%char, None)] "cube" [] ["sky.hdr"]
                    initial_state) eq_refl).
  - exact (proj2 (unrecognised_values_ignored [] "jpg" [("q"%char, None)] []
                    initial_state) eq_refl).
Defined.

(** [cmgen -x out sky]. *)
Definition deploy_run : Outcome unit * State :=
  prologue [("x"%char, Some "out")] "sky" initial_state.

Lemma deploy_profile_witness :
  let gl := globals (snd deploy_run) in
  g_deploy_dir gl = "out" /\
  g_sh_compute gl = 3 /\ g_sh_shader gl = true /\ g_sh_irradiance gl = true /\
  g_sh_output gl = true /\ g_sh_file gl = SH_TEXT /\
  g_sh_filename gl = "out/sky/sh.txt" /\
  g_extract_faces gl = true /\ g_extract_dir gl = "out" /\
  g_prefilter gl = true /\ g_prefilter_dir gl = "out" /\
  g_format gl = RGBM /\ g_type gl = FACES.
Proof.
  assert (R : prologue [("x"%char, Some "out")] "sky" initial_state
              = (Returns tt, snd deploy_run)) by (vm_compute; reflexivity).
  destruct (deploy_profile [("x"%char, Some "out")] "sky" initial_state (snd deploy_run)
              eq_refl R)
    as [A [B [C [D [E [F [G [H [I [J [K L]]]]]]]]]]].
  exact (conj eq_refl
           (conj A (conj B (conj C (conj D (conj E (conj F (conj G (conj H (conj I (conj J
              (conj (K eq_refl) (L eq_refl eq_refl))))))))))))).
Defined.

(** [--sh=2], [--sh=0], [--sh] and [--sh-irradiance]. *)
Lemma sh_band_count_witness :
  g_sh_compute (globals (snd (handleCommandLineArgments [("z"%char, Some "2")]
                                initial_state))) = 2 /\
  g_sh_compute (globals (snd (handleCommandLineArgments [("z"%char, Some "0")]
                                initial_state))) = 1 /\
  g_sh_compute (globals (snd (handleCommandLineArgments [("z"%char, None)]
                                initial_state))) = 3 /\
  g_sh_compute (globals (snd (handleCommandLineArgments [("i"%char, None)]
                                initial_state))) = 3.
Proof.
  split; [| split; [| split]].
  - exact (proj1 sh_band_count [] "2" [] initial_state _ eq_refl eq_refl).
  - exact (proj1 sh_band_count [] "0" [] initial_state _ eq_refl eq_refl).
  - exact (proj1 sh_band_count [] "" [] initial_state _ eq_refl eq_refl eq_refl).
  - exact (proj2 sh_band_count [("i"%char, None)] initial_state _ eq_refl eq_refl eq_refl).
Defined.

(** [--size=big], [--extract-blur=big], [--ibl-samples=big] and
    [--sh=4294967296]. *)
Lemma unparsable_numbers_terminate_witness :
  main [("s"%char, Some "big")] ["sky.hdr"] initial_state = (Terminates, initial_state) /\
  main [("r"%char, Some "big")] ["sky.hdr"] initial_state = (Terminates, initial_state) /\
  main [("k"%char, Some "big")] ["sky.hdr"] initial_state = (Terminates, initial_state) /\
  main [("z"%char, Some "4294967296")] ["sky.hdr"] initial_state =
    (Terminates,
     mk_State (set_g_sh_output true (set_g_sh_compute 1 initial_globals)) [] [] []).
Proof.
  pose proof (unparsable_numbers_terminate [] [] ["sky.hdr"] initial_locals initial_state
                initial_state "big" eq_refl) as [A [B [C _]]].
  pose proof (unparsable_numbers_terminate [] [] ["sky.hdr"] initial_locals initial_state
                initial_state "4294967296" eq_refl) as [_ [_ [_ D]]].
  split; [exact (A eq_refl) | split; [exact (B eq_refl) | split; [exact (C eq_refl) |]]].
  exact (D eq_refl).
Defined.

(** [--extract-blur=2.5], [--extract-blur=0.5] and [--extract-blur=nan]. *)
Lemma extract_blur_check_witness :
  main [("r"%char, Some "2.5")] ["sky.hdr"] initial_state =
    (Exits 0,
     mk_State (set_g_extract_blur 2.5%float initial_globals) [Stderr RoughnessOutOfRange]
       [] []) /\
  handleOption "r" "0.5" initial_locals initial_state =
    (Returns initial_locals,
     mk_State (set_g_extract_blur 0.5%float initial_globals) [] [] []) /\
  handleOption "r" "nan" initial_locals initial_state =
    (Returns initial_locals, mk_State (set_g_extract_blur nan initial_globals) [] [] []).
Proof.
  split; [| split].
  - exact (proj1 (extract_blur_check [] [] ["sky.hdr"] initial_locals initial_state
                    initial_state "2.5" 2.5%float eq_refl eq_refl) eq_refl).
  - exact (proj1 (proj2 (extract_blur_check [] [] [] initial_locals initial_state
                           initial_state "0.5" 0.5%float eq_refl eq_refl)) eq_refl).
  - exact (proj2 (proj2 (extract_blur_check [] [] [] initial_locals initial_state
                           initial_state "nan" nan eq_refl eq_refl)) eq_refl).
Defined.

(** [cmgen], [cmgen --ibl-dfg=dfg.h] and [cmgen --ibl-dfg=dfg.png]. *)
Lemma main_without_input_witness :
  main [] [] initial_state = (Returns 1, mk_State initial_globals [Usage] [] []) /\
  main [("a"%char, Some "dfg.h")] [] initial_state =
    (Returns 0,
     mk_State (set_g_dfg_filename "dfg.h" (set_g_dfg true initial_globals))
       [Stdout "Generating IBL DFG LUT..."; Ran (CubemapIBL_DFG 128 false); Mkdir "dfg.h";
        WroteDfgText "dfg.h" 128 false]
       [DFG false] ["dfg.h"]) /\
  main [("a"%char, Some "dfg.png")] [] initial_state =
    (Returns 0,
     mk_State (set_g_dfg_filename "dfg.png" (set_g_dfg true initial_globals))
       [Stdout "Generating IBL DFG LUT..."; Ran (CubemapIBL_DFG 128 false);
        Mkdir "dfg.png"; Encoded "dfg.png" HDR (DFG false) ""]
       [DFG false] ["dfg.png"]).
Proof.
  split; [| split].
  - exact (proj1 (proj2 (main_without_input [] initial_state initial_state eq_refl))
             eq_refl).
  - exact (proj1 (proj2 (proj2 (main_without_input [("a"%char, Some "dfg.h")] initial_state
                                  _ eq_refl))) eq_refl eq_refl).
  - exact (proj2 (proj2 (proj2 (main_without_input [("a"%char, Some "dfg.png")]
                                  initial_state _ eq_refl))) eq_refl eq_refl).
Defined.

(** [--help] and an option the handler has no case for. *)
Lemma help_and_unknown_options_witness :
  main [("q"%char, None); ("h"%char, None); ("s"%char, Some "big")] ["sky.hdr"]
      initial_state =
    (Exits 0, mk_State (set_g_quiet true initial_globals) [Usage] [] []) /\
  main [("?"%char, None)] [] initial_state =
    (Exits 0, mk_State initial_globals [Usage] [] []) /\
  main [("l"%char, None)] [] initial_state =
    (Exits 0, mk_State initial_globals [License] [] []).
Proof.
  split; [| split].
  - exact (proj1 (help_and_unknown_options [("q"%char, None)] "h"%char None
                    [("s"%char, Some "big")] ["sky.hdr"] initial_locals initial_state _
                    eq_refl) eq_refl).
  - exact (proj1 (help_and_unknown_options [] "?"%char None [] [] initial_locals
                    initial_state _ eq_refl) eq_refl).
  - exact (proj2 (help_and_unknown_options [] "l"%char None [] [] initial_locals
                    initial_state _ eq_refl) eq_refl).
Defined.

(** A base of edge 6, which is no power of two: two more levels. *)
Lemma mip_chain_levels_witness :
  let base := mk_Cubemap 6 0 in
  let image := mk_Image (Some 0%nat) in
  let s := grid_state initial_globals in
  exists added s',
    generateMipmaps [base] [image] s =
      (Returns (base :: added,
                image :: map (fun cm => mk_Image (Some (backing cm))) added), s') /\
    globals s' = globals s /\
    List.length added = 2%nat /\
    List.length (store s') = (1 + List.length added)%nat /\
    (forall n, (n < 1)%nat -> texelsOf s' n = texelsOf s n) /\
    (forall i src dst,
       nth_error (base :: added) i = Some src ->
       nth_error (base :: added) (S i) = Some dst ->
       getDimensions dst = Z.shiftr 6 (Z.of_nat (S i)) /\
       backing dst = (1 + i)%nat /\
       texelsOf s' (backing dst) =
         MakeSeamless (DownsampleCubemapLevelBoxFilter (texelsOf s' (backing src)))).
Proof.
  apply (mip_chain_levels (mk_Cubemap 6 0) (mk_Image (Some 0%nat))
           (grid_state initial_globals)).
  simpl. lia.
Defined.

(** Three bands of radiance, no debug: the stash is what was computed. *)
Definition harmonics_state : State := grid_state (set_g_sh_compute 3 initial_globals).

Lemma sphericalHarmonics_stash_witness :
  globals (snd (sphericalHarmonics "sky" (mk_Cubemap 4 0) harmonics_state)) =
    set_g_coefficients (Some (computeSH (GenerateUVGrid 1 1) 3 false))
      (globals harmonics_state).
Proof.
  apply (sphericalHarmonics_stash "sky" (mk_Cubemap 4 0) harmonics_state).
  vm_compute. reflexivity.
Defined.

(** Level 0 of a 4-edge cubemap into an empty container: 64 bytes a face. *)
Lemma exportKtxFaces_uncompressed_witness :
  let s := grid_state initial_globals in
  exists container',
    exportKtxFaces empty_container 0 (mk_Cubemap 4 0) s = (Returns container', s) /\
    info container' = info empty_container /\
    metadata container' = metadata empty_container /\
    (forall j, 0 <= j < 6 ->
       getBlob container' (mk_KtxBlobIndex 0 0 j) =
         Some (mk_Blob (ImageForFace (ktxFace j) (GenerateUVGrid 1 1)) false 64)) /\
    (forall i, mipLevel i <> 0 -> getBlob container' i = getBlob empty_container i).
Proof.
  destruct (@exportKtxFaces_uncompressed on_no_files empty_container 0 (mk_Cubemap 4 0)
              (grid_state initial_globals) eq_refl eq_refl)
    as [container' [R [I [M [B [O _]]]]]].
  exists container'. exact (conj R (conj I (conj M (conj B O)))).
Defined.

(** The prefilter stage in KTX mode for a 4-edge output. *)
Definition ktx_state : State :=
  grid_state (set_g_type KTX (set_g_output_size 4 initial_globals)).

Definition ktx_prefilter_run : Outcome unit * State :=
  iblRoughnessPrefilter "sky" [mk_Cubemap 4 0] "out" ktx_state.

Lemma prefilter_ktx_container_witness :
  exists evs container,
    trace (snd ktx_prefilter_run) =
      evs ++ [Ran KtxBundle_serialize; WroteKtx "out/sky/sky_ibl.ktx" container] /\
    forallb notContainer evs = true /\
    forallb notEncoded evs = true /\
    numMipLevels container = 3 /\
    (forall L j, 0 <= L <= 2 -> 0 <= j < 6 ->
       exists b,
         getBlob container (mk_KtxBlobIndex L 0 j) = Some b /\
         blob_pixels b =
           ImageForFace (ktxFace j) (texelsOf (snd ktx_prefilter_run) (1 + Z.to_nat L))) /\
    (forall idx, ~ 0 <= mipLevel idx <= 2 -> getBlob container idx = None) /\
    metadata container = [].
Proof.
  assert (R : iblRoughnessPrefilter "sky" [mk_Cubemap 4 0] "out" ktx_state
              = (Returns tt, snd ktx_prefilter_run)) by (vm_compute; reflexivity).
  destruct (prefilter_ktx_container "sky" [mk_Cubemap 4 0] "out" ktx_state
              (snd ktx_prefilter_run) 2 eq_refl eq_refl R)
    as [evs [container [T [C [E [N [B [O M]]]]]]]].
  exists evs, container.
  exact (conj T (conj C (conj (E eq_refl) (conj N (conj B (conj O M)))))).
Defined.

(** The faces of a 4-edge cubemap as files, as one equirectangular image,
    and as one octahedral image. *)
Lemma extractCubemapFaces_images_witness :
  extractCubemapFaces "sky" (mk_Cubemap 4 0) "out" (grid_state initial_globals) =
    (Returns tt,
     mk_State initial_globals
       (Mkdir "out/sky" ::
        map (fun f => Encoded (String.append "out/sky/" (String.append (getFaceName f) ".hdr"))
                        PNG (ImageForFace f (GenerateUVGrid 1 1)) "")
          [NX; PX; NY; PY; NZ; PZ])
       [GenerateUVGrid 1 1] ["out/sky"]) /\
  extractCubemapFaces "sky" (mk_Cubemap 4 0) "out"
      (grid_state (set_g_type EQUIRECT initial_globals)) =
    (Returns tt,
     mk_State (set_g_type EQUIRECT initial_globals)
       [Mkdir "out/sky"; Ran (CubemapUtils_cubemapToEquirectangular 4);
        Encoded "out/sky/skybox.hdr" PNG (CubemapToEquirectangular (GenerateUVGrid 1 1)) ""]
       [GenerateUVGrid 1 1] ["out/sky"]) /\
  extractCubemapFaces "sky" (mk_Cubemap 4 0) "out"
      (grid_state (set_g_type OCTAHEDRON initial_globals)) =
    (Returns tt,
     mk_State (set_g_type OCTAHEDRON initial_globals)
       [Mkdir "out/sky"; Ran (CubemapUtils_cubemapToOctahedron 4);
        Encoded "out/sky/skybox.hdr" PNG (CubemapToOctahedron (GenerateUVGrid 1 1)) ""]
       [GenerateUVGrid 1 1] ["out/sky"]).
Proof.
  split; [| split].
  - exact (proj1 (extractCubemapFaces_images "sky" (mk_Cubemap 4 0) "out"
                    (grid_state initial_globals)) eq_refl).
  - exact (proj1 (proj2 (extractCubemapFaces_images "sky" (mk_Cubemap 4 0) "out"
                           (grid_state (set_g_type EQUIRECT initial_globals)))) eq_refl).
  - exact (proj2 (proj2 (extractCubemapFaces_images "sky" (mk_Cubemap 4 0) "out"
                           (grid_state (set_g_type OCTAHEDRON initial_globals)))) eq_refl).
Defined.

(** The faces of a 4-edge cubemap as a container. *)
Definition ktx_extract_run : Outcome unit * State :=
  extractCubemapFaces "sky" (mk_Cubemap 4 0) "out" ktx_state.

Lemma extractCubemapFaces_ktx_witness :
  exists evs container,
    trace (snd ktx_extract_run) =
      evs ++ [Ran KtxBundle_serialize; WroteKtx "out/sky/sky_skybox.ktx" container] /\
    forallb notContainer evs = true /\
    forallb notEncoded evs = true /\
    numMipLevels container = 1 /\
    metadata container = [] /\
    (forall j, 0 <= j < 6 ->
       exists b,
         getBlob container (mk_KtxBlobIndex 0 0 j) = Some b /\
         blob_pixels b = ImageForFace (ktxFace j) (GenerateUVGrid 1 1)) /\
    (forall idx, mipLevel idx <> 0 -> getBlob container idx = None) /\
    store (snd ktx_extract_run) = [GenerateUVGrid 1 1] /\
    globals (snd ktx_extract_run) = globals ktx_state.
Proof.
  assert (R : extractCubemapFaces "sky" (mk_Cubemap 4 0) "out" ktx_state
              = (Returns tt, snd ktx_extract_run)) by (vm_compute; reflexivity).
  exact (extractCubemapFaces_ktx "sky" (mk_Cubemap 4 0) "out" ktx_state
           (snd ktx_extract_run) eq_refl R).
Defined.

(** The irradiance stage with the type set to KTX: six [i_] files all the
    same. *)
Lemma iblDiffuseIrradiance_faces_witness :
  let filtered := DiffuseIrradiance [GenerateUVGrid 1 1] 1024 in
  iblDiffuseIrradiance "sky" [mk_Cubemap 4 0] "out" ktx_state =
    (Returns tt,
     mk_State (globals ktx_state)
       ([Mkdir "out/sky"; Ran (CubemapIBL_diffuseIrradiance 4 1024)] ++
        map (fun f => Encoded (String.append "out/sky/i_"
                                 (String.append (getFaceName f) ".hdr"))
                        PNG (ImageForFace f filtered) "")
          [NX; PX; NY; PY; NZ; PZ])
       [GenerateUVGrid 1 1; filtered] ["out/sky"]).
Proof.
  exact (iblDiffuseIrradiance_faces "sky" [mk_Cubemap 4 0] "out" ktx_state 2
           eq_refl eq_refl).
Defined.

(** The mipmap stage on one level, with the type KTX and with the type
    cube faces. *)
Definition ktx_mipmap_run : Outcome unit * State :=
  iblMipmapPrefilter "sky" [mk_Image (Some 0%nat)] [mk_Cubemap 4 0] "out" ktx_state.

Lemma mipmap_stage_ktx_as_faces_witness :
  iblMipmapPrefilter "sky" [mk_Image (Some 0%nat)] [mk_Cubemap 4 0] "out"
      (grid_state (set_g_type FACES (globals ktx_state))) =
    (fst ktx_mipmap_run,
     mk_State (set_g_type FACES (globals ktx_state)) (trace (snd ktx_mipmap_run))
       (store (snd ktx_mipmap_run)) (made (snd ktx_mipmap_run))) /\
  globals (snd ktx_mipmap_run) = globals ktx_state.
Proof.
  exact (mipmap_stage_ktx_as_faces "sky" [mk_Image (Some 0%nat)] [mk_Cubemap 4 0] "out"
           ktx_state eq_refl).
Defined.

(** SH, then the prefilter in KTX mode: the container carries the
    coefficients. *)
Definition sh_ktx_state : State :=
  grid_state (set_g_prefilter_dir "out"
                (set_g_prefilter true
                   (set_g_sh_compute 3
                      (set_g_type KTX (set_g_output_size 4 initial_globals))))).

Definition sh_ktx_run : Outcome unit * State :=
  runStages "sky" [mk_Image (Some 0%nat)] [mk_Cubemap 4 0] sh_ktx_state.

Lemma ktx_carries_sh_witness :
  exists before container text after,
    trace (snd sh_ktx_run) =
      before ++ [WroteKtx "out/sky/sky_ibl.ktx" container] ++ after /\
    numMipLevels container = 3 /\
    shMetadata (computeSH (GenerateUVGrid 1 1) 3 false) 3 = Some text /\
    metadata container = [("sh", text)].
Proof.
  assert (R : runStages "sky" [mk_Image (Some 0%nat)] [mk_Cubemap 4 0] sh_ktx_state
              = (Returns tt, snd sh_ktx_run)) by (vm_compute; reflexivity).
  exact (ktx_carries_sh "sky" [mk_Image (Some 0%nat)] (mk_Cubemap 4 0) [] sh_ktx_state
           (snd sh_ktx_run) 2 ltac:(discriminate) eq_refl eq_refl eq_refl R).
Defined.

(** The usage message for [cmgen], and for [CMGEN]. *)
Lemma printUsage_substitutes_witness :
  UsageText.printUsage 3 "cmgen" =
    Some (String.append "cmgen"
            (String.append (substring 5 222 UsageText.usage)
               (String.append "cmgen"
                  (String.append (substring 232 28 UsageText.usage)
                     (String.append "cmgen" (substring 265 2664 UsageText.usage)))))).
Proof. apply (printUsage_substitutes "cmgen" 3); [reflexivity | lia]. Defined.

Lemma printUsage_never_ends_witness : UsageText.printUsage 1000 "CMGEN" = None.
Proof. apply (printUsage_never_ends "CMGEN" 0 1000). reflexivity. Defined.

End Runs.
